(** * Static Dial-A-Ride Problem: the LB and LAEB MILP formulations

  A shallow embedding of [darp_model.py] (class [DARPModelLB]) and
  [darp_model_laeb.py] (class [DARPModelLAEB]): data validation, the
  construction of sets, parameters and constraint rules, and the
  reconstruction of vehicle routes from a variable assignment.

  Numbers are rationals ([Q]); Python dictionaries with string keys are
  [gmap string _]; Python sets are [gset]; objects are threaded through a
  state-and-exception monad.

  Of Pyomo the embedding keeps what the two classes depend on: a set holds
  its members in normal form and has one dimension; a rule is run on every
  index as soon as its constraint is declared on the concrete model, and
  must return a relation that mentions a variable; a variable has no value
  until a solver loads one. A parameter table is a total function on its
  index set: a dictionary that misses a key of the index set, or binds a
  key outside it, is not modelled. *)

From Stdlib Require Import Ascii QArith Qminmax Lqa.
From stdpp Require Import base strings list gmap pretty.

(** ** The Python and Pyomo runtime the two classes rely on *)

Module Py.

(** Exceptions that the modelled code can raise. [ValueError msg] is the
    exception the two classes raise themselves, with its message;
    [KeyError key] is a failed dictionary lookup [data[key]]; [TypeError key]
    is a value of the data bundle that has not the shape the code uses it
    at. An exception that arises inside Pyomo or a Python built-in is
    recorded by its class and by the component or operation it arises in
    ([ValueError_in], [KeyError_in], [TypeError_in]); its message is not
    modelled. *)
Inductive exn :=
| ValueError (msg : string)
| KeyError (key : string)
| TypeError (key : string)
| IndexError
| ValueError_in (component : string)
| KeyError_in (component : string)
| TypeError_in (component : string).

(** Outcome of running a piece of code: a value, an exception, or a loop
    that has not exited within the iterations granted ([Diverge]). *)
Inductive outcome (A : Type) :=
| Ok (a : A)
| Raise (e : exn)
| Diverge.
Arguments Ok {A} a.
Arguments Raise {A} e.
Arguments Diverge {A}.

Definition obind {A B} (o : outcome A) (k : A → outcome B) : outcome B :=
  match o with
  | Ok a => k a
  | Raise e => Raise e
  | Diverge => Diverge
  end.

#[global] Instance outcome_ret : MRet outcome := λ A a, Ok a.
#[global] Instance outcome_bind : MBind outcome := λ A B k o, obind o k.

(** Methods run on an object [self : St]; an exception leaves the object
    as it was when the exception was raised. *)
Definition M (St A : Type) : Type := St → St * outcome A.

Definition mbind_M {St A B} (c : M St A) (k : A → M St B) : M St B :=
  λ self,
    match c self with
    | (self', Ok a) => k a self'
    | (self', Raise e) => (self', Raise e)
    | (self', Diverge) => (self', Diverge)
    end.

#[global] Instance M_ret {St} : MRet (M St) := λ A a self, (self, Ok a).
#[global] Instance M_bind {St} : MBind (M St) := λ A B k c, mbind_M c k.

Definition get {St} : M St St := λ self, (self, Ok self).
Definition put {St} (self' : St) : M St unit := λ _, (self', Ok tt).
Definition lift {St A} (o : outcome A) : M St A := λ self, (self, o).

(** *** Values found in a data bundle *)

Definition arc : Type := string * string.
(** An event is a tuple [(location, onboard state ...)]; the depot event
    [('0',)] is [("0", [])]. *)
Definition event : Type := string * list Z.
Definition event_arc : Type := event * event.

(** The components of an event are strings and integers. A member of a
    Pyomo set is kept in normal form: nested tuples are flattened, and a
    tuple of one component is replaced by that component, so a member is
    either a scalar or a flat tuple. *)
Inductive atom :=
| Str (s : string)
| Int (z : Z).

Definition tuple : Type := list atom.

Inductive pyobj :=
| Scalar (a : atom)
| Tuple (items : tuple).

#[global] Instance atom_eq_dec : EqDecision atom.
Proof. solve_decision. Defined.
#[global] Instance pyobj_eq_dec : EqDecision pyobj.
Proof. solve_decision. Defined.

(** The event [(location, onboard state ...)] as a Python tuple. *)
Definition event_tuple (v : event) : tuple := Str v.1 :: map Int v.2.

(** Pyomo's normal form of an index. *)
Definition normalize (t : tuple) : pyobj :=
  match t with
  | [a] => Scalar a
  | _ => Tuple t
  end.

(** The normal form of the pair of events [(v, w)]: one flat tuple. *)
Definition flatten_arc (vw : event_arc) : tuple :=
  event_tuple vw.1 ++ event_tuple vw.2.

(** [x == y] between sets' members, their components and tuple literals: a
    string or an integer never equals a tuple. *)
Definition py_eq (x y : pyobj) : bool :=
  match x, y with
  | Scalar a, Scalar b => bool_decide (a = b)
  | Tuple s, Tuple t => bool_decide (s = t)
  | _, _ => false
  end.

(** [s[k]] on a string: the one-character string at position [k]. *)
Fixpoint str_getitem (s : string) (k : nat) : outcome string :=
  match s, k with
  | EmptyString, _ => Raise IndexError
  | String ch _, O => Ok (String ch EmptyString)
  | String _ rest, S k' => str_getitem rest k'
  end.

(** [a[k]] on a component of a member. *)
Definition atom_getitem (a : atom) (k : nat) : outcome string :=
  match a with
  | Str s => str_getitem s k
  | Int _ => Raise (TypeError_in "__getitem__")
  end.

(** [v[k]] on a member of a set: a component of a tuple, a character of a
    string. *)
Definition obj_getitem (v : pyobj) (k : nat) : outcome atom :=
  match v with
  | Tuple items =>
      match items !! k with
      | Some a => Ok a
      | None => Raise IndexError
      end
  | Scalar a => s ← atom_getitem a k; Ok (Str s)
  end.

(** [for (u, w) in ...]: unpacking a member into two names. *)
Definition unpack2 (v : pyobj) : outcome (atom * atom) :=
  match v with
  | Tuple [u; w] => Ok (u, w)
  | Tuple _ => Raise (ValueError_in "unpack")
  | Scalar (Str s) =>
      match s with
      | String c1 (String c2 EmptyString) =>
          Ok (Str (String c1 EmptyString), Str (String c2 EmptyString))
      | _ => Raise (ValueError_in "unpack")
      end
  | Scalar (Int _) => Raise (TypeError_in "unpack")
  end.

(** A dictionary used as a parameter table is modelled by the total
    function that reads it on the keys it binds; the table of a parameter
    indexed by event-arcs is read at the normal form of the key. *)
Inductive pyvalue :=
| VNum (n : Q)
| VRequests (rs : list Z)
| VNodes (ns : list string)
| VNodeTable (f : string → Q)
| VArcTable (f : arc → Q)
| VRequestTable (f : Z → Q)
| VEvents (vs : list event)
| VEventArcs (es : list event_arc)
| VEventArcTable (f : pyobj → Q)
| VMatrix (f : string → string → Q).

(** [data[key]] *)
Definition getitem (data : gmap string pyvalue) (key : string) : outcome pyvalue :=
  match data !! key with
  | Some v => Ok v
  | None => Raise (KeyError key)
  end.

Definition as_num (key : string) (v : pyvalue) : outcome Q :=
  match v with VNum n => Ok n | _ => Raise (TypeError key) end.
Definition as_requests (key : string) (v : pyvalue) : outcome (list Z) :=
  match v with VRequests rs => Ok rs | _ => Raise (TypeError key) end.
Definition as_nodes (key : string) (v : pyvalue) : outcome (list string) :=
  match v with VNodes ns => Ok ns | _ => Raise (TypeError key) end.
Definition as_node_table (key : string) (v : pyvalue) : outcome (string → Q) :=
  match v with VNodeTable f => Ok f | _ => Raise (TypeError key) end.
Definition as_arc_table (key : string) (v : pyvalue) : outcome (arc → Q) :=
  match v with VArcTable f => Ok f | _ => Raise (TypeError key) end.
Definition as_request_table (key : string) (v : pyvalue) : outcome (Z → Q) :=
  match v with VRequestTable f => Ok f | _ => Raise (TypeError key) end.
Definition as_events (key : string) (v : pyvalue) : outcome (list event) :=
  match v with VEvents vs => Ok vs | _ => Raise (TypeError key) end.
Definition as_event_arcs (key : string) (v : pyvalue) : outcome (list event_arc) :=
  match v with VEventArcs es => Ok es | _ => Raise (TypeError key) end.
Definition as_event_arc_table (key : string) (v : pyvalue) : outcome (pyobj → Q) :=
  match v with VEventArcTable f => Ok f | _ => Raise (TypeError key) end.
Definition as_matrix (key : string) (v : pyvalue) : outcome (string → string → Q) :=
  match v with VMatrix f => Ok f | _ => Raise (TypeError key) end.

(** The f-strings [f"{i}+"] and [f"{i}-"]. *)
Definition pickup_name (i : Z) : string := pretty i +:+ "+".
Definition delivery_name (i : Z) : string := pretty i +:+ "-".

(** The loop shared by both [validate_data] methods:
    [for key in required_keys: if key not in data: raise ValueError(prefix + key)]. *)
Fixpoint check_keys (prefix : string) (required_keys : list string)
    (data : gmap string pyvalue) : outcome unit :=
  match required_keys with
  | [] => Ok tt
  | key :: rest =>
      match data !! key with
      | None => Raise (ValueError (prefix +:+ key))
      | Some _ => check_keys prefix rest data
      end
  end.

(** *** Pyomo components *)

(** [Set(initialize=items)]: an ordered set, elements kept in the order of
    their first occurrence. *)
Fixpoint Set_add_all {A} `{EqDecision A} (items acc : list A) : list A :=
  match items with
  | [] => acc
  | a :: rest =>
      if decide (a ∈ acc) then Set_add_all rest acc
      else Set_add_all rest (acc ++ [a])
  end.
Definition Set_initialize {A} `{EqDecision A} (items : list A) : list A :=
  Set_add_all items [].

(** [Set(initialize=items)] on tuples: every item is put in normal form;
    the first member fixes the dimension of the set, and an item of
    another dimension is refused with a [ValueError]. *)
Fixpoint Set_add_tuples (name : string) (dimen : option nat) (items : list tuple)
    (acc : list pyobj) : outcome (list pyobj) :=
  match items with
  | [] => Ok acc
  | t :: rest =>
      if decide (dimen = None ∨ dimen = Some (length t)) then
        if decide (normalize t ∈ acc) then Set_add_tuples name (Some (length t)) rest acc
        else Set_add_tuples name (Some (length t)) rest (acc ++ [normalize t])
      else Raise (ValueError_in name)
  end.
Definition Set_of_tuples (name : string) (items : list tuple) : outcome (list pyobj) :=
  Set_add_tuples name None items [].

(** [s1 | s2] on ordered sets. *)
Definition Set_union {A} `{EqDecision A} (s1 s2 : list A) : list A :=
  s1 ++ filter (λ a, a ∉ s1) s2.

(** [Var(index, ...)]: one optional value per index; no value is set
    until a solver loads a solution. *)
Record Var (K : Type) := mkVar {
  index : list K;
  values : K → option Q
}.
Arguments mkVar {K} index values.
Arguments index {K} v.
Arguments values {K} v.

Definition Var_declare {K} (idx : list K) : Var K := mkVar idx (λ _, None).
Definition Var_load {K} (v : Var K) (sol : K → Q) : Var K :=
  mkVar (index v) (λ k, Some (sol k)).

(** [v[k]] inside an expression: a [KeyError] outside the index set. *)
Definition Var_getitem {K} `{EqDecision K} (name : string) (v : Var K) (k : K)
    : outcome unit :=
  if decide (k ∈ index v) then Ok tt else Raise (KeyError_in name).

(** [value(v[k])]: a [KeyError] outside the index set, a [ValueError] on a
    variable that has no value. *)
Definition value {K} `{EqDecision K} (name : string) (v : Var K) (k : K) : outcome Q :=
  if decide (k ∈ index v) then
    match values v k with
    | Some n => Ok n
    | None => Raise (ValueError_in name)
    end
  else Raise (KeyError_in name).

(** [sum(...)] over numbers: a left fold from [0]. *)
Definition sum (ns : list Q) : Q := fold_left Qplus ns 0%Q.

(** Relational expressions returned by constraint rules; a rule that
    returns [Constraint.Skip] is modelled as returning [None]. *)
Inductive relexpr :=
| Le (lhs rhs : Q)
| Ge (lhs rhs : Q)
| Eq (lhs rhs : Q)
| Range (lower body upper : Q).

Definition holds (r : relexpr) : Prop :=
  match r with
  | Le a b => (a <= b)%Q
  | Ge a b => (b <= a)%Q
  | Eq a b => (a == b)%Q
  | Range lo n hi => (lo <= n)%Q ∧ (n <= hi)%Q
  end.

Definition holdsb (r : relexpr) : bool :=
  match r with
  | Le a b => Qle_bool a b
  | Ge a b => Qle_bool b a
  | Eq a b => Qeq_bool a b
  | Range lo n hi => Qle_bool lo n && Qle_bool n hi
  end.

(** [@m.Constraint(index)]: the rule is called on every index, in order;
    an index whose rule skips gets no constraint, and an exception raised by
    a rule aborts the construction. The variables stay symbolic, so a
    constraint is a relational expression over an assignment [V]. *)
Fixpoint Constraint {K V} (index : list K)
    (rule : K → outcome (option (V → relexpr)))
    : outcome (list (K * (V → relexpr))) :=
  match index with
  | [] => Ok []
  | k :: rest =>
      r ← rule k;
      cs ← Constraint rest rule;
      Ok (match r with Some con => (k, con) :: cs | None => cs end)
  end.

(** What a rule returns, given the number of variables that occur in the
    relation it has built. A relation in which no variable occurs has been
    evaluated by Python to [True] or [False], and Pyomo refuses a Boolean
    as the value of a rule with a [ValueError]. *)
Definition rule_returns {V} (component : string) (variables : nat) (rel : V → relexpr)
    : outcome (option (V → relexpr)) :=
  match variables with
  | O => Raise (ValueError_in component)
  | S _ => Ok (Some rel)
  end.

(** [a > b] on numbers. *)
Definition Qgtb (a b : Q) : bool := negb (Qle_bool a b).

(** Variable domains. *)
Definition Binary (n : Q) : Prop := (n == 0)%Q ∨ (n == 1)%Q.
Definition Binaryb (n : Q) : bool := Qeq_bool n 0 || Qeq_bool n 1.
Definition NonNegativeReals (n : Q) : Prop := (0 <= n)%Q.
Definition NonNegativeRealsb (n : Q) : bool := Qle_bool 0 n.

End Py.

(** ** The location-based formulation: class [DARPModelLB] *)

Module DARPModelLB.
Import Py.

Definition start_node : string := "0_start".
Definition end_node : string := "0_end".

(** The components that [_build_model] attaches to [self.model]. *)
Record Model := mkModel {
  Requests : list Z;
  P : list string;
  D : list string;
  J_minus_depot : list string;
  J : list string;
  A : list arc;
  c : arc → Q;
  t : arc → Q;
  s : string → Q;
  q : string → Q;
  e : string → Q;
  l : string → Q;
  L : Z → Q;
  Q_max : Q;
  K : Q;
  x : Var arc;
  B : Var string;
  Qv : Var string;          (* the variable [m.Q] *)
  S_Indices : list nat;
  S_Sets : list (list string)
}.

(** [ConcreteModel()] has no component; [_build_model] fills it. *)
Inductive ConcreteModel :=
| Fresh
| Built (m : Model).

Record Self := mkSelf {
  data : gmap string pyvalue;
  model : ConcreteModel
}.

(** Values of the decision variables, as a solver would assign them. *)
Record assignment := mkAssignment {
  x_val : arc → Q;
  B_val : string → Q;
  Q_val : string → Q
}.

Definition required_keys : list string :=
  ["Requests"; "P"; "D"; "costs"; "travel_times";
   "service_times"; "load_change"; "tw_start";
   "tw_end"; "max_ride_time"; "capacity"; "vehicles"].

Definition validate_data : M Self unit :=
  self ← get;
  lift (check_keys "Missing required data key: " required_keys (data self)).

(** [itertools.combinations(pool, r)], in the order Python emits them. *)
Fixpoint combinations {T} (pool : list T) (r : nat) {struct pool} : list (list T) :=
  match r, pool with
  | O, _ => [[]]
  | S _, [] => []
  | S r', a :: rest => map (cons a) (combinations rest r') ++ combinations rest r
  end.

(** The inner loop of [_generate_s_sets], which breaks at the first request
    whose delivery is in [S] while its pickup is not. *)
Definition has_delivery_without_pickup (requests : list Z) (S_set : gset string) : bool :=
  existsb (λ i, bool_decide (delivery_name i ∈ S_set) && bool_decide (pickup_name i ∉ S_set))
          requests.

(** The two nested loops of [_generate_s_sets] over [data['P']], [data['D']]
    and [data['Requests']]; [tuple(S)] lists the elements of the set [S]. *)
Definition s_sets_of (requests : list Z) (P D : list string) : list (list string) :=
  let all_nodes := P ++ D in
  r ← seq 1 (length all_nodes);
  subset ← combinations all_nodes r;
  let S_set : gset string := {[ start_node ]} ∪ list_to_set subset in
  if has_delivery_without_pickup requests S_set then [elements S_set] else [].

Definition _generate_s_sets : M Self (list (list string)) :=
  self ← get;
  lift (P ← getitem (data self) "P" ≫= as_nodes "P";
        D ← getitem (data self) "D" ≫= as_nodes "D";
        requests ← getitem (data self) "Requests" ≫= as_requests "Requests";
        Ok (s_sets_of requests P D)).

(** *** Constraint rules *)

Definition visit_once (m_in : Model) (v : assignment) (j : string) : relexpr :=
  Eq (sum (map (λ i, x_val v (i, j))
               (filter (λ i, (i, j) ∈ A m_in) (J m_in)))) 1.

Definition leave_once (m_in : Model) (v : assignment) (i : string) : relexpr :=
  Eq (sum (map (λ j, x_val v (i, j))
               (filter (λ j, (i, j) ∈ A m_in) (J m_in)))) 1.

Definition fleet_limit (m_in : Model) (v : assignment) : relexpr :=
  Le (sum (map (λ j, x_val v (start_node, j))
               (filter (λ j, (start_node, j) ∈ A m_in) (P m_in)))) (K m_in).

(** [[(i, j) for i in S for j in S if (i, j) in m_in.A]] *)
Definition arcs_in (m_in : Model) (S_tuple : list string) : list arc :=
  i ← S_tuple; j ← S_tuple; if decide ((i, j) ∈ A m_in) then [(i, j)] else [].

Definition precedence_pairing (m_in : Model) (v : assignment) (idx : nat) : outcome relexpr :=
  match S_Sets m_in !! idx with
  | None => Raise (KeyError_in "S_Sets")
  | Some S_tuple =>
      let arcs_in_S := arcs_in m_in S_tuple in
      Ok (Le (sum (map (x_val v) arcs_in_S)) (inject_Z (Z.of_nat (length S_tuple) - 2)))
  end.

Definition time_consistency (m_in : Model) (v : assignment) (i j : string) : relexpr :=
  let M_ij := (l m_in i + s m_in i + t m_in (i, j) - e m_in j)%Q in
  Le (B_val v i + s m_in i + t m_in (i, j) - M_ij * (1 - x_val v (i, j)))%Q (B_val v j).

Definition load_consistency (m_in : Model) (v : assignment) (i j : string) : relexpr :=
  Le (Q_val v i + q m_in j - Q_max m_in * (1 - x_val v (i, j)))%Q (Q_val v j).

Definition service_windows (m_in : Model) (v : assignment) (j : string) : relexpr :=
  Range (e m_in j) (B_val v j) (l m_in j).

Definition capacity_bound (m_in : Model) (v : assignment) (j : string) : relexpr :=
  let lower := Qmax 0 (q m_in j) in
  let upper := Qmin (Q_max m_in) (Q_max m_in + q m_in j) in
  Range lower (Q_val v j) upper.

Definition max_ride_duration (m_in : Model) (v : assignment) (r : Z) : relexpr :=
  let p := pickup_name r in
  let d := delivery_name r in
  Le (B_val v d - (B_val v p + s m_in p))%Q (L m_in r).

(** The objective [m.obj]: the total routing cost. *)
Definition obj (m_in : Model) (v : assignment) : Q :=
  sum (map (λ a, c m_in a * x_val v a)%Q (A m_in)).

(** *** The rules as Pyomo runs them

    A rule decorated with [@m.Constraint(index)] is called on every index
    while the model is being constructed. It looks up the variables it
    mentions and returns the relation, which must mention a variable. *)

Definition visit_once_rule (m_in : Model) (j : string)
    : outcome (option (assignment → relexpr)) :=
  rule_returns "visit_once" (length (filter (λ i, (i, j) ∈ A m_in) (J m_in)))
           (λ v, visit_once m_in v j).

Definition leave_once_rule (m_in : Model) (i : string)
    : outcome (option (assignment → relexpr)) :=
  rule_returns "leave_once" (length (filter (λ j, (i, j) ∈ A m_in) (J m_in)))
           (λ v, leave_once m_in v i).

Definition fleet_limit_rule (m_in : Model) : outcome (option (assignment → relexpr)) :=
  rule_returns "fleet_limit"
           (length (filter (λ j, (start_node, j) ∈ A m_in) (P m_in)))
           (λ v, fleet_limit m_in v).

Definition precedence_pairing_rule (m_in : Model) (idx : nat)
    : outcome (option (assignment → relexpr)) :=
  match S_Sets m_in !! idx with
  | None => Raise (KeyError_in "S_Sets")
  | Some S_tuple =>
      let arcs_in_S := arcs_in m_in S_tuple in
      rule_returns "precedence_pairing" (length arcs_in_S)
        (λ v, Le (sum (map (x_val v) arcs_in_S))
                 (inject_Z (Z.of_nat (length S_tuple) - 2)))
  end.

Definition time_consistency_rule (m_in : Model) (a : arc)
    : outcome (option (assignment → relexpr)) :=
  let '(i, j) := a in
  _ ← Var_getitem "B" (B m_in) i;
  _ ← Var_getitem "x" (x m_in) (i, j);
  _ ← Var_getitem "B" (B m_in) j;
  rule_returns "time_consistency" 3 (λ v, time_consistency m_in v i j).

Definition load_consistency_rule (m_in : Model) (a : arc)
    : outcome (option (assignment → relexpr)) :=
  let '(i, j) := a in
  _ ← Var_getitem "Q" (Qv m_in) i;
  _ ← Var_getitem "x" (x m_in) (i, j);
  _ ← Var_getitem "Q" (Qv m_in) j;
  rule_returns "load_consistency" 3 (λ v, load_consistency m_in v i j).

Definition service_windows_rule (m_in : Model) (j : string)
    : outcome (option (assignment → relexpr)) :=
  _ ← Var_getitem "B" (B m_in) j;
  rule_returns "service_windows" 1 (λ v, service_windows m_in v j).

Definition capacity_bound_rule (m_in : Model) (j : string)
    : outcome (option (assignment → relexpr)) :=
  _ ← Var_getitem "Q" (Qv m_in) j;
  rule_returns "capacity_bound" 1 (λ v, capacity_bound m_in v j).

Definition max_ride_duration_rule (m_in : Model) (r : Z)
    : outcome (option (assignment → relexpr)) :=
  let p := pickup_name r in
  let d := delivery_name r in
  _ ← Var_getitem "B" (B m_in) d;
  _ ← Var_getitem "B" (B m_in) p;
  rule_returns "max_ride_duration" 2 (λ v, max_ride_duration m_in v r).

(** An assignment is feasible when every variable lies in its domain and
    every constraint of every family holds. *)
Record feasible (m : Model) (v : assignment) : Prop := mkFeasible {
  x_domain : ∀ a, a ∈ A m → Binary (x_val v a);
  B_domain : ∀ j, j ∈ J m → NonNegativeReals (B_val v j);
  Q_domain : ∀ j, j ∈ J m → NonNegativeReals (Q_val v j);
  visit_once_holds : ∀ j, j ∈ J_minus_depot m → holds (visit_once m v j);
  leave_once_holds : ∀ i, i ∈ J_minus_depot m → holds (leave_once m v i);
  fleet_limit_holds : holds (fleet_limit m v);
  precedence_pairing_holds :
    ∀ idx, idx ∈ S_Indices m → ∃ r, precedence_pairing m v idx = Ok r ∧ holds r;
  time_consistency_holds : ∀ i j, (i, j) ∈ A m → holds (time_consistency m v i j);
  load_consistency_holds : ∀ i j, (i, j) ∈ A m → holds (load_consistency m v i j);
  service_windows_holds : ∀ j, j ∈ J m → holds (service_windows m v j);
  capacity_bound_holds : ∀ j, j ∈ J m → holds (capacity_bound m v j);
  max_ride_duration_holds : ∀ r, r ∈ Requests m → holds (max_ride_duration m v r)
}.

Definition outcome_holdsb (o : outcome relexpr) : bool :=
  match o with Ok r => holdsb r | _ => false end.

Definition feasibleb (m : Model) (v : assignment) : bool :=
  forallb (λ a, Binaryb (x_val v a)) (A m)
  && forallb (λ j, NonNegativeRealsb (B_val v j)) (J m)
  && forallb (λ j, NonNegativeRealsb (Q_val v j)) (J m)
  && forallb (λ j, holdsb (visit_once m v j)) (J_minus_depot m)
  && forallb (λ i, holdsb (leave_once m v i)) (J_minus_depot m)
  && holdsb (fleet_limit m v)
  && forallb (λ idx, outcome_holdsb (precedence_pairing m v idx)) (S_Indices m)
  && forallb (λ a, holdsb (time_consistency m v a.1 a.2)) (A m)
  && forallb (λ a, holdsb (load_consistency m v a.1 a.2)) (A m)
  && forallb (λ j, holdsb (service_windows m v j)) (J m)
  && forallb (λ j, holdsb (capacity_bound m v j)) (J m)
  && forallb (λ r, holdsb (max_ride_duration m v r)) (Requests m).

(** *** Model construction *)

Definition build_J (J_minus_depot : list string) : list string :=
  Set_initialize ([start_node] ++ J_minus_depot ++ [end_node]).

Definition build_A (J : list string) : list arc :=
  Set_initialize
    (i ← J; j ← J;
     if decide (i ≠ j ∧ i ≠ end_node ∧ j ≠ start_node) then [(i, j)] else []).

(** The model once the pairing-and-precedence subsets are attached. *)
Definition with_s_sets (m : Model) (s_sets : list (list string)) : Model :=
  mkModel (Requests m) (P m) (D m) (J_minus_depot m) (J m) (A m)
          (c m) (t m) (s m) (q m) (e m) (l m) (L m) (Q_max m) (K m)
          (x m) (B m) (Qv m)
          (seq 0 (length s_sets)) s_sets.

(** Lines 66 to 91 of [_build_model]: the sets, parameters and variables. *)
Definition declare_components (d : gmap string pyvalue) : outcome Model :=
  requests ← getitem d "Requests" ≫= as_requests "Requests";
  pickups ← getitem d "P" ≫= as_nodes "P";
  deliveries ← getitem d "D" ≫= as_nodes "D";
  let m_Requests := Set_initialize requests in
  let m_P := Set_initialize pickups in
  let m_D := Set_initialize deliveries in
  let m_J_minus_depot := Set_union m_P m_D in
  let m_J := build_J m_J_minus_depot in
  let m_A := build_A m_J in
  c ← getitem d "costs" ≫= as_arc_table "costs";
  t ← getitem d "travel_times" ≫= as_arc_table "travel_times";
  s ← getitem d "service_times" ≫= as_node_table "service_times";
  q ← getitem d "load_change" ≫= as_node_table "load_change";
  e ← getitem d "tw_start" ≫= as_node_table "tw_start";
  l ← getitem d "tw_end" ≫= as_node_table "tw_end";
  L ← getitem d "max_ride_time" ≫= as_request_table "max_ride_time";
  Q_max ← getitem d "capacity" ≫= as_num "capacity";
  K ← getitem d "vehicles" ≫= as_num "vehicles";
  Ok {| Requests := m_Requests; P := m_P; D := m_D;
        J_minus_depot := m_J_minus_depot; J := m_J; A := m_A;
        c := c; t := t; s := s; q := q; e := e; l := l; L := L;
        Q_max := Q_max; K := K;
        x := Var_declare m_A; B := Var_declare m_J; Qv := Var_declare m_J;
        S_Indices := []; S_Sets := [] |}.

(** Every rule is run on its index set as soon as it is declared. An
    exception raised by a rule leaves [__init__] through [_build_model], so
    no object is returned to the caller; the components attached up to that
    point are not observable, and the model is recorded only when
    construction ends. *)
Definition _build_model : M Self unit :=
  self ← get;
  let d := data self in
  m0 ← lift (declare_components d);
  _ ← lift (Constraint (J_minus_depot m0) (visit_once_rule m0));
  _ ← lift (Constraint (J_minus_depot m0) (leave_once_rule m0));
  _ ← lift (fleet_limit_rule m0);
  s_sets ← _generate_s_sets;
  let m := with_s_sets m0 s_sets in
  _ ← lift (Constraint (S_Indices m) (precedence_pairing_rule m));
  _ ← lift (Constraint (A m) (time_consistency_rule m));
  _ ← lift (Constraint (A m) (load_consistency_rule m));
  _ ← lift (Constraint (J m) (service_windows_rule m));
  _ ← lift (Constraint (J m) (capacity_bound_rule m));
  _ ← lift (Constraint (Requests m) (max_ride_duration_rule m));
  put (mkSelf d (Built m)).

Definition __init__ (data : gmap string pyvalue) : Self * outcome unit :=
  (validate_data ;; _build_model) (mkSelf data Fresh).

(** [solve] hands the model to an external solver; when the solver finds a
    solution its values are loaded into the variables of the model. *)
Definition load_solution (sol : assignment) (m : Model) : Model :=
  mkModel (Requests m) (P m) (D m) (J_minus_depot m) (J m) (A m)
          (c m) (t m) (s m) (q m) (e m) (l m) (L m) (Q_max m) (K m)
          (Var_load (x m) (x_val sol)) (Var_load (B m) (B_val sol))
          (Var_load (Qv m) (Q_val sol))
          (S_Indices m) (S_Sets m).

Definition solve (solution : option assignment) : M Self unit :=
  self ← get;
  match solution, model self with
  | Some sol, Built m => put (mkSelf (data self) (Built (load_solution sol m)))
  | _, _ => mret tt
  end.

(** *** Route reconstruction *)

(** One selected arc, as the dictionaries appended to [routes]. *)
Record leg := mkLeg {
  from : string;
  to : string;
  depart_time : Q;
  arrive_time : Q;
  load_after : Q
}.

(** One entry of the summary. *)
Record route_info := mkRouteInfo {
  route : list string;
  times : list Q;
  loads : list Q
}.

(** The first loop: [for (i, j) in self.model.x: if value(x[i, j]) > 0.5: ...]. *)
Fixpoint collect_routes (m : Model) (keys : list arc) (routes : list leg)
    : outcome (list leg) :=
  match keys with
  | [] => Ok routes
  | (i, j) :: rest =>
      xv ← value "x" (x m) (i, j);
      if Qgtb xv (1 # 2) then
        dt ← value "B" (B m) i;
        at_ ← value "B" (B m) j;
        la ← value "Q" (Qv m) j;
        collect_routes m rest (routes ++ [mkLeg i j dt at_ la])
      else collect_routes m rest routes
  end.

(** [next((r for r in routes if r['from'] == current), None)] *)
Definition next_leg (routes : list leg) (current : string) : option leg :=
  find (λ r, bool_decide (from r = current)) routes.

(** The loop [while current != '0_end': ...]; every iteration uses one unit
    of [fuel], and [None] means the loop has not exited. *)
Fixpoint walk (fuel : nat) (routes : list leg) (current : string)
    (path : list string) (times loads : list Q)
    : option (list string * list Q * list Q) :=
  match fuel with
  | O => None
  | S fuel' =>
      if decide (current ≠ end_node) then
        match next_leg routes current with
        | None => Some (path, times, loads)
        | Some nl =>
            walk fuel' routes (to nl) (path ++ [to nl])
                 (times ++ [arrive_time nl]) (loads ++ [load_after nl])
        end
      else Some (path, times, loads)
  end.

(** The second loop: [for route in routes: if route['from'] == '0_start': ...]. *)
Fixpoint group_routes (fuel : nat) (all_routes todo : list leg)
    (summary : gmap string route_info) : outcome (gmap string route_info) :=
  match todo with
  | [] => Ok summary
  | r :: rest =>
      if decide (from r = start_node) then
        match walk fuel all_routes (to r) [from r; to r]
                   [depart_time r; arrive_time r] [0%Q; load_after r] with
        | None => Diverge
        | Some (path, times, loads) =>
            match path !! 1%nat with
            | None => Raise IndexError
            | Some key =>
                group_routes fuel all_routes rest
                  (<[key := mkRouteInfo path times loads]> summary)
            end
        end
      else group_routes fuel all_routes rest summary
  end.

(** The method returns either a message or the summary dictionary. *)
Definition get_route_summary (fuel : nat)
    : M Self (string + gmap string route_info) :=
  self ← get;
  match model self with
  | Fresh => mret (inl "Model not solved yet.")     (* not hasattr(self.model, 'x') *)
  | Built m =>
      routes ← lift (collect_routes m (index (x m)) []);
      summary ← lift (group_routes fuel routes routes ∅);
      mret (inr summary)
  end.

End DARPModelLB.

(** ** The location-augmented event-based formulation: class [DARPModelLAEB] *)

Module DARPModelLAEB.
Import Py.

(** The tuple literal [('0',)]. *)
Definition depot_event : pyobj := Tuple [Str "0"].

(** Values of the decision variables. *)
Record assignment := mkAssignment {
  x_val : pyobj → Q;
  B_bar_val : string → Q
}.

(** The sets, parameters and variables that [_build_model] attaches to
    [self.model]; [V] and [A] are Pyomo sets, so their members are in
    normal form. *)
Record Model := mkModel {
  V : list pyobj;
  A : list pyobj;
  R : list Z;
  J : list string;
  V_pickup : gmap Z (list pyobj);
  V_delivery : gmap Z (list pyobj);
  c : pyobj → Q;
  t : pyobj → Q;
  s : string → Q;
  e : string → Q;
  l : string → Q;
  L_max : Z → Q;
  K : Q;
  x : Var pyobj;
  B_bar : Var string
}.

Inductive ConcreteModel :=
| Fresh
| Built (m : Model).

Record Self := mkSelf {
  data : gmap string pyvalue;
  model : ConcreteModel
}.

Definition required_keys : list string :=
  ["V"; "A"; "Requests"; "P"; "D"; "J"; "costs"; "travel_times";
   "service_times"; "tw_start"; "tw_end"; "max_ride_time"; "vehicles"].

Definition validate_data : M Self unit :=
  self ← get;
  lift (check_keys "Falta la clave de datos requerida: " required_keys (data self)).

(** *** Sets, parameters and variables *)

(** [[a for a in members if pick(a)]]; the test may raise. *)
Fixpoint select (pick : pyobj → outcome bool) (members : list pyobj)
    : outcome (list pyobj) :=
  match members with
  | [] => Ok []
  | a :: rest =>
      b ← pick a;
      tl ← select pick rest;
      Ok (if (b : bool) then a :: tl else tl)
  end.

(** [[v for v in m.V if v[0] == name]] *)
Definition events_at (name : string) (members : list pyobj) : outcome (list pyobj) :=
  select (λ v, v0 ← obj_getitem v 0; Ok (py_eq (Scalar v0) (Scalar (Str name)))) members.

(** [{i: [v for v in m.V if v[0] == name(i)] for i in m.R}] *)
Fixpoint events_by_request (name : Z → string) (members : list pyobj) (requests : list Z)
    : outcome (gmap Z (list pyobj)) :=
  match requests with
  | [] => Ok ∅
  | i :: rest =>
      events ← events_at (name i) members;
      tl ← events_by_request name members rest;
      Ok (<[i := events]> tl)
  end.

(** Lines 37 to 58 of [_build_model]. *)
Definition declare_components (d : gmap string pyvalue) : outcome Model :=
  events ← getitem d "V" ≫= as_events "V";
  m_V ← Set_of_tuples "V" (map event_tuple events);
  event_arcs ← getitem d "A" ≫= as_event_arcs "A";
  m_A ← Set_of_tuples "A" (map flatten_arc event_arcs);
  requests ← getitem d "Requests" ≫= as_requests "Requests";
  let m_R := Set_initialize requests in
  locations ← getitem d "J" ≫= as_nodes "J";
  let m_J := Set_initialize locations in
  m_V_pickup ← events_by_request pickup_name m_V m_R;
  m_V_delivery ← events_by_request delivery_name m_V m_R;
  c ← getitem d "costs" ≫= as_event_arc_table "costs";
  t ← getitem d "travel_times" ≫= as_event_arc_table "travel_times";
  s ← getitem d "service_times" ≫= as_node_table "service_times";
  e ← getitem d "tw_start" ≫= as_node_table "tw_start";
  l ← getitem d "tw_end" ≫= as_node_table "tw_end";
  L_max ← getitem d "max_ride_time" ≫= as_request_table "max_ride_time";
  K ← getitem d "vehicles" ≫= as_num "vehicles";
  Ok {| V := m_V; A := m_A; R := m_R; J := m_J;
        V_pickup := m_V_pickup; V_delivery := m_V_delivery;
        c := c; t := t; s := s; e := e; l := l; L_max := L_max; K := K;
        x := Var_declare m_A; B_bar := Var_declare m_J |}.

(** The objective [m.obj]: the total cost of the selected event-arcs. *)
Definition obj (m_in : Model) (a : assignment) : Q :=
  sum (map (λ uv, c m_in uv * x_val a uv)%Q (A m_in)).

(** *** Constraint rules *)

(** Pyomo calls a rule on the components of a tuple index, so a rule with
    one index argument can be called on a scalar member only. *)
Definition rule_argument (component : string) (index : pyobj) : outcome atom :=
  match index with
  | Scalar a => Ok a
  | Tuple [a] => Ok a
  | Tuple _ => Raise (TypeError_in component)
  end.

(** [[m_in.x[u, w] for (u, w) in m_in.A if pick(u, w)]] *)
Fixpoint flow_terms (m_in : Model) (pick : atom * atom → bool) (members : list pyobj)
    : outcome (list pyobj) :=
  match members with
  | [] => Ok []
  | a :: rest =>
      uw ← unpack2 a;
      if pick uw then
        _ ← Var_getitem "x" (x m_in) (Tuple [uw.1; uw.2]);
        tl ← flow_terms m_in pick rest;
        Ok (Tuple [uw.1; uw.2] :: tl)
      else flow_terms m_in pick rest
  end.

(** [[m_in.x[a] for a in arcs]] *)
Fixpoint x_terms (m_in : Model) (arcs : list pyobj) : outcome unit :=
  match arcs with
  | [] => Ok tt
  | a :: rest => _ ← Var_getitem "x" (x m_in) a; x_terms m_in rest
  end.

Definition flow_conservation (m_in : Model) (index : pyobj)
    : outcome (option (assignment → relexpr)) :=
  v ← rule_argument "flow_conservation" index;
  if py_eq (Scalar v) depot_event then Ok None
  else
    in_arcs ← flow_terms m_in (λ uw, py_eq (Scalar uw.2) (Scalar v)) (A m_in);
    out_arcs ← flow_terms m_in (λ uw, py_eq (Scalar uw.1) (Scalar v)) (A m_in);
    rule_returns "flow_conservation" (length in_arcs + length out_arcs)
      (λ a, Eq (sum (map (x_val a) in_arcs) - sum (map (x_val a) out_arcs))%Q 0).

Definition visit_pickups (m_in : Model) (i : Z)
    : outcome (option (assignment → relexpr)) :=
  arcs_to_pickup ←
    select (λ a, a1 ← obj_getitem a 1;
                 match V_pickup m_in !! i with
                 | None => Raise (KeyError_in "V_pickup")
                 | Some events => Ok (existsb (py_eq (Scalar a1)) events)
                 end) (A m_in);
  _ ← x_terms m_in arcs_to_pickup;
  rule_returns "visit_pickups" (length arcs_to_pickup)
    (λ a, Eq (sum (map (x_val a) arcs_to_pickup)) 1).

Definition fleet_limit (m_in : Model) : outcome (option (assignment → relexpr)) :=
  out_arcs ←
    select (λ a, a0 ← obj_getitem a 0; Ok (py_eq (Scalar a0) depot_event)) (A m_in);
  _ ← x_terms m_in out_arcs;
  rule_returns "fleet_limit" (length out_arcs)
    (λ a, Le (sum (map (x_val a) out_arcs)) (K m_in)).

(** [[a for a in m_in.A if a[0][0] == i and a[1][0] == j]] *)
Definition relevant_arcs (m_in : Model) (i j : string) : outcome (list pyobj) :=
  select (λ a, a0 ← obj_getitem a 0;
               c0 ← atom_getitem a0 0;
               if bool_decide (c0 = i) then
                 a1 ← obj_getitem a 1;
                 c1 ← atom_getitem a1 0;
                 Ok (bool_decide (c1 = j))
               else Ok false) (A m_in).

Definition time_consistency (data : gmap string pyvalue) (m_in : Model)
    (ij : string * string) : outcome (option (assignment → relexpr)) :=
  let i := ij.1 in
  let j := ij.2 in
  relevant ← relevant_arcs m_in i j;
  match relevant with
  | [] => Ok None
  | _ :: _ =>
      travel_matrix ← getitem data "travel_matrix" ≫= as_matrix "travel_matrix";
      let M_ij := (l m_in i + s m_in i + travel_matrix i j - e m_in j)%Q in
      _ ← Var_getitem "B_bar" (B_bar m_in) j;
      _ ← Var_getitem "B_bar" (B_bar m_in) i;
      _ ← x_terms m_in relevant;
      rule_returns "time_consistency" (2 + length relevant)
        (λ a, Ge (B_bar_val a j)
                 (B_bar_val a i + s m_in i + travel_matrix i j
                  - M_ij * (1 - sum (map (x_val a) relevant)))%Q)
  end.

Definition time_windows (m_in : Model) (j : string)
    : outcome (option (assignment → relexpr)) :=
  _ ← Var_getitem "B_bar" (B_bar m_in) j;
  rule_returns "time_windows" 1 (λ a, Range (e m_in j) (B_bar_val a j) (l m_in j)).

Definition max_ride_time (m_in : Model) (i : Z)
    : outcome (option (assignment → relexpr)) :=
  let p := pickup_name i in
  let d := delivery_name i in
  _ ← Var_getitem "B_bar" (B_bar m_in) d;
  _ ← Var_getitem "B_bar" (B_bar m_in) p;
  rule_returns "max_ride_time" 2
    (λ a, Le (B_bar_val a d - (B_bar_val a p + s m_in p))%Q (L_max m_in i)).

(** *** Model construction *)

(** Every rule is run on its index set as soon as it is declared; an
    exception leaves [__init__], and no object is returned to the caller. *)
Definition _build_model : M Self unit :=
  self ← get;
  let d := data self in
  m ← lift (declare_components d);
  _ ← lift (Constraint (V m) (flow_conservation m));
  _ ← lift (Constraint (R m) (visit_pickups m));
  _ ← lift (fleet_limit m);
  _ ← lift (Constraint (i ← J m; j ← J m; [(i, j)]) (time_consistency d m));
  _ ← lift (Constraint (J m) (time_windows m));
  _ ← lift (Constraint (R m) (max_ride_time m));
  put (mkSelf d (Built m)).

Definition __init__ (data : gmap string pyvalue) : Self * outcome unit :=
  (validate_data ;; _build_model) (mkSelf data Fresh).

Definition load_solution (sol : assignment) (m : Model) : Model :=
  mkModel (V m) (A m) (R m) (J m) (V_pickup m) (V_delivery m)
          (c m) (t m) (s m) (e m) (l m) (L_max m) (K m)
          (Var_load (x m) (x_val sol)) (Var_load (B_bar m) (B_bar_val sol)).

Definition solve (solution : option assignment) : M Self unit :=
  self ← get;
  match solution, model self with
  | Some sol, Built m => put (mkSelf (data self) (Built (load_solution sol m)))
  | _, _ => mret tt
  end.

(** *** Route reconstruction *)

Record route_info := mkRouteInfo {
  path : list string;
  times : list Q
}.

(** [[a for a in self.model.A if value(self.model.x[a]) > 0.5]] *)
Fixpoint active_arcs_of (m : Model) (arcs : list pyobj) : outcome (list pyobj) :=
  match arcs with
  | [] => Ok []
  | a :: rest =>
      xv ← value "x" (x m) a;
      tl ← active_arcs_of m rest;
      Ok (if Qgtb xv (1 # 2) then a :: tl else tl)
  end.

(** [[a for a in active_arcs if a[0] == ('0',)]] *)
Definition starts_of (active_arcs : list pyobj) : outcome (list pyobj) :=
  select (λ a, a0 ← obj_getitem a 0; Ok (py_eq (Scalar a0) depot_event)) active_arcs.

(** [next((a for a in active_arcs if a[0] == curr), None)] *)
Fixpoint next_arc_of (active_arcs : list pyobj) (curr : atom) : outcome (option pyobj) :=
  match active_arcs with
  | [] => Ok None
  | a :: rest =>
      a0 ← obj_getitem a 0;
      if py_eq (Scalar a0) (Scalar curr) then Ok (Some a) else next_arc_of rest curr
  end.

(** The truth value of a member: an empty string, zero and the empty tuple
    count as false. *)
Definition truthy (a : pyobj) : bool :=
  match a with
  | Scalar (Str EmptyString) => false
  | Scalar (Int z) => negb (bool_decide (z = 0%Z))
  | Tuple [] => false
  | _ => true
  end.

(** The loop [while True: ...]; every iteration uses one unit of [fuel]. *)
Fixpoint walk (fuel : nat) (m : Model) (active_arcs : list pyobj) (curr : atom)
    (route : list string) (times : list Q) : outcome (list string * list Q) :=
  match fuel with
  | O => Diverge
  | S fuel' =>
      next ← next_arc_of active_arcs curr;
      match next with
      | None => Ok (route, times)
      | Some next_arc =>
          if truthy next_arc then
            curr' ← obj_getitem next_arc 1;
            loc ← atom_getitem curr' 0;
            if bool_decide (loc = "0") then
              b ← value "B_bar" (B_bar m) "0";
              Ok (route ++ ["0"], times ++ [b])
            else
              b ← value "B_bar" (B_bar m) loc;
              walk fuel' m active_arcs curr' (route ++ [loc]) (times ++ [b])
          else Ok (route, times)
      end
  end.

(** The loop [for start_arc in starts: ...]. *)
Fixpoint reconstruct (fuel : nat) (m : Model) (active_arcs starts : list pyobj)
    (routes : list route_info) : outcome (list route_info) :=
  match starts with
  | [] => Ok routes
  | start_arc :: rest =>
      u ← obj_getitem start_arc 0;
      route0 ← atom_getitem u 0;
      w ← obj_getitem start_arc 1;
      route1 ← atom_getitem w 0;
      t0 ← value "B_bar" (B_bar m) route0;
      t1 ← value "B_bar" (B_bar m) route1;
      rt ← walk fuel m active_arcs w [route0; route1] [t0; t1];
      reconstruct fuel m active_arcs rest (routes ++ [mkRouteInfo rt.1 rt.2])
  end.

Definition get_route_summary (fuel : nat) : M Self (string + list route_info) :=
  self ← get;
  match model self with
  | Fresh => mret (inl "Modelo no resuelto.")      (* not hasattr(self.model, 'x') *)
  | Built m =>
      active_arcs ← lift (active_arcs_of m (A m));
      starts ← lift (starts_of active_arcs);
      routes ← lift (reconstruct fuel m active_arcs starts []);
      mret (inr routes)
  end.

End DARPModelLAEB.

(** ** Instances shipped with the repository *)

Module Instances.
Import Py.

(** ['0' in name] *)
Fixpoint contains_zero (name : string) : bool :=
  match name with
  | EmptyString => false
  | String ch rest => Ascii.eqb ch "0"%char || contains_zero rest
  end.

(** [instance.py], [get_example_instance()]: three requests, one vehicle. *)
Definition example_requests : list Z := [1; 2; 3]%Z.
Definition example_pickups : list string := map pickup_name example_requests.
Definition example_deliveries : list string := map delivery_name example_requests.

Definition example_travel_times (ij : arc) : Q :=
  if decide (ij.1 = ij.2) then 0
  else if contains_zero ij.1 || contains_zero ij.2 then 5
  else 1.

Definition example_load_change (n : string) : Q :=
  if decide (n ∈ example_pickups) then 1
  else if decide (n ∈ example_deliveries) then -1
  else 0.

Definition example_tw_start (n : string) : Q :=
  if decide (n ∈ example_pickups ++ example_deliveries) then 5 else 0.

Definition example_tw_end (n : string) : Q :=
  if decide (n ∈ example_pickups ++ example_deliveries) then 60 else 100.

Definition get_example_instance : gmap string pyvalue :=
  list_to_map [
     ("Requests", VRequests example_requests);
     ("P", VNodes example_pickups);
     ("D", VNodes example_deliveries);
     ("costs", VArcTable example_travel_times);
     ("travel_times", VArcTable example_travel_times);
     ("service_times", VNodeTable (λ _, 0%Q));
     ("load_change", VNodeTable example_load_change);
     ("tw_start", VNodeTable example_tw_start);
     ("tw_end", VNodeTable example_tw_end);
     ("max_ride_time", VRequestTable (λ _, 100%Q));
     ("capacity", VNum 3);
     ("vehicles", VNum 1) ].


(** [laeb_example.py], [test_data]: one request on the event graph. *)
Definition ev_depot : event := ("0", []).
Definition ev_pickup1 : event := ("1+", [1%Z]).
Definition ev_delivery1 : event := ("1-", [0%Z]).

Definition test_arcs : list event_arc :=
  [(ev_depot, ev_pickup1); (ev_pickup1, ev_delivery1); (ev_delivery1, ev_depot)].

Definition test_arc_times (a : pyobj) : Q :=
  if decide (a = normalize (flatten_arc (ev_depot, ev_pickup1))) then 5
  else if decide (a = normalize (flatten_arc (ev_pickup1, ev_delivery1))) then 8
  else if decide (a = normalize (flatten_arc (ev_delivery1, ev_depot))) then 5
  else 0.

(** The dictionary literal repeats the key ['0'] in two rows; the last
    binding of a repeated key is the one Python keeps. *)
Definition test_travel_matrix (i j : string) : Q :=
  if decide (i = "0") then
    (if decide (j = "1+") then 5 else if decide (j = "1-") then 10 else 0)
  else if decide (i = "1+") then
    (if decide (j = "1-") then 8 else 0)
  else if decide (i = "1-") then
    (if decide (j = "1+") then 8 else 0)
  else 0.

Definition test_service_times (n : string) : Q :=
  if decide (n = "0") then 0 else 2.

Definition test_tw_end (n : string) : Q :=
  if decide (n = "0") then 100 else if decide (n = "1+") then 50 else 80.

Definition test_data : gmap string pyvalue :=
  list_to_map [
     ("Requests", VRequests [1%Z]);
     ("P", VNodes ["1+"]);
     ("D", VNodes ["1-"]);
     ("J", VNodes ["0"; "1+"; "1-"]);
     ("vehicles", VNum 1);
     ("capacity", VNum 3);
     ("V", VEvents [ev_depot; ev_pickup1; ev_delivery1]);
     ("A", VEventArcs test_arcs);
     ("travel_matrix", VMatrix test_travel_matrix);
     ("costs", VEventArcTable test_arc_times);
     ("travel_times", VEventArcTable test_arc_times);
     ("service_times", VNodeTable test_service_times);
     ("tw_start", VNodeTable (λ _, 0%Q));
     ("tw_end", VNodeTable test_tw_end);
     ("max_ride_time", VRequestTable (λ _, 30%Q)) ].


End Instances.

(** * Specification vocabulary *)

Module Spec.
Import Py.

(** The content of a well-typed LB data bundle. *)
Record LBInput := mkLBInput {
  in_Requests : list Z;
  in_P : list string;
  in_D : list string;
  in_costs : arc → Q;
  in_travel_times : arc → Q;
  in_service_times : string → Q;
  in_load_change : string → Q;
  in_tw_start : string → Q;
  in_tw_end : string → Q;
  in_max_ride_time : Z → Q;
  in_capacity : Q;
  in_vehicles : Q
}.

(** The bundle [d] binds every key the LB formulation reads to a value of
    the expected shape (it may bind other keys as well). *)
Definition lb_data_has (d : gmap string pyvalue) (i : LBInput) : Prop :=
  d !! "Requests" = Some (VRequests (in_Requests i))
  ∧ d !! "P" = Some (VNodes (in_P i))
  ∧ d !! "D" = Some (VNodes (in_D i))
  ∧ d !! "costs" = Some (VArcTable (in_costs i))
  ∧ d !! "travel_times" = Some (VArcTable (in_travel_times i))
  ∧ d !! "service_times" = Some (VNodeTable (in_service_times i))
  ∧ d !! "load_change" = Some (VNodeTable (in_load_change i))
  ∧ d !! "tw_start" = Some (VNodeTable (in_tw_start i))
  ∧ d !! "tw_end" = Some (VNodeTable (in_tw_end i))
  ∧ d !! "max_ride_time" = Some (VRequestTable (in_max_ride_time i))
  ∧ d !! "capacity" = Some (VNum (in_capacity i))
  ∧ d !! "vehicles" = Some (VNum (in_vehicles i)).

(** The sets, parameters and variables declared for a well-typed bundle. *)
Definition lb_components_of (i : LBInput) : DARPModelLB.Model :=
  let m_P := Set_initialize (in_P i) in
  let m_D := Set_initialize (in_D i) in
  let m_J := DARPModelLB.build_J (Set_union m_P m_D) in
  let m_A := DARPModelLB.build_A m_J in
  DARPModelLB.mkModel
    (Set_initialize (in_Requests i)) m_P m_D (Set_union m_P m_D) m_J m_A
    (in_costs i) (in_travel_times i) (in_service_times i) (in_load_change i)
    (in_tw_start i) (in_tw_end i) (in_max_ride_time i) (in_capacity i) (in_vehicles i)
    (Var_declare m_A) (Var_declare m_J) (Var_declare m_J)
    [] [].

(** The model that [DARPModelLB(d)] holds once construction has finished. *)
Definition lb_model_of (i : LBInput) : DARPModelLB.Model :=
  let m_P := Set_initialize (in_P i) in
  let m_D := Set_initialize (in_D i) in
  let m_J := DARPModelLB.build_J (Set_union m_P m_D) in
  let m_A := DARPModelLB.build_A m_J in
  let s_sets := DARPModelLB.s_sets_of (in_Requests i) (in_P i) (in_D i) in
  DARPModelLB.mkModel
    (Set_initialize (in_Requests i)) m_P m_D (Set_union m_P m_D) m_J m_A
    (in_costs i) (in_travel_times i) (in_service_times i) (in_load_change i)
    (in_tw_start i) (in_tw_end i) (in_max_ride_time i) (in_capacity i) (in_vehicles i)
    (Var_declare m_A) (Var_declare m_J) (Var_declare m_J)
    (seq 0 (length s_sets)) s_sets.

(** [get_example_instance()] as typed content. *)
Definition example_input : LBInput :=
  mkLBInput Instances.example_requests Instances.example_pickups
    Instances.example_deliveries
    Instances.example_travel_times Instances.example_travel_times
    (λ _, 0%Q) Instances.example_load_change
    Instances.example_tw_start Instances.example_tw_end
    (λ _, 100%Q) 3 1.

(** One vehicle serves the three requests of the example one after the
    other. *)
Definition example_tour : list arc :=
  [("0_start", "1+"); ("1+", "1-"); ("1-", "2+"); ("2+", "2-");
   ("2-", "3+"); ("3+", "3-"); ("3-", "0_end")].

Definition example_B (n : string) : Q :=
  if decide (n = "0_start") then 0
  else if decide (n = "1+") then 5
  else if decide (n = "1-") then 6
  else if decide (n = "2+") then 7
  else if decide (n = "2-") then 8
  else if decide (n = "3+") then 9
  else if decide (n = "3-") then 10
  else 15.

Definition example_Q (n : string) : Q :=
  if decide (n ∈ Instances.example_pickups) then 1 else 0.

Definition example_solution : DARPModelLB.assignment :=
  DARPModelLB.mkAssignment
    (λ a, if decide (a ∈ example_tour) then 1%Q else 0%Q) example_B example_Q.

(** The same tour, with the direct arc from the start depot to the end
    depot selected as well. *)
Definition example_solution_direct : DARPModelLB.assignment :=
  DARPModelLB.mkAssignment
    (λ a, if decide (a ∈ example_tour ++ [("0_start", "0_end")]) then 1%Q else 0%Q)
    example_B example_Q.

(** A variable counts as selected when its value exceeds one half. *)
Definition active (n : Q) : bool := Qgtb n (1 # 2).

(** The arcs of the model that leave the start depot. *)
Definition start_depot_arcs (m : DARPModelLB.Model) : list arc :=
  filter (λ a, a.1 = DARPModelLB.start_node) (DARPModelLB.A m).

(** The arcs of the model that go from the start depot to a pickup node. *)
Definition start_pickup_arcs (m : DARPModelLB.Model) : list arc :=
  map (pair DARPModelLB.start_node)
      (filter (λ j, (DARPModelLB.start_node, j) ∈ DARPModelLB.A m) (DARPModelLB.P m)).

(** The fleet bound as the specification words it: the selected arcs that
    leave the start depot sum to at most [K]. *)
Definition fleet_bound_all_departures (m : DARPModelLB.Model)
    (v : DARPModelLB.assignment) : Prop :=
  (sum (map (DARPModelLB.x_val v) (start_depot_arcs m)) <= DARPModelLB.K m)%Q.

(** The subsets that the pairing-and-precedence constraints range over, as
    the specification words them: a set of customer nodes together with
    the start depot, holding the delivery node of some request but not its
    pickup node. *)
Definition precedence_violating (requests : list Z) (P D : list string)
    (S_set : gset string) : Prop :=
  (∃ T : gset string,
     T ⊆ list_to_set (P ++ D) ∧ S_set = {[ DARPModelLB.start_node ]} ∪ T)
  ∧ ∃ i, i ∈ requests ∧ delivery_name i ∈ S_set ∧ pickup_name i ∉ S_set.

(** What [Constraint] stores for one index: the constraint its rule
    returns, or nothing when the rule skips. *)
Definition entries_of {K V} (rule : K → outcome (option (V → relexpr))) (k : K)
    : list (K * (V → relexpr)) :=
  match rule k with
  | Ok (Some con) => [(k, con)]
  | _ => []
  end.

(** The exception, if any, with which the construction of the LB model
    from a well-typed bundle ends: the rules [visit_once], [leave_once]
    and [fleet_limit] return a Boolean when a depot name is listed among
    the customer nodes or when no pickup node is listed, and
    [max_ride_duration] indexes [B] by the pickup and delivery names of
    every request. *)
Definition lb_construction_error (i : LBInput) : option exn :=
  let nodes := in_P i ++ in_D i in
  if decide (DARPModelLB.start_node ∈ nodes) then Some (ValueError_in "visit_once")
  else if decide (DARPModelLB.end_node ∈ nodes) then Some (ValueError_in "leave_once")
  else if decide (in_P i = []) then Some (ValueError_in "fleet_limit")
  else if decide (Forall (λ r, delivery_name r ∈ nodes ∧ pickup_name r ∈ nodes)
                         (in_Requests i))
       then None
       else Some (KeyError_in "B").

(** The bundle [d'] differs from [d] at most in the values bound to the
    keys [keys]: it binds the same keys, and the same values to the other
    keys. *)
Definition same_except (keys : list string) (d d' : gmap string pyvalue) : Prop :=
  ∀ k, (is_Some (d' !! k) ↔ is_Some (d !! k)) ∧ (k ∉ keys → d' !! k = d !! k).

(** The event graph of [laeb_example.py] with every event reduced to its
    location, so that the members of [V] are scalars and the members of
    [A] are pairs. *)
Definition location_events : list event := [("0", []); ("1+", []); ("1-", [])].
Definition location_arcs : list event_arc :=
  [(("0", []), ("1+", [])); (("1+", []), ("1-", [])); (("1-", []), ("0", []))].

Definition location_arc_times (a : pyobj) : Q :=
  if decide (a = Tuple [Str "0"; Str "1+"]) then 5
  else if decide (a = Tuple [Str "1+"; Str "1-"]) then 8
  else if decide (a = Tuple [Str "1-"; Str "0"]) then 5
  else 0.

Definition location_data : gmap string pyvalue :=
  <["V" := VEvents location_events]>
    (<["A" := VEventArcs location_arcs]>
       (<["costs" := VEventArcTable location_arc_times]>
          (<["travel_times" := VEventArcTable location_arc_times]>
             Instances.test_data))).

(** The components that lines 37 to 58 declare for [location_data]. *)
Definition location_model : DARPModelLAEB.Model :=
  let m_A := [Tuple [Str "0"; Str "1+"]; Tuple [Str "1+"; Str "1-"];
              Tuple [Str "1-"; Str "0"]] in
  let m_J := ["0"; "1+"; "1-"] in
  DARPModelLAEB.mkModel
    [Scalar (Str "0"); Scalar (Str "1+"); Scalar (Str "1-")] m_A [1%Z] m_J
    {[ 1%Z := [] ]} {[ 1%Z := [] ]}
    location_arc_times location_arc_times
    Instances.test_service_times (λ _, 0%Q) Instances.test_tw_end
    (λ _, 30%Q) 1
    (Var_declare m_A) (Var_declare m_J).

(** A relation has no cycle. *)
Definition acyclic {T} (R : relation T) : Prop := ∀ a, ¬ tc R a a.

(** The object after construction from [d] and a solve that loaded [sol]. *)
Definition lb_solved (d : gmap string pyvalue) (sol : DARPModelLB.assignment)
    : DARPModelLB.Self :=
  (DARPModelLB.solve (Some sol) (DARPModelLB.__init__ d).1).1.

(** The selected arcs of an assignment: those whose value exceeds 0.5. *)
Definition lb_selected (m : DARPModelLB.Model) (sol : DARPModelLB.assignment)
    : list arc :=
  filter (λ a, active (DARPModelLB.x_val sol a)) (DARPModelLB.A m).

Definition laeb_selected (m : DARPModelLAEB.Model) (sol : DARPModelLAEB.assignment)
    : list pyobj :=
  filter (λ a, active (DARPModelLAEB.x_val sol a)) (DARPModelLAEB.A m).

(** Selected arcs between non-depot nodes. *)
Definition lb_edge (arcs : list arc) : relation string :=
  λ a b, (a, b) ∈ arcs
         ∧ a ≠ DARPModelLB.start_node ∧ a ≠ DARPModelLB.end_node
         ∧ b ≠ DARPModelLB.start_node ∧ b ≠ DARPModelLB.end_node.

(** The leg that [get_route_summary] records for a selected arc. *)
Definition leg_of (sol : DARPModelLB.assignment) (a : arc) : DARPModelLB.leg :=
  DARPModelLB.mkLeg a.1 a.2 (DARPModelLB.B_val sol a.1) (DARPModelLB.B_val sol a.2)
                    (DARPModelLB.Q_val sol a.2).

Definition lb_routes (m : DARPModelLB.Model) (sol : DARPModelLB.assignment)
    : list DARPModelLB.leg :=
  map (leg_of sol) (lb_selected m sol).

(** [lb_walk_to routes c legs n]: starting at node [c], taking at each node
    other than the end depot the first selected leg that leaves it, the
    legs [legs] are traversed and node [n] is reached. *)
Inductive lb_walk_to (routes : list DARPModelLB.leg)
    : string → list DARPModelLB.leg → string → Prop :=
| lb_walk_here c : lb_walk_to routes c [] c
| lb_walk_step c nl legs n :
    c ≠ DARPModelLB.end_node →
    DARPModelLB.next_leg routes c = Some nl →
    lb_walk_to routes (DARPModelLB.to nl) legs n →
    lb_walk_to routes c (nl :: legs) n.

(** Assignments used to exercise the reconstruction. *)

(** Only the arc from the start depot to the first pickup is selected. *)
Definition dead_end_solution : DARPModelLB.assignment :=
  DARPModelLB.mkAssignment
    (λ a, if decide (a = ("0_start", "1+")) then 1%Q else 0%Q) example_B example_Q.


(** The three event-arcs of [location_data] are selected. *)
Definition location_solution : DARPModelLAEB.assignment :=
  DARPModelLAEB.mkAssignment (λ _, 1%Q) (λ _, 0%Q).

(** The position of a node on the tour of the example. *)
Definition tour_rank (n : string) : nat :=
  default 0%nat
    (fst <$> list_find (λ k, k = n)
                       ["0_start"; "1+"; "1-"; "2+"; "2-"; "3+"; "3-"; "0_end"]).

(** The outcome is an error raised to the caller. *)
Definition is_error {T} (o : outcome T) : Prop := ∃ e, o = Raise e.

End Spec.

(** * Properties *)

Import Py Spec.

(** Closes a decidable goal about concrete data by evaluation. *)
Ltac by_compute := apply (bool_decide_unpack _); vm_compute; exact I.

(** ** Ordered sets *)

Section OrderedSets.
Context {T : Type} `{EqDecision T}.

Lemma elem_of_Set_add_all (items acc : list T) (a : T) :
  a ∈ Set_add_all items acc ↔ a ∈ items ∨ a ∈ acc.
Proof.
  revert acc. induction items as [|b items IH]; intros acc; simpl.
  - rewrite elem_of_nil. tauto.
  - destruct (decide (b ∈ acc)) as [Hb|Hb]; rewrite IH, elem_of_cons.
    + split; [tauto|]. intros [[->|?]|?]; auto.
    + rewrite elem_of_app, list_elem_of_singleton. tauto.
Qed.

Lemma NoDup_Set_add_all (items acc : list T) :
  NoDup acc → NoDup (Set_add_all items acc).
Proof.
  revert acc. induction items as [|b items IH]; intros acc Hacc; simpl; [done|].
  destruct (decide (b ∈ acc)) as [Hb|Hb]; apply IH; [done|].
  apply NoDup_app. split_and!; [done| |apply NoDup_singleton].
  intros a Ha ->%list_elem_of_singleton. done.
Qed.

Lemma elem_of_Set_initialize (items : list T) (a : T) :
  a ∈ Set_initialize items ↔ a ∈ items.
Proof.
  unfold Set_initialize. rewrite elem_of_Set_add_all, elem_of_nil. tauto.
Qed.

Lemma NoDup_Set_initialize (items : list T) : NoDup (Set_initialize items).
Proof. apply NoDup_Set_add_all, NoDup_nil_2. Qed.

Lemma elem_of_Set_union (s1 s2 : list T) (a : T) :
  a ∈ Set_union s1 s2 ↔ a ∈ s1 ∨ a ∈ s2.
Proof.
  unfold Set_union. rewrite elem_of_app, list_elem_of_filter.
  destruct (decide (a ∈ s1)); tauto.
Qed.

End OrderedSets.

(** ** Validation *)

Lemma check_keys_present prefix keys (d : gmap string pyvalue) :
  (∀ k, k ∈ keys → is_Some (d !! k)) → check_keys prefix keys d = Ok tt.
Proof.
  induction keys as [|k keys IH]; intros Hall; simpl; [done|].
  destruct (Hall k) as [v ->]; [left|].
  apply IH. intros k' Hk'. apply Hall. by right.
Qed.

Lemma check_keys_first_missing prefix pre k post (d : gmap string pyvalue) :
  (∀ k', k' ∈ pre → is_Some (d !! k')) → d !! k = None →
  check_keys prefix (pre ++ k :: post) d = Raise (ValueError (prefix +:+ k)).
Proof.
  induction pre as [|k0 pre IH]; intros Hpre Hk; simpl.
  - by rewrite Hk.
  - destruct (Hpre k0) as [v ->]; [left|].
    apply IH; [|done]. intros k' Hk'. apply Hpre. by right.
Qed.

Lemma LB_validate_data_unfold (self : DARPModelLB.Self) :
  DARPModelLB.validate_data self
  = (self, check_keys "Missing required data key: " DARPModelLB.required_keys
             (DARPModelLB.data self)).
Proof. reflexivity. Qed.

Lemma LB_init_unfold (d : gmap string pyvalue) :
  DARPModelLB.__init__ d
  = match check_keys "Missing required data key: " DARPModelLB.required_keys d with
    | Ok _ => DARPModelLB._build_model (DARPModelLB.mkSelf d DARPModelLB.Fresh)
    | Raise e => (DARPModelLB.mkSelf d DARPModelLB.Fresh, Raise e)
    | Diverge => (DARPModelLB.mkSelf d DARPModelLB.Fresh, Diverge)
    end.
Proof. reflexivity. Qed.

Lemma LAEB_validate_data_unfold (self : DARPModelLAEB.Self) :
  DARPModelLAEB.validate_data self
  = (self, check_keys "Falta la clave de datos requerida: " DARPModelLAEB.required_keys
             (DARPModelLAEB.data self)).
Proof. reflexivity. Qed.

Lemma LAEB_init_unfold (d : gmap string pyvalue) :
  DARPModelLAEB.__init__ d
  = match check_keys "Falta la clave de datos requerida: "
            DARPModelLAEB.required_keys d with
    | Ok _ => DARPModelLAEB._build_model (DARPModelLAEB.mkSelf d DARPModelLAEB.Fresh)
    | Raise e => (DARPModelLAEB.mkSelf d DARPModelLAEB.Fresh, Raise e)
    | Diverge => (DARPModelLAEB.mkSelf d DARPModelLAEB.Fresh, Diverge)
    end.
Proof. reflexivity. Qed.

(** C6. Validation fails with a [ValueError] naming the first missing
    required key, and otherwise succeeds; in both cases the object (and so
    the data bundle) is left as it was. It runs before the model is
    built: when a key is missing the constructor stops with the model
    still fresh, and when none is missing construction starts from the
    unchanged bundle. This holds for both formulations. *)
Theorem validate_data_first_missing_key (d : gmap string pyvalue) :
  (∀ mdl pre k post,
     DARPModelLB.required_keys = pre ++ k :: post →
     Forall (λ k', is_Some (d !! k')) pre → d !! k = None →
     DARPModelLB.validate_data (DARPModelLB.mkSelf d mdl)
       = (DARPModelLB.mkSelf d mdl,
          Raise (ValueError ("Missing required data key: " +:+ k)))
     ∧ DARPModelLB.__init__ d
       = (DARPModelLB.mkSelf d DARPModelLB.Fresh,
          Raise (ValueError ("Missing required data key: " +:+ k))))
  ∧ (∀ mdl,
     Forall (λ k', is_Some (d !! k')) DARPModelLB.required_keys →
     DARPModelLB.validate_data (DARPModelLB.mkSelf d mdl)
       = (DARPModelLB.mkSelf d mdl, Ok tt)
     ∧ DARPModelLB.__init__ d
       = DARPModelLB._build_model (DARPModelLB.mkSelf d DARPModelLB.Fresh))
  ∧ (∀ mdl pre k post,
     DARPModelLAEB.required_keys = pre ++ k :: post →
     Forall (λ k', is_Some (d !! k')) pre → d !! k = None →
     DARPModelLAEB.validate_data (DARPModelLAEB.mkSelf d mdl)
       = (DARPModelLAEB.mkSelf d mdl,
          Raise (ValueError ("Falta la clave de datos requerida: " +:+ k)))
     ∧ DARPModelLAEB.__init__ d
       = (DARPModelLAEB.mkSelf d DARPModelLAEB.Fresh,
          Raise (ValueError ("Falta la clave de datos requerida: " +:+ k))))
  ∧ (∀ mdl,
     Forall (λ k', is_Some (d !! k')) DARPModelLAEB.required_keys →
     DARPModelLAEB.validate_data (DARPModelLAEB.mkSelf d mdl)
       = (DARPModelLAEB.mkSelf d mdl, Ok tt)
     ∧ DARPModelLAEB.__init__ d
       = DARPModelLAEB._build_model (DARPModelLAEB.mkSelf d DARPModelLAEB.Fresh)).
Proof.
  split_and!.
  - intros mdl pre k post Hkeys Hpre Hk.
    assert (check_keys "Missing required data key: " DARPModelLB.required_keys d
            = Raise (ValueError ("Missing required data key: " +:+ k))) as Hck.
    { rewrite Hkeys. apply check_keys_first_missing; [|done].
      by apply Forall_forall. }
    rewrite LB_validate_data_unfold, LB_init_unfold.
    cbn [DARPModelLB.data]. by rewrite Hck.
  - intros mdl Hall.
    assert (check_keys "Missing required data key: " DARPModelLB.required_keys d
            = Ok tt) as Hck.
    { apply check_keys_present. by apply Forall_forall. }
    rewrite LB_validate_data_unfold, LB_init_unfold.
    cbn [DARPModelLB.data]. by rewrite Hck.
  - intros mdl pre k post Hkeys Hpre Hk.
    assert (check_keys "Falta la clave de datos requerida: "
              DARPModelLAEB.required_keys d
            = Raise (ValueError ("Falta la clave de datos requerida: " +:+ k))) as Hck.
    { rewrite Hkeys. apply check_keys_first_missing; [|done].
      by apply Forall_forall. }
    rewrite LAEB_validate_data_unfold, LAEB_init_unfold.
    cbn [DARPModelLAEB.data]. by rewrite Hck.
  - intros mdl Hall.
    assert (check_keys "Falta la clave de datos requerida: "
              DARPModelLAEB.required_keys d = Ok tt) as Hck.
    { apply check_keys_present. by apply Forall_forall. }
    rewrite LAEB_validate_data_unfold, LAEB_init_unfold.
    cbn [DARPModelLAEB.data]. by rewrite Hck.
Qed.

Lemma validate_data_first_missing_key_witness :
  DARPModelLB.__init__ (delete "tw_start" (delete "capacity" Instances.get_example_instance))
    = (DARPModelLB.mkSelf (delete "tw_start" (delete "capacity" Instances.get_example_instance))
         DARPModelLB.Fresh,
       Raise (ValueError "Missing required data key: tw_start"))
  ∧ DARPModelLB.validate_data
      (DARPModelLB.mkSelf Instances.get_example_instance DARPModelLB.Fresh)
    = (DARPModelLB.mkSelf Instances.get_example_instance DARPModelLB.Fresh, Ok tt)
  ∧ DARPModelLAEB.__init__ (delete "J" Instances.test_data)
    = (DARPModelLAEB.mkSelf (delete "J" Instances.test_data) DARPModelLAEB.Fresh,
       Raise (ValueError "Falta la clave de datos requerida: J"))
  ∧ DARPModelLAEB.validate_data
      (DARPModelLAEB.mkSelf Instances.test_data DARPModelLAEB.Fresh)
    = (DARPModelLAEB.mkSelf Instances.test_data DARPModelLAEB.Fresh, Ok tt).
Proof.
  split_and!.
  - apply (proj1 (validate_data_first_missing_key _) DARPModelLB.Fresh
             ["Requests"; "P"; "D"; "costs"; "travel_times"; "service_times"; "load_change"]
             "tw_start"
             ["tw_end"; "max_ride_time"; "capacity"; "vehicles"]).
    + reflexivity.
    + apply (bool_decide_unpack _). vm_compute. exact I.
    + vm_compute. reflexivity.
  - apply (proj1 (proj2 (validate_data_first_missing_key _))).
    apply (bool_decide_unpack _). vm_compute. exact I.
  - apply (proj1 (proj2 (proj2 (validate_data_first_missing_key _))) DARPModelLAEB.Fresh
             ["V"; "A"; "Requests"; "P"; "D"] "J"
             ["costs"; "travel_times"; "service_times"; "tw_start"; "tw_end";
              "max_ride_time"; "vehicles"]).
    + reflexivity.
    + apply (bool_decide_unpack _). vm_compute. exact I.
    + vm_compute. reflexivity.
  - apply (proj2 (proj2 (proj2 (validate_data_first_missing_key _)))).
    apply (bool_decide_unpack _). vm_compute. exact I.
Defined.

(** ** The node and arc sets of the LB model *)

Lemma elem_of_build_J (J_minus_depot : list string) (n : string) :
  n ∈ DARPModelLB.build_J J_minus_depot
  ↔ n = "0_start" ∨ n ∈ J_minus_depot ∨ n = "0_end".
Proof.
  unfold DARPModelLB.build_J. rewrite elem_of_Set_initialize.
  rewrite !elem_of_app, !list_elem_of_singleton. reflexivity.
Qed.

Lemma elem_of_build_A (J : list string) (a b : string) :
  (a, b) ∈ DARPModelLB.build_A J
  ↔ a ∈ J ∧ b ∈ J ∧ a ≠ b ∧ a ≠ "0_end" ∧ b ≠ "0_start".
Proof.
  unfold DARPModelLB.build_A. rewrite elem_of_Set_initialize.
  rewrite list_elem_of_bind. split.
  - intros (i & Hab & Hi). apply list_elem_of_bind in Hab as (j & Hab & Hj).
    destruct (decide _) as [Hc|Hc]; [|by apply elem_of_nil in Hab].
    apply list_elem_of_singleton in Hab. injection Hab as -> ->. tauto.
  - intros (Ha & Hb & Hne & He & Hs). exists a. split; [|done].
    apply list_elem_of_bind. exists b. split; [|done].
    rewrite decide_True by done. by apply list_elem_of_singleton.
Qed.

Lemma NoDup_build_A (J : list string) : NoDup (DARPModelLB.build_A J).
Proof. apply NoDup_Set_initialize. Qed.

(** ** Relational expressions and sums *)

Lemma holdsb_holds (r : relexpr) : holdsb r = true ↔ holds r.
Proof.
  destruct r; simpl.
  - apply Qle_bool_iff.
  - apply Qle_bool_iff.
  - apply Qeq_bool_iff.
  - rewrite andb_true_iff, !Qle_bool_iff. reflexivity.
Qed.

Lemma fold_left_Qplus (ns : list Q) (a : Q) :
  (fold_left Qplus ns a == a + fold_left Qplus ns 0)%Q.
Proof.
  revert a. induction ns as [|n ns IH]; intros a; simpl.
  - lra.
  - rewrite (IH (a + n)%Q), (IH (0 + n)%Q). lra.
Qed.

Lemma sum_nil : sum [] = 0%Q.
Proof. reflexivity. Qed.

Lemma sum_cons (n : Q) (ns : list Q) : (sum (n :: ns) == n + sum ns)%Q.
Proof.
  unfold sum. simpl. rewrite fold_left_Qplus. lra.
Qed.

(** ** Big-M constraints *)

(** C4. When [x[i,j] = 0], the time-consistency constraint (with
    [M_ij = l[i] + s[i] + t[i,j] - e[j]]) and the load-consistency
    constraint (with coefficient [Q_max]) hold for every [B] inside the
    time windows and every [Q] inside the capacity bounds. *)
Theorem LB_big_M_vacuous (m : DARPModelLB.Model) (v : DARPModelLB.assignment)
    (i j : string) :
  (DARPModelLB.x_val v (i, j) == 0)%Q →
  holds (DARPModelLB.service_windows m v i) →
  holds (DARPModelLB.service_windows m v j) →
  holds (DARPModelLB.capacity_bound m v i) →
  holds (DARPModelLB.capacity_bound m v j) →
  holds (DARPModelLB.time_consistency m v i j)
  ∧ holds (DARPModelLB.load_consistency m v i j).
Proof.
  unfold DARPModelLB.service_windows, DARPModelLB.capacity_bound,
    DARPModelLB.time_consistency, DARPModelLB.load_consistency. simpl.
  intros Hx [_ HBi] [HBj _] [_ HQi] [HQj _].
  pose proof (Q.le_min_l (DARPModelLB.Q_max m)
                (DARPModelLB.Q_max m + DARPModelLB.q m i)) as Hmin.
  pose proof (Q.le_max_r 0 (DARPModelLB.q m j)) as Hmax.
  rewrite Hx. split; lra.
Qed.

Lemma LB_big_M_vacuous_witness :
  holds (DARPModelLB.time_consistency (lb_model_of example_input) example_solution
           "1+" "2+")
  ∧ holds (DARPModelLB.load_consistency (lb_model_of example_input) example_solution
           "1+" "2+").
Proof.
  apply LB_big_M_vacuous.
  - reflexivity.
  - apply holdsb_holds. reflexivity.
  - apply holdsb_holds. reflexivity.
  - apply holdsb_holds. reflexivity.
  - apply holdsb_holds. reflexivity.
Defined.

(** ** Feasible assignments of the LB model *)

Lemma forallb_elem_of {T} (f : T → bool) (xs : list T) :
  forallb f xs = true → ∀ a, a ∈ xs → f a = true.
Proof.
  intros H a Ha. apply list_elem_of_In in Ha.
  by apply (proj1 (forallb_forall f xs) H).
Qed.

Lemma Binaryb_Binary (n : Q) : Binaryb n = true → Binary n.
Proof.
  unfold Binaryb, Binary. intros [H|H]%orb_true_iff; apply Qeq_bool_iff in H; auto.
Qed.

Lemma feasibleb_feasible (m : DARPModelLB.Model) (v : DARPModelLB.assignment) :
  DARPModelLB.feasibleb m v = true → DARPModelLB.feasible m v.
Proof.
  unfold DARPModelLB.feasibleb. rewrite !andb_true_iff.
  intros (((((((((((H1&H2)&H3)&H4)&H5)&H6)&H7)&H8)&H9)&H10)&H11)&H12).
  constructor.
  - intros a Ha. apply Binaryb_Binary. by apply (forallb_elem_of _ _ H1).
  - intros j Hj. apply Qle_bool_iff. by apply (forallb_elem_of _ _ H2).
  - intros j Hj. apply Qle_bool_iff. by apply (forallb_elem_of _ _ H3).
  - intros j Hj. apply holdsb_holds. by apply (forallb_elem_of _ _ H4).
  - intros j Hj. apply holdsb_holds. by apply (forallb_elem_of _ _ H5).
  - by apply holdsb_holds.
  - intros idx Hidx. pose proof (forallb_elem_of _ _ H7 idx Hidx) as Hr.
    cbv beta in Hr. destruct (DARPModelLB.precedence_pairing m v idx) as [r| |]; try done.
    exists r. split; [done|]. apply holdsb_holds. exact Hr.
  - intros i j Hij. apply holdsb_holds. by apply (forallb_elem_of _ _ H8 (i, j)).
  - intros i j Hij. apply holdsb_holds. by apply (forallb_elem_of _ _ H9 (i, j)).
  - intros j Hj. apply holdsb_holds. by apply (forallb_elem_of _ _ H10).
  - intros j Hj. apply holdsb_holds. by apply (forallb_elem_of _ _ H11).
  - intros r Hr. apply holdsb_holds. by apply (forallb_elem_of _ _ H12).
Qed.

Lemma active_binary (n : Q) :
  Binary n → (n == (if active n then 1 else 0))%Q.
Proof.
  unfold active, Qgtb. intros [H|H].
  - assert (Qle_bool n (1 # 2) = true) as ->; [|exact H].
    apply Qle_bool_iff. lra.
  - destruct (Qle_bool n (1 # 2)) eqn:Hle; [|exact H].
    apply Qle_bool_iff in Hle. lra.
Qed.

Lemma sum_binary_count {T} (x : T → Q) (xs : list T) :
  (∀ a, a ∈ xs → Binary (x a)) →
  (sum (map x xs) == inject_Z (Z.of_nat (length (filter (λ a, active (x a)) xs))))%Q.
Proof.
  induction xs as [|a xs IH]; intros Hbin; [done|].
  cbn [map]. rewrite sum_cons, IH by (intros; apply Hbin; by right).
  pose proof (active_binary (x a) (Hbin a ltac:(left))) as Ha.
  rewrite filter_cons. destruct (active (x a)); simpl Is_true.
  - rewrite decide_True by exact I. cbn [length].
    rewrite Nat2Z.inj_succ, <- Z.add_1_l, inject_Z_plus, Ha. reflexivity.
  - rewrite decide_False by (intros []). rewrite Ha. lra.
Qed.

(** C1, as the code has it. In every feasible assignment the number of
    selected arcs from the start depot to a pickup node is at most [K];
    the constraint does not count the other arcs that leave the start
    depot. *)
Theorem LB_fleet_limit_pickup_departures (m : DARPModelLB.Model)
    (v : DARPModelLB.assignment) :
  DARPModelLB.feasible m v →
  (inject_Z (Z.of_nat (length (filter (λ a, active (DARPModelLB.x_val v a))
                                      (start_pickup_arcs m))))
   <= DARPModelLB.K m)%Q.
Proof.
  intros Hf. pose proof (DARPModelLB.fleet_limit_holds m v Hf) as Hfl.
  unfold DARPModelLB.fleet_limit in Hfl. simpl in Hfl.
  rewrite <- sum_binary_count.
  - unfold start_pickup_arcs. by rewrite map_map.
  - intros a Ha. apply (DARPModelLB.x_domain m v Hf).
    unfold start_pickup_arcs in Ha.
    apply list_elem_of_fmap in Ha as (j & -> & Hj).
    by apply list_elem_of_filter in Hj as [Hj _].
Qed.

Lemma LB_fleet_limit_pickup_departures_witness :
  (inject_Z (Z.of_nat (length (filter
      (λ a, active (DARPModelLB.x_val example_solution a))
      (start_pickup_arcs (lb_model_of example_input)))))
   <= DARPModelLB.K (lb_model_of example_input))%Q.
Proof.
  apply LB_fleet_limit_pickup_departures.
  apply feasibleb_feasible. vm_compute. reflexivity.
Defined.

(** C1, as the specification words it, fails: the assignment that adds the
    direct arc from the start depot to the end depot to the tour of the
    example is feasible, and two selected arcs leave the start depot while
    [K = 1]. *)
Lemma LB_fleet_limit_counterexample :
  DARPModelLB.feasible (lb_model_of example_input) example_solution_direct
  ∧ ¬ fleet_bound_all_departures (lb_model_of example_input) example_solution_direct.
Proof.
  split.
  - apply feasibleb_feasible. vm_compute. reflexivity.
  - unfold fleet_bound_all_departures. intros H%Qle_bool_iff.
    vm_compute in H. discriminate H.
Qed.

(** ** Enumeration of the subsets of the pairing-and-precedence constraints *)

Section Combinations.
Context {T : Type}.

Lemma elem_of_combinations (pool : list T) (r : nat) (sub : list T) :
  sub ∈ DARPModelLB.combinations pool r ↔ sub `sublist_of` pool ∧ length sub = r.
Proof.
  revert r sub. induction pool as [|a rest IH]; intros r sub.
  - destruct r as [|r]; simpl.
    + rewrite list_elem_of_singleton, sublist_nil_r. split; [by intros ->|tauto].
    + rewrite elem_of_nil, sublist_nil_r. split; [done|]. by intros [-> ?].
  - destruct r as [|r]; simpl.
    + rewrite list_elem_of_singleton. split.
      * intros ->. split; [apply sublist_nil_l|done].
      * intros [_ Hlen]. by destruct sub.
    + rewrite elem_of_app, list_elem_of_fmap, sublist_cons_r. split.
      * intros [(sub' & -> & Hsub')|Hsub].
        -- apply IH in Hsub' as [? <-]. split; [right; eauto|done].
        -- apply IH in Hsub as [? ?]. split; [by left|done].
      * intros [[Hsub|(sub' & -> & Hsub')] Hlen].
        -- right. apply IH. done.
        -- left. exists sub'. split; [done|]. apply IH. split; [done|].
           simpl in Hlen. lia.
Qed.

Lemma NoDup_combinations (pool : list T) (r : nat) :
  NoDup pool → NoDup (DARPModelLB.combinations pool r).
Proof.
  revert r. induction pool as [|a rest IH]; intros r Hpool.
  - destruct r; simpl; [apply NoDup_singleton|apply NoDup_nil_2].
  - apply NoDup_cons in Hpool as [Ha Hrest].
    destruct r as [|r]; simpl; [apply NoDup_singleton|].
    apply NoDup_app. split_and!.
    + apply (NoDup_fmap_2 _). by apply IH.
    + intros sub (sub' & -> & _)%list_elem_of_fmap [Hsub _]%elem_of_combinations.
      apply Ha. apply (sublist_subseteq _ _ Hsub). left.
    + by apply IH.
Qed.

Lemma sublist_NoDup_ext (pool s1 s2 : list T) :
  NoDup pool → s1 `sublist_of` pool → s2 `sublist_of` pool →
  (∀ a, a ∈ s1 ↔ a ∈ s2) → s1 = s2.
Proof.
  revert s1 s2. induction pool as [|b rest IH]; intros s1 s2 Hpool H1 H2 Hext.
  - apply sublist_nil_r in H1, H2. by subst.
  - apply NoDup_cons in Hpool as [Hb Hrest].
    apply sublist_cons_r in H1 as [H1|(s1' & -> & H1)];
      apply sublist_cons_r in H2 as [H2|(s2' & -> & H2)].
    + by apply IH.
    + exfalso. apply Hb. apply (sublist_subseteq _ _ H1), Hext. left.
    + exfalso. apply Hb. apply (sublist_subseteq _ _ H2), Hext. left.
    + f_equal. apply IH; [done..|]. intros a. split; intros Ha.
      * assert (a ∈ b :: s2') as [->|?]%elem_of_cons; [apply Hext; by right| |done].
        exfalso. apply Hb. by apply (sublist_subseteq _ _ H1).
      * assert (a ∈ b :: s1') as [->|?]%elem_of_cons; [apply Hext; by right| |done].
        exfalso. apply Hb. by apply (sublist_subseteq _ _ H2).
Qed.

End Combinations.

Lemma has_delivery_without_pickup_spec (requests : list Z) (S_set : gset string) :
  DARPModelLB.has_delivery_without_pickup requests S_set = true
  ↔ ∃ i, i ∈ requests ∧ delivery_name i ∈ S_set ∧ pickup_name i ∉ S_set.
Proof.
  unfold DARPModelLB.has_delivery_without_pickup. rewrite existsb_exists.
  split; intros (i & Hi & Hp).
  - exists i. apply list_elem_of_In in Hi.
    apply andb_true_iff in Hp as [H1 H2].
    apply bool_decide_eq_true in H1, H2. done.
  - exists i. split; [by apply list_elem_of_In|].
    destruct Hp as [H1 H2]. apply andb_true_iff.
    split; by apply bool_decide_eq_true.
Qed.

Lemma append_dash_not_start (name : string) : name +:+ "-" ≠ "0_start".
Proof.
  intros H.
  do 7 (destruct name as [|? name]; [discriminate H|]; simpl in H; injection H as _ H).
  destruct name; discriminate H.
Qed.

Lemma append_plus_not_start (name : string) : name +:+ "+" ≠ "0_start".
Proof.
  intros H.
  do 7 (destruct name as [|? name]; [discriminate H|]; simpl in H; injection H as _ H).
  destruct name; discriminate H.
Qed.

Lemma append_dash_not_end (name : string) : name +:+ "-" ≠ "0_end".
Proof.
  intros H.
  do 5 (destruct name as [|? name]; [discriminate H|]; simpl in H; injection H as _ H).
  destruct name; discriminate H.
Qed.

Lemma append_plus_not_end (name : string) : name +:+ "+" ≠ "0_end".
Proof.
  intros H.
  do 5 (destruct name as [|? name]; [discriminate H|]; simpl in H; injection H as _ H).
  destruct name; discriminate H.
Qed.

Lemma delivery_name_not_start (i : Z) : delivery_name i ≠ DARPModelLB.start_node.
Proof. apply append_dash_not_start. Qed.

Lemma elem_of_s_sets_of (requests : list Z) (P D S_tuple : list string) :
  S_tuple ∈ DARPModelLB.s_sets_of requests P D
  ↔ ∃ sub, sub `sublist_of` (P ++ D) ∧ 1 ≤ length sub
      ∧ DARPModelLB.has_delivery_without_pickup requests
          ({[ DARPModelLB.start_node ]} ∪ list_to_set sub) = true
      ∧ S_tuple = elements (({[ DARPModelLB.start_node ]} ∪ list_to_set sub) : gset string).
Proof.
  unfold DARPModelLB.s_sets_of. cbv zeta. rewrite list_elem_of_bind. split.
  - intros (r & (sub & Hs & [Hsub Hlen]%elem_of_combinations)%list_elem_of_bind
              & Hr%elem_of_seq).
    destruct (DARPModelLB.has_delivery_without_pickup _ _) eqn:Hp;
      [|by apply elem_of_nil in Hs].
    apply list_elem_of_singleton in Hs. exists sub. split_and!; [done|lia|done|done].
  - intros (sub & Hsub & Hlen & Hp & ->). exists (length sub). split.
    + apply list_elem_of_bind. exists sub. split.
      * rewrite Hp. by apply list_elem_of_singleton.
      * by apply elem_of_combinations.
    + apply elem_of_seq. pose proof (sublist_length _ _ Hsub). lia.
Qed.

Lemma start_union_inj (pool s1 s2 : list string) :
  NoDup pool → DARPModelLB.start_node ∉ pool →
  s1 `sublist_of` pool → s2 `sublist_of` pool →
  ({[ DARPModelLB.start_node ]} ∪ list_to_set s1 : gset string)
    = {[ DARPModelLB.start_node ]} ∪ list_to_set s2 →
  s1 = s2.
Proof.
  intros Hpool Hstart H1 H2 Heq. apply (sublist_NoDup_ext pool); [done..|].
  pose proof (sublist_subseteq _ _ H1) as Hs1.
  pose proof (sublist_subseteq _ _ H2) as Hs2.
  intros a. split; intros Ha.
  - assert (a ∈ ({[ DARPModelLB.start_node ]} ∪ list_to_set s2 : gset string)) as Hin.
    { rewrite <- Heq. apply elem_of_union_r. by apply elem_of_list_to_set. }
    apply elem_of_union in Hin as [->%elem_of_singleton|Hin].
    + exfalso. apply Hstart. by apply Hs1.
    + by apply elem_of_list_to_set in Hin.
  - assert (a ∈ ({[ DARPModelLB.start_node ]} ∪ list_to_set s1 : gset string)) as Hin.
    { rewrite Heq. apply elem_of_union_r. by apply elem_of_list_to_set. }
    apply elem_of_union in Hin as [->%elem_of_singleton|Hin].
    + exfalso. apply Hstart. by apply Hs2.
    + by apply elem_of_list_to_set in Hin.
Qed.

Lemma elements_inj_gset (X Y : gset string) : elements X = elements Y → X = Y.
Proof.
  intros H. rewrite <- (list_to_set_elements_L X), <- (list_to_set_elements_L Y).
  by rewrite H.
Qed.

Lemma NoDup_s_sets_of (requests : list Z) (P D : list string) :
  NoDup (P ++ D) → DARPModelLB.start_node ∉ P ++ D →
  NoDup (DARPModelLB.s_sets_of requests P D).
Proof.
  intros Hpool Hstart. unfold DARPModelLB.s_sets_of. cbv zeta.
  assert (∀ r1 r2 sub1 sub2 y,
    sub1 ∈ DARPModelLB.combinations (P ++ D) r1 →
    sub2 ∈ DARPModelLB.combinations (P ++ D) r2 →
    y ∈ (if DARPModelLB.has_delivery_without_pickup requests
              ({[ DARPModelLB.start_node ]} ∪ list_to_set sub1)
         then [elements ({[ DARPModelLB.start_node ]} ∪ list_to_set sub1 : gset string)]
         else []) →
    y ∈ (if DARPModelLB.has_delivery_without_pickup requests
              ({[ DARPModelLB.start_node ]} ∪ list_to_set sub2)
         then [elements ({[ DARPModelLB.start_node ]} ∪ list_to_set sub2 : gset string)]
         else []) →
    sub1 = sub2) as Hinj.
  { intros r1 r2 sub1 sub2 y [H1 _]%elem_of_combinations [H2 _]%elem_of_combinations Hy1 Hy2.
    destruct (DARPModelLB.has_delivery_without_pickup _ _); [|by apply elem_of_nil in Hy1].
    destruct (DARPModelLB.has_delivery_without_pickup _ _); [|by apply elem_of_nil in Hy2].
    apply list_elem_of_singleton in Hy1, Hy2. subst y.
    apply (start_union_inj (P ++ D)); [done..|]. by apply elements_inj_gset. }
  apply NoDup_bind.
  - intros r1 r2 y _ _ (sub1 & Hy1 & Hs1)%list_elem_of_bind
                      (sub2 & Hy2 & Hs2)%list_elem_of_bind.
    pose proof (Hinj _ _ _ _ _ Hs1 Hs2 Hy1 Hy2) as ->.
    apply elem_of_combinations in Hs1 as [_ <-].
    by apply elem_of_combinations in Hs2 as [_ <-].
  - intros r _. apply NoDup_bind.
    + intros sub1 sub2 y Hs1 Hs2 Hy1 Hy2. by apply (Hinj r r sub1 sub2 y).
    + intros sub _. destruct (DARPModelLB.has_delivery_without_pickup _ _);
        [apply NoDup_singleton|apply NoDup_nil_2].
    + by apply NoDup_combinations.
  - apply NoDup_seq.
Qed.

Lemma s_sets_of_precedence_violating (requests : list Z) (P D : list string)
    (S_set : gset string) :
  S_set ∈ (list_to_set <$> DARPModelLB.s_sets_of requests P D : list (gset string))
  ↔ precedence_violating requests P D S_set.
Proof.
  rewrite list_elem_of_fmap. unfold precedence_violating. split.
  - intros (S_tuple & -> & (sub & Hsub & Hlen & Hp & ->)%elem_of_s_sets_of).
    rewrite list_to_set_elements_L. split.
    + exists (list_to_set sub). split; [|done].
      intros a Ha%elem_of_list_to_set. apply elem_of_list_to_set.
      by apply (sublist_subseteq _ _ Hsub).
    + by apply has_delivery_without_pickup_spec.
  - intros [(T & HT & ->) (i & Hi & Hd & Hp)].
    set (sub := filter (λ a, a ∈ T) (P ++ D)).
    assert ((list_to_set sub : gset string) = T) as Hsub.
    { apply set_eq. intros a. unfold sub.
      rewrite elem_of_list_to_set, list_elem_of_filter. split; [tauto|].
      intros Ha. split; [done|].
      apply (elem_of_list_to_set (C:=gset string)). by apply HT. }
    exists (elements ({[ DARPModelLB.start_node ]} ∪ T)). split.
    + by rewrite list_to_set_elements_L.
    + apply elem_of_s_sets_of. exists sub. rewrite Hsub. split_and!.
      * apply sublist_filter.
      * apply elem_of_union in Hd as [Hd%elem_of_singleton|Hd];
          [by apply delivery_name_not_start in Hd|].
        rewrite <- Hsub in Hd. apply elem_of_list_to_set in Hd.
        destruct sub; [by apply elem_of_nil in Hd|simpl; lia].
      * apply has_delivery_without_pickup_spec. eauto.
      * done.
Qed.

Lemma elem_of_arcs_in (m : DARPModelLB.Model) (S_tuple : list string) (a b : string) :
  (a, b) ∈ DARPModelLB.arcs_in m S_tuple
  ↔ (a, b) ∈ DARPModelLB.A m ∧ a ∈ S_tuple ∧ b ∈ S_tuple.
Proof.
  unfold DARPModelLB.arcs_in. rewrite list_elem_of_bind. split.
  - intros (i & (j & Hab & Hj)%list_elem_of_bind & Hi).
    destruct (decide _) as [Hin|]; [|by apply elem_of_nil in Hab].
    apply list_elem_of_singleton in Hab. injection Hab as -> ->. done.
  - intros (HA & Ha & Hb). exists a. split; [|done].
    apply list_elem_of_bind. exists b. split; [|done].
    rewrite decide_True by done. by apply list_elem_of_singleton.
Qed.

Lemma NoDup_arcs_in (m : DARPModelLB.Model) (S_tuple : list string) :
  NoDup S_tuple → NoDup (DARPModelLB.arcs_in m S_tuple).
Proof.
  intros HS. unfold DARPModelLB.arcs_in. apply NoDup_bind; [| |done].
  - intros i1 i2 [a b] _ _ (j1 & H1 & _)%list_elem_of_bind (j2 & H2 & _)%list_elem_of_bind.
    destruct (decide _); [|by apply elem_of_nil in H1].
    destruct (decide _); [|by apply elem_of_nil in H2].
    apply list_elem_of_singleton in H1, H2. congruence.
  - intros i _. apply NoDup_bind; [| |done].
    + intros j1 j2 [a b] _ _ H1 H2.
      destruct (decide _); [|by apply elem_of_nil in H1].
      destruct (decide _); [|by apply elem_of_nil in H2].
      apply list_elem_of_singleton in H1, H2. congruence.
    + intros j _. destruct (decide _); [apply NoDup_singleton|apply NoDup_nil_2].
Qed.

(** ** Constraint components *)

Section ConstraintComponent.
Context {K V : Type} `{EqDecision K}.
Implicit Types (rule : K → outcome (option (V → relexpr))).

Lemma entries_of_Ok rule (k : K) (r : option (V → relexpr)) :
  rule k = Ok r →
  entries_of rule k = match r with Some con => [(k, con)] | None => [] end.
Proof. unfold entries_of. by intros ->. Qed.

Lemma Constraint_total (index : list K) rule :
  (∀ k, k ∈ index → ∃ r, rule k = Ok r) →
  Constraint index rule = Ok (index ≫= entries_of rule).
Proof.
  induction index as [|k index IH]; intros Hok; [done|].
  cbn [Constraint]. destruct (Hok k) as [r Hr]; [left|].
  rewrite Hr, IH by (intros; apply Hok; by right).
  rewrite bind_cons, (entries_of_Ok _ _ _ Hr). by destruct r.
Qed.

Lemma Constraint_cases (index : list K) rule (e : exn) :
  (∀ k, k ∈ index → (∃ r, rule k = Ok r) ∨ rule k = Raise e) →
  ((∀ k, k ∈ index → ∃ r, rule k = Ok r)
   ∧ Constraint index rule = Ok (index ≫= entries_of rule))
  ∨ ((∃ k, k ∈ index ∧ rule k = Raise e) ∧ Constraint index rule = Raise e).
Proof.
  induction index as [|k index IH]; intros Hrule.
  - left. split; [by intros k ?%elem_of_nil|done].
  - cbn [Constraint]. destruct (Hrule k) as [[r Hr]|Hr]; [left| |].
    + destruct IH as [[Hall Hc]|[(k' & Hk' & Hr') Hc]].
      * intros; apply Hrule; by right.
      * left. split.
        -- intros k' [->|Hk']%elem_of_cons; eauto.
        -- rewrite Hr, Hc. cbn [mbind outcome_bind obind].
           rewrite bind_cons, (entries_of_Ok _ _ _ Hr). by destruct r.
      * right. split; [exists k'; split; [by right|done]|].
        rewrite Hr, Hc. done.
    + right. split; [exists k; split; [left|done]|]. by rewrite Hr.
Qed.

End ConstraintComponent.

(** ** Construction of the LB model *)

Lemma LB_required_keys_present (d : gmap string pyvalue) (i : LBInput) :
  lb_data_has d i →
  check_keys "Missing required data key: " DARPModelLB.required_keys d = Ok tt.
Proof.
  intros (H1&H2&H3&H4&H5&H6&H7&H8&H9&H10&H11&H12).
  apply check_keys_present. intros k Hk. unfold DARPModelLB.required_keys in Hk.
  repeat (apply elem_of_cons in Hk as [->|Hk]; [eauto|]).
  by apply elem_of_nil in Hk.
Qed.

Lemma rule_returns_some {V} (component : string) (n : nat) (rel : V → relexpr) :
  0 < n → rule_returns component n rel = Ok (Some rel).
Proof. destruct n; [lia|done]. Qed.

Lemma length_filter_pos {T} (P : T → Prop) `{!∀ a, Decision (P a)} (xs : list T) (a : T) :
  a ∈ xs → P a → 0 < length (filter P xs).
Proof.
  intros Ha HP. assert (a ∈ filter P xs) as Hin by (by apply list_elem_of_filter).
  destruct (filter P xs); [by apply elem_of_nil in Hin|simpl; lia].
Qed.

Lemma filter_none {T} (P : T → Prop) `{!∀ a, Decision (P a)} (xs : list T) :
  (∀ a, a ∈ xs → ¬ P a) → filter P xs = [].
Proof.
  intros Hnone. destruct (filter P xs) as [|a l] eqn:Hf; [done|].
  assert (a ∈ filter P xs) as [HP Ha]%list_elem_of_filter by (rewrite Hf; left).
  by destruct (Hnone a Ha).
Qed.

Lemma Var_getitem_declared {T} `{EqDecision T} (name : string) (idx : list T) (k : T) :
  k ∈ idx → Var_getitem name (Var_declare idx) k = Ok tt.
Proof. intros Hk. unfold Var_getitem, Var_declare. cbn [index]. by rewrite decide_True. Qed.

Lemma Var_getitem_undeclared {T} `{EqDecision T} (name : string) (idx : list T) (k : T) :
  k ∉ idx → Var_getitem name (Var_declare idx) k = Raise (KeyError_in name).
Proof. intros Hk. unfold Var_getitem, Var_declare. cbn [index]. by rewrite decide_False. Qed.

Lemma LB_declare_components (d : gmap string pyvalue) (i : LBInput) :
  lb_data_has d i → DARPModelLB.declare_components d = Ok (lb_components_of i).
Proof.
  intros (H1&H2&H3&H4&H5&H6&H7&H8&H9&H10&H11&H12).
  unfold DARPModelLB.declare_components, mbind, outcome_bind, obind, getitem.
  rewrite H1, H2, H3, H4, H5, H6, H7, H8, H9, H10, H11, H12.
  reflexivity.
Qed.

Lemma LB_generate_s_sets (d : gmap string pyvalue) (i : LBInput)
    (mdl : DARPModelLB.ConcreteModel) :
  lb_data_has d i →
  DARPModelLB._generate_s_sets (DARPModelLB.mkSelf d mdl)
  = (DARPModelLB.mkSelf d mdl,
     Ok (DARPModelLB.s_sets_of (in_Requests i) (in_P i) (in_D i))).
Proof.
  intros (H1&H2&H3&_).
  unfold DARPModelLB._generate_s_sets.
  unfold mbind, M_bind, mbind_M, get, lift, outcome_bind, obind, getitem.
  cbn [DARPModelLB.data]. rewrite H1, H2, H3. reflexivity.
Qed.

Lemma lb_model_of_components (i : LBInput) :
  DARPModelLB.with_s_sets (lb_components_of i)
    (DARPModelLB.s_sets_of (in_Requests i) (in_P i) (in_D i))
  = lb_model_of i.
Proof. reflexivity. Qed.

Lemma LB_customer_nodes (i : LBInput) (j : string) :
  j ∈ DARPModelLB.J_minus_depot (lb_model_of i) ↔ j ∈ in_P i ++ in_D i.
Proof.
  cbn [lb_model_of DARPModelLB.J_minus_depot].
  rewrite elem_of_Set_union, !elem_of_Set_initialize, elem_of_app. tauto.
Qed.

Lemma LB_nodes (i : LBInput) (j : string) :
  j ∈ DARPModelLB.J (lb_model_of i)
  ↔ j = "0_start" ∨ j ∈ in_P i ++ in_D i ∨ j = "0_end".
Proof.
  cbn [lb_model_of DARPModelLB.J].
  rewrite elem_of_build_J, elem_of_Set_union, !elem_of_Set_initialize, elem_of_app.
  tauto.
Qed.

Lemma LB_arcs (i : LBInput) (a b : string) :
  (a, b) ∈ DARPModelLB.A (lb_model_of i)
  ↔ a ∈ DARPModelLB.J (lb_model_of i) ∧ b ∈ DARPModelLB.J (lb_model_of i)
    ∧ a ≠ b ∧ a ≠ "0_end" ∧ b ≠ "0_start".
Proof. cbn [lb_model_of DARPModelLB.A DARPModelLB.J]. apply elem_of_build_A. Qed.

Lemma LB_arc_from_start (i : LBInput) (j : string) :
  j ∈ in_P i ++ in_D i → j ≠ "0_start" →
  ("0_start", j) ∈ DARPModelLB.A (lb_model_of i).
Proof.
  intros Hj Hne. apply LB_arcs. rewrite !LB_nodes. split_and!; auto.
Qed.

Section LBRules.
Context (i : LBInput).

Lemma LB_visit_once_family :
  Constraint (DARPModelLB.J_minus_depot (lb_components_of i))
             (DARPModelLB.visit_once_rule (lb_components_of i))
  = if decide (DARPModelLB.start_node ∈ in_P i ++ in_D i)
    then Raise (ValueError_in "visit_once")
    else Ok (DARPModelLB.J_minus_depot (lb_components_of i)
            ≫= entries_of (DARPModelLB.visit_once_rule (lb_components_of i))).
Proof.
  destruct (Constraint_cases (DARPModelLB.J_minus_depot (lb_components_of i))
              (DARPModelLB.visit_once_rule (lb_components_of i))
              (ValueError_in "visit_once"))
    as [[Hall ->]|[(k & Hk & Hr) ->]].
  - intros j Hj. unfold DARPModelLB.visit_once_rule.
    destruct (length _); [by right|left; by eexists].
  - destruct (decide _) as [Hs|]; [|done].
    destruct (Hall DARPModelLB.start_node) as [r Hr]; [by apply (LB_customer_nodes i)|].
    unfold DARPModelLB.visit_once_rule in Hr. rewrite filter_none in Hr; [done|].
    intros a _ Ha. apply (LB_arcs i) in Ha. tauto.
  - destruct (decide _) as [|Hs]; [done|]. exfalso.
    apply (LB_customer_nodes i) in Hk.
    unfold DARPModelLB.visit_once_rule in Hr.
    rewrite rule_returns_some in Hr; [done|].
    apply (length_filter_pos _ _ "0_start").
    + apply (LB_nodes i). by left.
    + apply LB_arc_from_start; [done|]. by intros ->.
Qed.

Lemma LB_leave_once_family :
  Constraint (DARPModelLB.J_minus_depot (lb_components_of i))
             (DARPModelLB.leave_once_rule (lb_components_of i))
  = if decide (DARPModelLB.end_node ∈ in_P i ++ in_D i)
    then Raise (ValueError_in "leave_once")
    else Ok (DARPModelLB.J_minus_depot (lb_components_of i)
            ≫= entries_of (DARPModelLB.leave_once_rule (lb_components_of i))).
Proof.
  destruct (Constraint_cases (DARPModelLB.J_minus_depot (lb_components_of i))
              (DARPModelLB.leave_once_rule (lb_components_of i))
              (ValueError_in "leave_once"))
    as [[Hall ->]|[(k & Hk & Hr) ->]].
  - intros j Hj. unfold DARPModelLB.leave_once_rule.
    destruct (length _); [by right|left; by eexists].
  - destruct (decide _) as [Hs|]; [|done].
    destruct (Hall DARPModelLB.end_node) as [r Hr]; [by apply (LB_customer_nodes i)|].
    unfold DARPModelLB.leave_once_rule in Hr. rewrite filter_none in Hr; [done|].
    intros a _ Ha. apply (LB_arcs i) in Ha. tauto.
  - destruct (decide _) as [|Hs]; [done|]. exfalso.
    apply (LB_customer_nodes i) in Hk.
    unfold DARPModelLB.leave_once_rule in Hr.
    rewrite rule_returns_some in Hr; [done|].
    apply (length_filter_pos _ _ "0_end").
    + apply (LB_nodes i). by right; right.
    + apply (LB_arcs i). rewrite !LB_nodes. split_and!; auto.
      all: by intros ->.
Qed.

Lemma LB_fleet_limit_rule_outcome :
  DARPModelLB.start_node ∉ in_P i ++ in_D i →
  DARPModelLB.fleet_limit_rule (lb_components_of i)
  = if decide (in_P i = [])
    then Raise (ValueError_in "fleet_limit")
    else Ok (Some (λ v, DARPModelLB.fleet_limit (lb_components_of i) v)).
Proof.
  intros Hs. unfold DARPModelLB.fleet_limit_rule.
  destruct (decide (in_P i = [])) as [HP|HP].
  - cbn [lb_components_of DARPModelLB.P]. by rewrite HP.
  - apply rule_returns_some.
    assert (∃ j, j ∈ in_P i) as [j Hj].
    { destruct (in_P i) as [|j rest]; [done|]. exists j. left. }
    apply (length_filter_pos _ _ j).
    + cbn [lb_components_of DARPModelLB.P]. by apply elem_of_Set_initialize.
    + apply LB_arc_from_start.
      * apply elem_of_app. by left.
      * intros ->. apply Hs, elem_of_app. by left.
Qed.

Lemma LB_precedence_pairing_rule_outcome (idx : nat) (S_tuple : list string) :
  DARPModelLB.S_Sets (lb_model_of i) !! idx = Some S_tuple →
  DARPModelLB.precedence_pairing_rule (lb_model_of i) idx
  = Ok (Some (λ v, Le (sum (map (DARPModelLB.x_val v)
                                (DARPModelLB.arcs_in (lb_model_of i) S_tuple)))
                      (inject_Z (Z.of_nat (length S_tuple) - 2)))).
Proof.
  intros HS. unfold DARPModelLB.precedence_pairing_rule. rewrite HS. cbv zeta.
  apply rule_returns_some.
  cbn [lb_model_of DARPModelLB.S_Sets] in HS.
  apply list_elem_of_lookup_2, elem_of_s_sets_of in HS
    as (sub & Hsub & _ & (r & Hr & Hd & _)%has_delivery_without_pickup_spec & ->).
  assert (delivery_name r ∈ in_P i ++ in_D i) as Hnode.
  { apply elem_of_union in Hd as [Hd%elem_of_singleton|Hd%elem_of_list_to_set].
    - by apply delivery_name_not_start in Hd.
    - by apply (sublist_subseteq _ _ Hsub). }
  assert (("0_start", delivery_name r)
            ∈ DARPModelLB.arcs_in (lb_model_of i)
                (elements ({[DARPModelLB.start_node]} ∪ list_to_set sub : gset string)))
    as Hin.
  { apply elem_of_arcs_in. split_and!.
    - apply LB_arc_from_start; [done|apply delivery_name_not_start].
    - apply elem_of_elements, elem_of_union_l. by apply elem_of_singleton.
    - by apply elem_of_elements. }
  destruct (DARPModelLB.arcs_in _ _); [by apply elem_of_nil in Hin|simpl; lia].
Qed.

Lemma LB_precedence_pairing_family :
  Constraint (DARPModelLB.S_Indices (lb_model_of i))
             (DARPModelLB.precedence_pairing_rule (lb_model_of i))
  = Ok (DARPModelLB.S_Indices (lb_model_of i)
          ≫= entries_of (DARPModelLB.precedence_pairing_rule (lb_model_of i))).
Proof.
  apply Constraint_total. intros idx Hidx%elem_of_seq.
  destruct (lookup_lt_is_Some_2 (DARPModelLB.S_Sets (lb_model_of i)) idx)
    as [S_tuple HS]; [cbn [lb_model_of DARPModelLB.S_Sets]; lia|].
  rewrite (LB_precedence_pairing_rule_outcome idx S_tuple HS). by eexists.
Qed.

Lemma LB_time_consistency_family :
  Constraint (DARPModelLB.A (lb_model_of i))
             (DARPModelLB.time_consistency_rule (lb_model_of i))
  = Ok (DARPModelLB.A (lb_model_of i)
            ≫= entries_of (DARPModelLB.time_consistency_rule (lb_model_of i))).
Proof.
  apply Constraint_total. intros [a b] Hab.
  pose proof Hab as (Ha & Hb & _)%LB_arcs.
  unfold DARPModelLB.time_consistency_rule.
  cbn [lb_model_of DARPModelLB.B DARPModelLB.x] in *.
  rewrite !Var_getitem_declared by done. by eexists.
Qed.

Lemma LB_load_consistency_family :
  Constraint (DARPModelLB.A (lb_model_of i))
             (DARPModelLB.load_consistency_rule (lb_model_of i))
  = Ok (DARPModelLB.A (lb_model_of i)
            ≫= entries_of (DARPModelLB.load_consistency_rule (lb_model_of i))).
Proof.
  apply Constraint_total. intros [a b] Hab.
  pose proof Hab as (Ha & Hb & _)%LB_arcs.
  unfold DARPModelLB.load_consistency_rule.
  cbn [lb_model_of DARPModelLB.Qv DARPModelLB.x] in *.
  rewrite !Var_getitem_declared by done. by eexists.
Qed.

Lemma LB_service_windows_family :
  Constraint (DARPModelLB.J (lb_model_of i))
             (DARPModelLB.service_windows_rule (lb_model_of i))
  = Ok (DARPModelLB.J (lb_model_of i)
            ≫= entries_of (DARPModelLB.service_windows_rule (lb_model_of i))).
Proof.
  apply Constraint_total. intros j Hj.
  unfold DARPModelLB.service_windows_rule. cbn [lb_model_of DARPModelLB.B] in *.
  rewrite Var_getitem_declared by done. by eexists.
Qed.

Lemma LB_capacity_bound_family :
  Constraint (DARPModelLB.J (lb_model_of i))
             (DARPModelLB.capacity_bound_rule (lb_model_of i))
  = Ok (DARPModelLB.J (lb_model_of i)
            ≫= entries_of (DARPModelLB.capacity_bound_rule (lb_model_of i))).
Proof.
  apply Constraint_total. intros j Hj.
  unfold DARPModelLB.capacity_bound_rule. cbn [lb_model_of DARPModelLB.Qv] in *.
  rewrite Var_getitem_declared by done. by eexists.
Qed.

Lemma LB_request_node (name : string) :
  name ≠ "0_start" → name ≠ "0_end" →
  name ∈ DARPModelLB.J (lb_model_of i) ↔ name ∈ in_P i ++ in_D i.
Proof. intros Hs He. rewrite LB_nodes. tauto. Qed.

Lemma LB_max_ride_duration_family :
  Constraint (DARPModelLB.Requests (lb_model_of i))
             (DARPModelLB.max_ride_duration_rule (lb_model_of i))
  = if decide (Forall (λ r, delivery_name r ∈ in_P i ++ in_D i
                            ∧ pickup_name r ∈ in_P i ++ in_D i)
                      (in_Requests i))
    then Ok (DARPModelLB.Requests (lb_model_of i)
               ≫= entries_of (DARPModelLB.max_ride_duration_rule (lb_model_of i)))
    else Raise (KeyError_in "B").
Proof.
  assert (∀ r, DARPModelLB.max_ride_duration_rule (lb_model_of i) r
               = if decide (delivery_name r ∈ in_P i ++ in_D i
                            ∧ pickup_name r ∈ in_P i ++ in_D i)
                 then Ok (Some (λ v, DARPModelLB.max_ride_duration (lb_model_of i) v r))
                 else Raise (KeyError_in "B")) as Hrule.
  { intros r. unfold DARPModelLB.max_ride_duration_rule. cbv zeta.
    cbn [lb_model_of DARPModelLB.B]. fold (DARPModelLB.J (lb_model_of i)).
    pose proof (LB_request_node (delivery_name r) (append_dash_not_start _)
                  (append_dash_not_end _)) as Hdn.
    pose proof (LB_request_node (pickup_name r) (append_plus_not_start _)
                  (append_plus_not_end _)) as Hpn.
    destruct (decide (delivery_name r ∈ in_P i ++ in_D i)) as [Hd|Hd].
    - rewrite (Var_getitem_declared "B" _ (delivery_name r)) by by apply Hdn.
      destruct (decide (pickup_name r ∈ in_P i ++ in_D i)) as [Hp|Hp].
      + rewrite (Var_getitem_declared "B" _ (pickup_name r)) by by apply Hpn.
        by rewrite decide_True.
      + rewrite (Var_getitem_undeclared "B" _ (pickup_name r)) by by rewrite Hpn.
        by rewrite decide_False by tauto.
    - rewrite (Var_getitem_undeclared "B" _ (delivery_name r)) by by rewrite Hdn.
      by rewrite decide_False by tauto. }
  destruct (Constraint_cases (DARPModelLB.Requests (lb_model_of i))
              (DARPModelLB.max_ride_duration_rule (lb_model_of i)) (KeyError_in "B"))
    as [[Hall ->]|[(k & Hk & Hr) ->]].
  - intros r _. rewrite Hrule. destruct (decide _); [left; by eexists|by right].
  - rewrite decide_True; [done|]. apply Forall_forall. intros r Hr.
    destruct (Hall r) as [res Hres]; [by apply elem_of_Set_initialize|].
    rewrite Hrule in Hres. by destruct (decide _).
  - rewrite decide_False; [done|]. intros Hall.
    cbn [lb_model_of DARPModelLB.Requests] in Hk.
    apply (proj1 (elem_of_Set_initialize _ _)) in Hk. rewrite Forall_forall in Hall.
    rewrite Hrule, decide_True in Hr by by apply Hall. done.
Qed.

End LBRules.

(** The outcome of [_build_model] on a well-typed bundle. *)
Lemma LB_build_model_outcome (d : gmap string pyvalue) (i : LBInput)
    (mdl : DARPModelLB.ConcreteModel) :
  lb_data_has d i →
  DARPModelLB._build_model (DARPModelLB.mkSelf d mdl)
  = match lb_construction_error i with
    | None => (DARPModelLB.mkSelf d (DARPModelLB.Built (lb_model_of i)), Ok tt)
    | Some e => (DARPModelLB.mkSelf d mdl, Raise e)
    end.
Proof.
  intros Hd. unfold DARPModelLB._build_model.
  unfold mbind, M_bind, mbind_M, get, lift, put. cbn [DARPModelLB.data].
  rewrite (LB_declare_components d i Hd), LB_visit_once_family.
  unfold lb_construction_error. cbv zeta.
  destruct (decide (DARPModelLB.start_node ∈ _)) as [|Hs]; [done|].
  rewrite LB_leave_once_family.
  destruct (decide (DARPModelLB.end_node ∈ _)) as [|He]; [done|].
  rewrite (LB_fleet_limit_rule_outcome i Hs).
  destruct (decide (in_P i = [])) as [|HP]; [done|].
  rewrite (LB_generate_s_sets d i mdl Hd), lb_model_of_components.
  rewrite LB_precedence_pairing_family, LB_time_consistency_family,
    LB_load_consistency_family, LB_service_windows_family, LB_capacity_bound_family,
    LB_max_ride_duration_family.
  by destruct (decide (Forall _ _)).
Qed.

Lemma LB_init_outcome (d : gmap string pyvalue) (i : LBInput) :
  lb_data_has d i →
  DARPModelLB.__init__ d
  = match lb_construction_error i with
    | None => (DARPModelLB.mkSelf d (DARPModelLB.Built (lb_model_of i)), Ok tt)
    | Some e => (DARPModelLB.mkSelf d DARPModelLB.Fresh, Raise e)
    end.
Proof.
  intros Hd. rewrite LB_init_unfold, (LB_required_keys_present d i Hd).
  by apply LB_build_model_outcome.
Qed.

(** When the constructor returns, the object holds the model of the
    bundle. *)
Lemma LB_init_ok (d : gmap string pyvalue) (i : LBInput) :
  lb_data_has d i →
  (DARPModelLB.__init__ d).2 = Ok tt →
  DARPModelLB.__init__ d
  = (DARPModelLB.mkSelf d (DARPModelLB.Built (lb_model_of i)), Ok tt).
Proof.
  intros Hd. rewrite (LB_init_outcome d i Hd).
  by destruct (lb_construction_error i).
Qed.

Lemma LB_init_returns (d : gmap string pyvalue) (i : LBInput) (self : DARPModelLB.Self) :
  lb_data_has d i →
  DARPModelLB.__init__ d = (self, Ok tt) →
  self = DARPModelLB.mkSelf d (DARPModelLB.Built (lb_model_of i)).
Proof.
  intros Hd Hinit. rewrite (LB_init_ok d i Hd) in Hinit by (by rewrite Hinit).
  by injection Hinit as <-.
Qed.

Lemma example_data_has : lb_data_has Instances.get_example_instance example_input.
Proof. repeat split; reflexivity. Qed.

Lemma example_init :
  DARPModelLB.__init__ Instances.get_example_instance
  = (DARPModelLB.mkSelf Instances.get_example_instance
       (DARPModelLB.Built (lb_model_of example_input)), Ok tt).
Proof.
  rewrite (LB_init_outcome _ _ example_data_has).
  assert (lb_construction_error example_input = None) as ->; [|done].
  vm_compute. reflexivity.
Qed.

Lemma example_constructed :
  (DARPModelLB.__init__ Instances.get_example_instance).2 = Ok tt.
Proof. by rewrite example_init. Qed.

(** C7. In the model that the constructor returns, the node universe is
    the start depot, the pickups, the deliveries and the end depot; the arc
    set holds exactly the ordered pairs of distinct nodes that do not leave
    the end depot and do not enter the start depot. *)
Theorem LB_node_and_arc_sets (d : gmap string pyvalue) (i : LBInput)
    (self : DARPModelLB.Self) :
  lb_data_has d i →
  DARPModelLB.__init__ d = (self, Ok tt) →
  ∃ m, self = DARPModelLB.mkSelf d (DARPModelLB.Built m)
    ∧ (∀ n, n ∈ DARPModelLB.J m
            ↔ n = "0_start" ∨ n ∈ in_P i ∨ n ∈ in_D i ∨ n = "0_end")
    ∧ (∀ a b, (a, b) ∈ DARPModelLB.A m
            ↔ a ∈ DARPModelLB.J m ∧ b ∈ DARPModelLB.J m
              ∧ a ≠ b ∧ a ≠ "0_end" ∧ b ≠ "0_start")
    ∧ (∀ a, (a, "0_start") ∉ DARPModelLB.A m)
    ∧ (∀ b, ("0_end", b) ∉ DARPModelLB.A m).
Proof.
  intros Hd Hinit. exists (lb_model_of i).
  split; [by apply (LB_init_returns d i self Hd)|].
  cbn [lb_model_of DARPModelLB.J DARPModelLB.A]. split_and!.
  - intros n. rewrite elem_of_build_J, elem_of_Set_union, !elem_of_Set_initialize.
    tauto.
  - intros a b. apply elem_of_build_A.
  - intros a Ha. apply elem_of_build_A in Ha. tauto.
  - intros b Hb. apply elem_of_build_A in Hb. tauto.
Qed.

Lemma LB_node_and_arc_sets_witness :
  ∃ m, DARPModelLB.__init__ Instances.get_example_instance
       = (DARPModelLB.mkSelf Instances.get_example_instance (DARPModelLB.Built m), Ok tt)
    ∧ (∀ n, n ∈ DARPModelLB.J m
            ↔ n = "0_start" ∨ n ∈ in_P example_input ∨ n ∈ in_D example_input
              ∨ n = "0_end")
    ∧ (∀ a b, (a, b) ∈ DARPModelLB.A m
            ↔ a ∈ DARPModelLB.J m ∧ b ∈ DARPModelLB.J m
              ∧ a ≠ b ∧ a ≠ "0_end" ∧ b ≠ "0_start")
    ∧ (∀ a, (a, "0_start") ∉ DARPModelLB.A m)
    ∧ (∀ b, ("0_end", b) ∉ DARPModelLB.A m).
Proof.
  destruct (LB_node_and_arc_sets Instances.get_example_instance example_input _
              example_data_has example_init) as (m & Hself & Hsets).
  exists m. split; [|exact Hsets]. rewrite example_init. by rewrite Hself.
Defined.

(** C3. In the model that the constructor returns, the generated subsets
    are exactly the sets made of customer nodes and the start depot that
    hold some request's delivery node but not its pickup node; each is
    generated once when the node lists of the data are duplicate-free; and
    for every generated subset [S] the rule of the pairing-and-precedence
    family returns one constraint, which bounds the sum of [x] over the
    arcs of [A] with both ends in [S] by [|S| - 2]. *)
Theorem LB_precedence_pairing_subsets (d : gmap string pyvalue) (i : LBInput)
    (self : DARPModelLB.Self) :
  lb_data_has d i →
  DARPModelLB.__init__ d = (self, Ok tt) →
  ∃ m, self = DARPModelLB.mkSelf d (DARPModelLB.Built m)
    ∧ (∀ S_set : gset string,
         S_set ∈ (list_to_set <$> DARPModelLB.S_Sets m : list (gset string))
         ↔ precedence_violating (in_Requests i) (in_P i) (in_D i) S_set)
    ∧ (NoDup (in_P i ++ in_D i) →
       NoDup (list_to_set <$> DARPModelLB.S_Sets m : list (gset string)))
    ∧ DARPModelLB.S_Indices m = seq 0 (length (DARPModelLB.S_Sets m))
    ∧ (∀ idx, idx ∈ DARPModelLB.S_Indices m →
         ∃ S_tuple arcs con,
           DARPModelLB.S_Sets m !! idx = Some S_tuple
           ∧ NoDup S_tuple
           ∧ NoDup arcs
           ∧ (∀ a b, (a, b) ∈ arcs
                     ↔ (a, b) ∈ DARPModelLB.A m ∧ a ∈ S_tuple ∧ b ∈ S_tuple)
           ∧ DARPModelLB.precedence_pairing_rule m idx = Ok (Some con)
           ∧ ∀ v, con v
                  = Le (sum (map (DARPModelLB.x_val v) arcs))
                       (inject_Z (Z.of_nat (size (list_to_set S_tuple : gset string)) - 2))
                  ∧ DARPModelLB.precedence_pairing m v idx = Ok (con v)).
Proof.
  intros Hd Hinit. exists (lb_model_of i).
  split; [by apply (LB_init_returns d i self Hd)|].
  assert (DARPModelLB.start_node ∉ in_P i ++ in_D i) as Hstart.
  { rewrite (LB_init_outcome d i Hd) in Hinit. unfold lb_construction_error in Hinit.
    cbv zeta in Hinit. by destruct (decide (DARPModelLB.start_node ∈ _)). }
  split_and!.
  - apply s_sets_of_precedence_violating.
  - intros Hnodup. cbn [lb_model_of DARPModelLB.S_Sets].
    apply NoDup_fmap_2_strong; [|by apply NoDup_s_sets_of].
    intros t1 t2 (s1 & _ & _ & _ & ->)%elem_of_s_sets_of
                 (s2 & _ & _ & _ & ->)%elem_of_s_sets_of.
    rewrite !list_to_set_elements_L. by intros ->.
  - done.
  - intros idx Hidx%elem_of_seq.
    destruct (lookup_lt_is_Some_2 (DARPModelLB.S_Sets (lb_model_of i)) idx)
      as [S_tuple HS]; [cbn [lb_model_of DARPModelLB.S_Sets]; lia|].
    assert (NoDup S_tuple) as HSnd.
    { apply list_elem_of_lookup_2 in HS.
      apply elem_of_s_sets_of in HS as (sub & _ & _ & _ & ->). apply NoDup_elements. }
    exists S_tuple, (DARPModelLB.arcs_in (lb_model_of i) S_tuple). eexists. split_and!.
    + done.
    + done.
    + by apply NoDup_arcs_in.
    + intros a b. apply elem_of_arcs_in.
    + by apply LB_precedence_pairing_rule_outcome.
    + intros v. rewrite size_list_to_set by done. split; [done|].
      unfold DARPModelLB.precedence_pairing. by rewrite HS.
Qed.

Lemma LB_precedence_pairing_subsets_witness :
  ∃ m, DARPModelLB.__init__ Instances.get_example_instance
       = (DARPModelLB.mkSelf Instances.get_example_instance (DARPModelLB.Built m), Ok tt)
    ∧ (∀ S_set : gset string,
         S_set ∈ (list_to_set <$> DARPModelLB.S_Sets m : list (gset string))
         ↔ precedence_violating (in_Requests example_input) (in_P example_input)
             (in_D example_input) S_set)
    ∧ NoDup (list_to_set <$> DARPModelLB.S_Sets m : list (gset string))
    ∧ DARPModelLB.S_Indices m = seq 0 (length (DARPModelLB.S_Sets m)).
Proof.
  destruct (LB_precedence_pairing_subsets Instances.get_example_instance example_input _
              example_data_has example_init)
    as (m & Hself & Hsets & Hnodup & Hidx & _).
  exists m. split_and!; [|done| |done].
  - rewrite example_init. by rewrite Hself.
  - apply Hnodup; by_compute.
Defined.

(** ** Construction of the LAEB model *)

(** No step of the construction loops: its pieces return or raise. *)
Lemma bind_returns {T U} (o : outcome T) (k : T → outcome U) :
  o ≠ Diverge → (∀ a, k a ≠ Diverge) → (o ≫= k) ≠ Diverge.
Proof. intros Ho Hk. destruct o as [a| |]; [apply Hk|done|done]. Qed.

Lemma str_getitem_returns (s : string) (k : nat) : str_getitem s k ≠ Diverge.
Proof. revert k. induction s as [|ch s IH]; intros [|k]; simpl; done. Qed.

Lemma atom_getitem_returns (a : atom) (k : nat) : atom_getitem a k ≠ Diverge.
Proof. destruct a; simpl; [apply str_getitem_returns|done]. Qed.

Lemma obj_getitem_returns (v : pyobj) (k : nat) : obj_getitem v k ≠ Diverge.
Proof.
  destruct v as [a|items]; simpl.
  - apply bind_returns; [apply atom_getitem_returns|done].
  - by destruct (items !! k).
Qed.

Lemma unpack2_returns (v : pyobj) : unpack2 v ≠ Diverge.
Proof.
  destruct v as [[s|z]|items]; simpl; [|done|].
  - destruct s as [|c1 [|c2 [|c3 s]]]; done.
  - destruct items as [|u [|w [|z items]]]; done.
Qed.

Lemma Var_getitem_returns {T} `{EqDecision T} (name : string) (v : Var T) (k : T) :
  Var_getitem name v k ≠ Diverge.
Proof. unfold Var_getitem. by destruct (decide _). Qed.

Lemma value_not_Diverge {T} `{EqDecision T} (name : string) (v : Var T) (k : T) :
  value name v k ≠ Diverge.
Proof. unfold value. destruct (decide _); [by destruct (values v k)|done]. Qed.

Lemma as_returns (key : string) (v : pyvalue) :
  as_num key v ≠ Diverge ∧ as_requests key v ≠ Diverge ∧ as_nodes key v ≠ Diverge
  ∧ as_node_table key v ≠ Diverge ∧ as_request_table key v ≠ Diverge
  ∧ as_events key v ≠ Diverge ∧ as_event_arcs key v ≠ Diverge
  ∧ as_event_arc_table key v ≠ Diverge ∧ as_matrix key v ≠ Diverge.
Proof. by destruct v. Qed.

Lemma Set_add_tuples_returns (name : string) (dimen : option nat) (items : list tuple)
    (acc : list pyobj) :
  Set_add_tuples name dimen items acc ≠ Diverge.
Proof.
  revert dimen acc. induction items as [|t items IH]; intros dimen acc; simpl; [done|].
  destruct (decide _); [|done]. destruct (decide _); apply IH.
Qed.

Lemma select_returns (pick : pyobj → outcome bool) (members : list pyobj) :
  (∀ a, pick a ≠ Diverge) → DARPModelLAEB.select pick members ≠ Diverge.
Proof.
  intros Hpick. induction members as [|a members IH]; simpl; [done|].
  apply bind_returns; [apply Hpick|intros b].
  apply bind_returns; [apply IH|done].
Qed.

Lemma events_by_request_returns (name : Z → string) (members : list pyobj)
    (requests : list Z) :
  DARPModelLAEB.events_by_request name members requests ≠ Diverge.
Proof.
  induction requests as [|r requests IH]; simpl; [done|].
  apply bind_returns; [|intros evs; apply bind_returns; [apply IH|done]].
  apply select_returns. intros v.
  apply bind_returns; [apply obj_getitem_returns|done].
Qed.

Lemma declare_components_returns (d : gmap string pyvalue) :
  DARPModelLAEB.declare_components d ≠ Diverge.
Proof.
  unfold DARPModelLAEB.declare_components, Set_of_tuples.
  repeat first
    [ apply bind_returns; [|intros ?]
    | apply Set_add_tuples_returns
    | apply events_by_request_returns
    | apply as_returns
    | done
    | unfold getitem; destruct (d !! _) ].
Qed.

Lemma flow_terms_returns (m : DARPModelLAEB.Model) (pick : atom * atom → bool)
    (members : list pyobj) :
  DARPModelLAEB.flow_terms m pick members ≠ Diverge.
Proof.
  induction members as [|a members IH]; simpl; [done|].
  apply bind_returns; [apply unpack2_returns|intros uw].
  destruct (pick uw); [|done].
  apply bind_returns; [apply Var_getitem_returns|intros _].
  apply bind_returns; [apply IH|done].
Qed.

Lemma x_terms_returns (m : DARPModelLAEB.Model) (arcs : list pyobj) :
  DARPModelLAEB.x_terms m arcs ≠ Diverge.
Proof.
  induction arcs as [|a arcs IH]; simpl; [done|].
  apply bind_returns; [apply Var_getitem_returns|done].
Qed.

Lemma rule_returns_returns {V} (component : string) (n : nat) (rel : V → relexpr) :
  rule_returns component n rel ≠ Diverge.
Proof. by destruct n. Qed.

Lemma flow_conservation_returns (m : DARPModelLAEB.Model) (index : pyobj) :
  DARPModelLAEB.flow_conservation m index ≠ Diverge.
Proof.
  unfold DARPModelLAEB.flow_conservation.
  apply bind_returns.
  - destruct index as [a|[|a [|b items]]]; done.
  - intros v. destruct (py_eq _ _); [done|].
    apply bind_returns; [apply flow_terms_returns|intros in_arcs].
    apply bind_returns; [apply flow_terms_returns|intros out_arcs].
    apply rule_returns_returns.
Qed.

Lemma visit_pickups_returns (m : DARPModelLAEB.Model) (i : Z) :
  DARPModelLAEB.visit_pickups m i ≠ Diverge.
Proof.
  unfold DARPModelLAEB.visit_pickups.
  apply bind_returns.
  - apply select_returns. intros a.
    apply bind_returns; [apply obj_getitem_returns|intros a1].
    by destruct (DARPModelLAEB.V_pickup m !! i).
  - intros arcs. apply bind_returns; [apply x_terms_returns|intros _].
    apply rule_returns_returns.
Qed.

Lemma Constraint_returns {K V} (index : list K)
    (rule : K → outcome (option (V → relexpr))) :
  (∀ k, rule k ≠ Diverge) → Constraint index rule ≠ Diverge.
Proof.
  intros Hrule. induction index as [|k index IH]; simpl; [done|].
  apply bind_returns; [apply Hrule|intros r].
  apply bind_returns; [apply IH|done].
Qed.

Lemma select_never (pick : pyobj → outcome bool) (members : list pyobj) :
  (∀ a, pick a = Ok false ∨ ∃ e, pick a = Raise e) →
  DARPModelLAEB.select pick members = Ok []
  ∨ ∃ e, DARPModelLAEB.select pick members = Raise e.
Proof.
  intros Hpick. induction members as [|a members IH]; [by left|].
  cbn [DARPModelLAEB.select].
  destruct (Hpick a) as [->|[e ->]]; [|right; by exists e].
  destruct IH as [->|[e ->]]; [by left|right; by exists e].
Qed.

(** A component of a member is a string or an integer, never the tuple
    [('0',)]: the test [a[0] == ('0',)] selects no member. *)
Lemma select_depot_arcs (members : list pyobj) :
  DARPModelLAEB.select
    (λ a, a0 ← obj_getitem a 0; Ok (py_eq (Scalar a0) DARPModelLAEB.depot_event)) members
  = Ok []
  ∨ ∃ e, DARPModelLAEB.select
           (λ a, a0 ← obj_getitem a 0; Ok (py_eq (Scalar a0) DARPModelLAEB.depot_event))
           members
         = Raise e.
Proof.
  apply select_never. intros a.
  destruct (obj_getitem a 0) as [a0|e|] eqn:Ha0.
  - by left.
  - right. by exists e.
  - by apply obj_getitem_returns in Ha0.
Qed.

(** The rule [fleet_limit] sums over no arc, so it returns the Boolean
    [0 <= K], which Pyomo refuses. *)
Lemma LAEB_fleet_limit_raises (m : DARPModelLAEB.Model) :
  ∃ e, DARPModelLAEB.fleet_limit m = Raise e.
Proof.
  unfold DARPModelLAEB.fleet_limit.
  destruct (select_depot_arcs (DARPModelLAEB.A m)) as [->|[e ->]].
  - by exists (ValueError_in "fleet_limit").
  - by exists e.
Qed.

(** Construction never gets past the declaration of [fleet_limit]. *)
Lemma LAEB_build_model_raises (d : gmap string pyvalue)
    (mdl : DARPModelLAEB.ConcreteModel) :
  ∃ e, DARPModelLAEB._build_model (DARPModelLAEB.mkSelf d mdl)
       = (DARPModelLAEB.mkSelf d mdl, Raise e).
Proof.
  unfold DARPModelLAEB._build_model.
  unfold mbind, M_bind, mbind_M, get, lift, put. cbn [DARPModelLAEB.data].
  destruct (DARPModelLAEB.declare_components d) as [m|e|] eqn:Hm;
    [|by exists e|by apply declare_components_returns in Hm].
  destruct (Constraint (DARPModelLAEB.V m) _) as [cs1|e|] eqn:H1; [|by exists e|].
  2: { apply Constraint_returns in H1; [done|apply flow_conservation_returns]. }
  destruct (Constraint (DARPModelLAEB.R m) _) as [cs2|e|] eqn:H2; [|by exists e|].
  2: { apply Constraint_returns in H2; [done|apply visit_pickups_returns]. }
  destruct (LAEB_fleet_limit_raises m) as [e ->]. by exists e.
Qed.

Lemma LAEB_init_raises (d : gmap string pyvalue) :
  ∃ e, DARPModelLAEB.__init__ d
       = (DARPModelLAEB.mkSelf d DARPModelLAEB.Fresh, Raise e).
Proof.
  rewrite LAEB_init_unfold.
  destruct (check_keys _ _ _) as [[]|e|] eqn:Hck.
  - apply LAEB_build_model_raises.
  - by exists e.
  - exfalso. revert Hck. generalize DARPModelLAEB.required_keys.
    intros keys. induction keys as [|k keys IH]; simpl; [done|].
    by destruct (d !! k).
Qed.

(** C5, on the code. The constructor does not get as far as the rule
    [time_consistency], so no time-consistency constraint is emitted, not
    even for a pair of locations that event-arcs connect. On [test_data]
    of [laeb_example.py] it stops at the set [V], whose events have one
    and two components; when every event is reduced to its location it
    stops at [visit_pickups], and without requests at [fleet_limit], the
    rule declared just before [time_consistency]. *)
Theorem LAEB_time_consistency_not_reached :
  DARPModelLAEB.__init__ Instances.test_data
  = (DARPModelLAEB.mkSelf Instances.test_data DARPModelLAEB.Fresh,
     Raise (ValueError_in "V"))
  ∧ DARPModelLAEB.__init__ location_data
    = (DARPModelLAEB.mkSelf location_data DARPModelLAEB.Fresh,
       Raise (ValueError_in "visit_pickups"))
  ∧ DARPModelLAEB.__init__ (<["Requests" := VRequests []]> location_data)
    = (DARPModelLAEB.mkSelf (<["Requests" := VRequests []]> location_data)
         DARPModelLAEB.Fresh,
       Raise (ValueError_in "fleet_limit")).
Proof.
  split_and!.
  - destruct (LAEB_init_raises Instances.test_data) as [e He].
    rewrite He. f_equal.
    assert ((DARPModelLAEB.__init__ Instances.test_data).2 = Raise (ValueError_in "V"))
      as Hc by (vm_compute; reflexivity).
    rewrite He in Hc. exact Hc.
  - destruct (LAEB_init_raises location_data) as [e He].
    rewrite He. f_equal.
    assert ((DARPModelLAEB.__init__ location_data).2
            = Raise (ValueError_in "visit_pickups"))
      as Hc by (vm_compute; reflexivity).
    rewrite He in Hc. exact Hc.
  - destruct (LAEB_init_raises (<["Requests" := VRequests []]> location_data)) as [e He].
    rewrite He. f_equal.
    assert ((DARPModelLAEB.__init__ (<["Requests" := VRequests []]> location_data)).2
            = Raise (ValueError_in "fleet_limit"))
      as Hc by (vm_compute; reflexivity).
    rewrite He in Hc. exact Hc.
Qed.


(** ** Route reconstruction leaves the object alone *)

Lemma LB_get_route_summary_self (fuel : nat) (self : DARPModelLB.Self) :
  (DARPModelLB.get_route_summary fuel self).1 = self.
Proof.
  unfold DARPModelLB.get_route_summary.
  unfold mbind, M_bind, mbind_M, get, lift, mret, M_ret. cbn [fst snd].
  destruct (DARPModelLB.model self) as [|m]; [done|].
  destruct (DARPModelLB.collect_routes _ _ _) as [routes| |]; try done.
  destruct (DARPModelLB.group_routes _ _ _ _) as [summary| |]; done.
Qed.

Lemma LAEB_get_route_summary_self (fuel : nat) (self : DARPModelLAEB.Self) :
  (DARPModelLAEB.get_route_summary fuel self).1 = self.
Proof.
  unfold DARPModelLAEB.get_route_summary.
  unfold mbind, M_bind, mbind_M, get, lift, mret, M_ret. cbn [fst snd].
  destruct (DARPModelLAEB.model self) as [|m]; [done|].
  destruct (DARPModelLAEB.active_arcs_of _ _) as [active| |]; try done.
  destruct (DARPModelLAEB.starts_of _) as [starts| |]; try done.
  destruct (DARPModelLAEB.reconstruct _ _ _ _ _) as [routes| |]; done.
Qed.

(** C9. Running [get_route_summary] twice in a row on the same object
    gives the same result both times, and the object (its data and the
    values of [x], [B] and [Q]) is unchanged by either call; this holds
    for both formulations. *)
Theorem get_route_summary_idempotent (fuel : nat) :
  (∀ self : DARPModelLB.Self,
     let first := DARPModelLB.get_route_summary fuel self in
     let second := DARPModelLB.get_route_summary fuel first.1 in
     first.1 = self ∧ second.1 = self ∧ second.2 = first.2)
  ∧ (∀ self : DARPModelLAEB.Self,
     let first := DARPModelLAEB.get_route_summary fuel self in
     let second := DARPModelLAEB.get_route_summary fuel first.1 in
     first.1 = self ∧ second.1 = self ∧ second.2 = first.2).
Proof.
  split; intros self first second; subst first second.
  - rewrite !LB_get_route_summary_self. done.
  - rewrite !LAEB_get_route_summary_self. done.
Qed.

(** ** Route reconstruction before a solve *)

Lemma LB_build_model_has_x (self self' : DARPModelLB.Self) :
  DARPModelLB._build_model self = (self', Ok tt) →
  ∃ m, DARPModelLB.model self' = DARPModelLB.Built m.
Proof.
  unfold DARPModelLB._build_model, DARPModelLB._generate_s_sets.
  unfold mbind, M_bind, mbind_M, get, lift, put. cbn [fst snd].
  repeat (match goal with
          | |- context [match ?o with Ok _ => _ | Raise _ => _ | Diverge => _ end] =>
              destruct o; try (intros [= <-]; fail); try discriminate
          end).
  intros [= <-]. eauto.
Qed.

Lemma LB_init_has_x (d : gmap string pyvalue) (self : DARPModelLB.Self) :
  DARPModelLB.__init__ d = (self, Ok tt) →
  ∃ m, DARPModelLB.model self = DARPModelLB.Built m.
Proof.
  rewrite LB_init_unfold. destruct (check_keys _ _ _); try discriminate.
  apply LB_build_model_has_x.
Qed.

Lemma LB_guard_is_dead (d : gmap string pyvalue) (self : DARPModelLB.Self)
    (fuel : nat) (msg : string) :
  DARPModelLB.__init__ d = (self, Ok tt) →
  (DARPModelLB.get_route_summary fuel self).2 ≠ Ok (inl msg).
Proof.
  intros [m Hm]%LB_init_has_x. unfold DARPModelLB.get_route_summary.
  unfold mbind, M_bind, mbind_M, get, lift, mret, M_ret. cbn [fst snd]. rewrite Hm.
  destruct (DARPModelLB.collect_routes _ _ _) as [routes| |]; try done.
  destruct (DARPModelLB.group_routes _ _ _ _) as [summary| |]; done.
Qed.

(** C8, on the code. The LB model constructed from the repository's
    example instance and not yet solved does not answer
    [get_route_summary] with its "not solved" message: the guard tests for
    the attribute [x], which construction always creates, so the method
    goes on to read the value of the first variable [x[i, j]], which has
    none, and the [ValueError] of [value] reaches the caller. *)
Theorem get_route_summary_before_solve (fuel : nat) :
  (DARPModelLB.__init__ Instances.get_example_instance).2 = Ok tt
  ∧ (DARPModelLB.get_route_summary fuel
       (DARPModelLB.__init__ Instances.get_example_instance).1).2
    = Raise (ValueError_in "x")
  ∧ ∀ msg,
      (DARPModelLB.get_route_summary fuel
         (DARPModelLB.__init__ Instances.get_example_instance).1).2
      ≠ Ok (inl msg).
Proof.
  assert ((DARPModelLB.get_route_summary fuel
             (DARPModelLB.__init__ Instances.get_example_instance).1).2
          = Raise (ValueError_in "x")) as Hres.
  { rewrite example_init. vm_compute. reflexivity. }
  split_and!; [apply example_constructed|exact Hres|].
  intros msg. by rewrite Hres.
Qed.

(** ** The successor walk of the LB reconstruction *)

Lemma value_loaded {T} `{EqDecision T} (name : string) (v : Var T) (sol : T → Q) (k : T) :
  k ∈ index v → value name (Var_load v sol) k = Ok (sol k).
Proof.
  intros Hk. unfold value, Var_load. cbn [index values]. by rewrite decide_True.
Qed.

Lemma LB_collect_routes_loaded (m : DARPModelLB.Model) (sol : DARPModelLB.assignment)
    (keys : list arc) (acc : list DARPModelLB.leg) :
  (∀ a, a ∈ keys →
        a ∈ index (DARPModelLB.x m) ∧ a.1 ∈ index (DARPModelLB.B m)
        ∧ a.2 ∈ index (DARPModelLB.B m) ∧ a.2 ∈ index (DARPModelLB.Qv m)) →
  DARPModelLB.collect_routes (DARPModelLB.load_solution sol m) keys acc
  = Ok (acc ++ map (leg_of sol)
                   (filter (λ a, active (DARPModelLB.x_val sol a)) keys)).
Proof.
  revert acc. induction keys as [|[i j] keys IH]; intros acc Hkeys.
  - simpl. by rewrite app_nil_r.
  - destruct (Hkeys (i, j)) as (Hx & Hi & Hj & HQ); [left|].
    cbn [DARPModelLB.collect_routes DARPModelLB.load_solution DARPModelLB.x
         DARPModelLB.B DARPModelLB.Qv].
    rewrite (value_loaded "x") by done. cbn [mbind outcome_bind obind].
    rewrite filter_cons. fold (active (DARPModelLB.x_val sol (i, j))).
    destruct (active (DARPModelLB.x_val sol (i, j))) eqn:Hact; simpl Is_true.
    + rewrite decide_True by exact I.
      rewrite !(value_loaded "B"), (value_loaded "Q") by done.
      cbn [mbind outcome_bind obind].
      pose proof (IH (acc ++ [DARPModelLB.mkLeg i j (DARPModelLB.B_val sol i)
                                (DARPModelLB.B_val sol j) (DARPModelLB.Q_val sol j)])) as IH'.
      cbn [DARPModelLB.load_solution DARPModelLB.x DARPModelLB.B DARPModelLB.Qv] in IH'.
      rewrite IH' by (intros; apply Hkeys; by right).
      by rewrite <- app_assoc.
    + rewrite decide_False by (intros []).
      pose proof (IH acc) as IH'.
      cbn [DARPModelLB.load_solution DARPModelLB.x DARPModelLB.B DARPModelLB.Qv] in IH'.
      by rewrite IH' by (intros; apply Hkeys; by right).
Qed.

Lemma next_leg_Some (routes : list DARPModelLB.leg) (c : string) (nl : DARPModelLB.leg) :
  DARPModelLB.next_leg routes c = Some nl → nl ∈ routes ∧ DARPModelLB.from nl = c.
Proof.
  unfold DARPModelLB.next_leg. intros [Hin Hc]%find_some. split.
  - by apply list_elem_of_In.
  - by apply bool_decide_eq_true in Hc.
Qed.

Lemma LB_walk_follow (routes : list DARPModelLB.leg) (c : string)
    (legs : list DARPModelLB.leg) (n : string) :
  lb_walk_to routes c legs n →
  n = DARPModelLB.end_node ∨ DARPModelLB.next_leg routes n = None →
  ∀ fuel path times loads, length legs < fuel →
  DARPModelLB.walk fuel routes c path times loads
  = Some (path ++ map DARPModelLB.to legs,
          times ++ map DARPModelLB.arrive_time legs,
          loads ++ map DARPModelLB.load_after legs).
Proof.
  induction 1 as [c|c nl legs n Hc Hnl Hwalk IH]; intros Hn fuel path times loads Hfuel.
  - destruct fuel as [|fuel]; [simpl in Hfuel; lia|]. simpl. rewrite !app_nil_r.
    destruct (decide (c ≠ DARPModelLB.end_node)) as [Hne|_]; [|done].
    destruct Hn as [-> | ->]; done.
  - destruct fuel as [|fuel]; [simpl in Hfuel; lia|]. cbn [DARPModelLB.walk].
    rewrite decide_True, Hnl by done.
    rewrite IH by (simpl in Hfuel; auto with lia).
    cbn [map]. by rewrite <- !app_assoc.
Qed.

Lemma LB_walk_within_fuel (routes : list DARPModelLB.leg) (c : string)
    (legs : list DARPModelLB.leg) (n : string) :
  lb_walk_to routes c legs n →
  ∀ fuel path times loads,
    is_Some (DARPModelLB.walk fuel routes c path times loads) → length legs < fuel.
Proof.
  induction 1 as [c|c nl legs n Hc Hnl Hwalk IH]; intros fuel path times loads Hsome.
  - destruct fuel; [by destruct Hsome|simpl; lia].
  - destruct fuel as [|fuel]; [by destruct Hsome|].
    cbn [DARPModelLB.walk] in Hsome. rewrite decide_True, Hnl in Hsome by done.
    apply IH in Hsome. simpl. lia.
Qed.

Lemma lb_walk_to_last (routes : list DARPModelLB.leg) (c : string)
    (legs : list DARPModelLB.leg) (n : string) (prefix : list string) :
  lb_walk_to routes c legs n →
  last (prefix ++ c :: map DARPModelLB.to legs) = Some n.
Proof.
  intros Hw. revert prefix. induction Hw as [c|c nl legs n _ _ _ IH]; intros prefix.
  - apply last_snoc.
  - cbn [map]. specialize (IH (prefix ++ [c])). by rewrite <- app_assoc in IH.
Qed.

Lemma LB_walk_prefix (fuel : nat) (routes : list DARPModelLB.leg) (c : string)
    (path : list string) (times loads : list Q) res :
  DARPModelLB.walk fuel routes c path times loads = Some res →
  ∃ ext, res.1.1 = path ++ ext.
Proof.
  revert c path times loads. induction fuel as [|fuel IH]; intros c path times loads; [done|].
  cbn [DARPModelLB.walk]. destruct (decide _).
  - destruct (DARPModelLB.next_leg routes c) as [nl|].
    + intros [ext ->]%IH. exists ([DARPModelLB.to nl] ++ ext). by rewrite app_assoc.
    + intros [= <-]. exists []. by rewrite app_nil_r.
  - intros [= <-]. exists []. by rewrite app_nil_r.
Qed.

(** Without a cycle among non-depot nodes, a walk that starts away from
    the start depot comes to an end within [length routes + 2] iterations. *)
Lemma LB_walk_terminates (routes : list DARPModelLB.leg) :
  acyclic (lb_edge (map (λ r, (DARPModelLB.from r, DARPModelLB.to r)) routes)) →
  (∀ r, r ∈ routes → DARPModelLB.to r ≠ DARPModelLB.start_node) →
  ∀ fuel seen c path times loads,
    NoDup seen →
    (∀ a, a ∈ seen → a ∈ map DARPModelLB.from routes) →
    (∀ a, a ∈ seen →
          tc (lb_edge (map (λ r, (DARPModelLB.from r, DARPModelLB.to r)) routes)) a c) →
    c ≠ DARPModelLB.start_node →
    length routes + 2 ≤ fuel + length seen →
    is_Some (DARPModelLB.walk fuel routes c path times loads).
Proof.
  intros Hacyc Hto. induction fuel as [|fuel IH];
    intros seen c path times loads Hnd Hsrc Htc Hc Hfuel.
  - exfalso. assert (length seen ≤ length (map DARPModelLB.from routes)) as Hlen.
    { apply submseteq_length, NoDup_submseteq; done. }
    rewrite length_map in Hlen. simpl in Hfuel. lia.
  - cbn [DARPModelLB.walk]. destruct (decide (c ≠ DARPModelLB.end_node)) as [Hce|_]; [|eauto].
    destruct (DARPModelLB.next_leg routes c) as [nl|] eqn:Hnl; [|eauto].
    apply next_leg_Some in Hnl as [Hin Hfrom].
    assert (c ∉ seen) as Hfresh.
    { intros Hseen. by apply (Hacyc c), Htc. }
    assert (length (c :: seen) ≤ length (map DARPModelLB.from routes)) as Hlen.
    { apply submseteq_length, NoDup_submseteq; [by apply NoDup_cons|].
      intros a [->|Ha]%elem_of_cons; [|by apply Hsrc].
      rewrite <- Hfrom. by apply list_elem_of_fmap_2. }
    rewrite length_map in Hlen. simpl in Hlen.
    destruct (decide (DARPModelLB.to nl = DARPModelLB.end_node)) as [Hend|Hnend].
    + destruct fuel as [|fuel]; [simpl in Hfuel; lia|]. cbn [DARPModelLB.walk].
      rewrite decide_False by (intros Hne; by apply Hne). eauto.
    + assert (lb_edge (map (λ r, (DARPModelLB.from r, DARPModelLB.to r)) routes)
                c (DARPModelLB.to nl)) as Hedge.
      { split_and!; [|done..|by apply Hto|done].
        rewrite <- Hfrom.
        by apply (list_elem_of_fmap_2 (λ r, (DARPModelLB.from r, DARPModelLB.to r))). }
      apply (IH (c :: seen)).
      * by apply NoDup_cons.
      * intros a [->|Ha]%elem_of_cons; [|by apply Hsrc].
        rewrite <- Hfrom. by apply list_elem_of_fmap_2.
      * intros a [->|Ha]%elem_of_cons; [by apply tc_once|].
        eapply tc_r; [by apply Htc|done].
      * by apply Hto.
      * simpl. lia.
Qed.

Lemma LB_solved_eq (d : gmap string pyvalue) (i : LBInput) (sol : DARPModelLB.assignment) :
  lb_data_has d i →
  (DARPModelLB.__init__ d).2 = Ok tt →
  lb_solved d sol
  = DARPModelLB.mkSelf d (DARPModelLB.Built (DARPModelLB.load_solution sol (lb_model_of i))).
Proof. intros Hd Hc. unfold lb_solved. by rewrite (LB_init_ok d i Hd Hc). Qed.

Lemma LB_get_route_summary_solved (d : gmap string pyvalue) (i : LBInput)
    (sol : DARPModelLB.assignment) (fuel : nat) :
  lb_data_has d i →
  (DARPModelLB.__init__ d).2 = Ok tt →
  (DARPModelLB.get_route_summary fuel (lb_solved d sol)).2
  = match DARPModelLB.group_routes fuel (lb_routes (lb_model_of i) sol)
            (lb_routes (lb_model_of i) sol) ∅ with
    | Ok summary => Ok (inr summary)
    | Raise e => Raise e
    | Diverge => Diverge
    end.
Proof.
  intros Hd Hc. rewrite (LB_solved_eq d i sol Hd Hc).
  unfold DARPModelLB.get_route_summary.
  unfold mbind, M_bind, mbind_M, get, lift, mret, M_ret.
  cbn [fst snd DARPModelLB.model].
  rewrite LB_collect_routes_loaded.
  - cbn [app]. fold (lb_selected (lb_model_of i) sol).
    fold (lb_routes (lb_model_of i) sol).
    by destruct (DARPModelLB.group_routes _ _ _ _).
  - intros [a b] Hab. cbn [lb_model_of DARPModelLB.load_solution DARPModelLB.x
      DARPModelLB.B DARPModelLB.Qv Var_load Var_declare index] in *.
    pose proof Hab as (Ha & Hb & _)%elem_of_build_A. done.
Qed.

Lemma LB_group_routes_total (fuel : nat) (all_routes todo : list DARPModelLB.leg)
    (summary : gmap string DARPModelLB.route_info) :
  (∀ r, r ∈ todo → DARPModelLB.from r = DARPModelLB.start_node →
        is_Some (DARPModelLB.walk fuel all_routes (DARPModelLB.to r)
                   [DARPModelLB.from r; DARPModelLB.to r]
                   [DARPModelLB.depart_time r; DARPModelLB.arrive_time r]
                   [0%Q; DARPModelLB.load_after r])) →
  ∃ summary', DARPModelLB.group_routes fuel all_routes todo summary = Ok summary'.
Proof.
  revert summary. induction todo as [|r todo IH]; intros summary Hwalks; [by eexists|].
  cbn [DARPModelLB.group_routes].
  destruct (decide (DARPModelLB.from r = DARPModelLB.start_node)) as [Hstart|_].
  - destruct (Hwalks r) as [[[path times] loads] Hw]; [left|done|]. rewrite Hw.
    apply LB_walk_prefix in Hw as [ext Hext]. cbn [fst] in Hext. rewrite Hext.
    cbn [app lookup list_lookup]. apply IH. intros; apply Hwalks; [by right|done].
  - apply IH. intros; apply Hwalks; [by right|done].
Qed.

Lemma LB_group_routes_lookup_other (fuel : nat) (all_routes todo : list DARPModelLB.leg)
    (summary summary' : gmap string DARPModelLB.route_info) (k : string) :
  DARPModelLB.group_routes fuel all_routes todo summary = Ok summary' →
  (∀ r, r ∈ todo → DARPModelLB.from r = DARPModelLB.start_node → DARPModelLB.to r ≠ k) →
  summary' !! k = summary !! k.
Proof.
  revert summary. induction todo as [|r todo IH]; intros summary Hg Hk.
  - by injection Hg as <-.
  - cbn [DARPModelLB.group_routes] in Hg.
    destruct (decide (DARPModelLB.from r = DARPModelLB.start_node)) as [Hstart|_].
    + destruct (DARPModelLB.walk _ _ _ _ _ _) as [[[path times] loads]|] eqn:Hw; [|done].
      apply LB_walk_prefix in Hw as [ext Hext]. cbn [fst] in Hext. subst path.
      cbn [app lookup list_lookup] in Hg.
      rewrite (IH _ Hg) by (intros; apply Hk; [by right|done]).
      apply lookup_insert_ne. apply Hk; [left|done].
    + apply (IH _ Hg). intros; apply Hk; [by right|done].
Qed.

Lemma LB_group_routes_entry (fuel : nat) (all_routes pre post : list DARPModelLB.leg)
    (r : DARPModelLB.leg) (summary summary' : gmap string DARPModelLB.route_info)
    (path : list string) (times loads : list Q) :
  DARPModelLB.from r = DARPModelLB.start_node →
  (∀ r', r' ∈ post → DARPModelLB.from r' = DARPModelLB.start_node →
         DARPModelLB.to r' ≠ DARPModelLB.to r) →
  DARPModelLB.walk fuel all_routes (DARPModelLB.to r)
    [DARPModelLB.from r; DARPModelLB.to r]
    [DARPModelLB.depart_time r; DARPModelLB.arrive_time r]
    [0%Q; DARPModelLB.load_after r] = Some (path, times, loads) →
  DARPModelLB.group_routes fuel all_routes (pre ++ r :: post) summary = Ok summary' →
  summary' !! DARPModelLB.to r = Some (DARPModelLB.mkRouteInfo path times loads).
Proof.
  intros Hstart Hpost Hw. revert summary.
  induction pre as [|r0 pre IH]; intros summary Hg.
  - cbn [app DARPModelLB.group_routes] in Hg. rewrite decide_True, Hw in Hg by done.
    pose proof Hw as [ext Hext]%LB_walk_prefix. cbn [fst] in Hext. subst path.
    cbn [app lookup list_lookup] in Hg.
    rewrite (LB_group_routes_lookup_other _ _ _ _ _ _ Hg Hpost).
    apply lookup_insert_eq.
  - cbn [app DARPModelLB.group_routes] in Hg. fold (pre ++ r :: post) in Hg.
    destruct (decide (DARPModelLB.from r0 = DARPModelLB.start_node)) as [Hs0|_].
    + destruct (DARPModelLB.walk _ _ (DARPModelLB.to r0) _ _ _)
        as [[[path0 times0] loads0]|] eqn:Hw0; [|done].
      destruct (path0 !! 1%nat); [|done]. by apply (IH _ Hg).
    + by apply (IH _ Hg).
Qed.

Lemma lb_routes_arcs (m : DARPModelLB.Model) (sol : DARPModelLB.assignment) :
  map (λ r, (DARPModelLB.from r, DARPModelLB.to r)) (lb_routes m sol) = lb_selected m sol.
Proof.
  unfold lb_routes. rewrite map_map. cbn [leg_of DARPModelLB.from DARPModelLB.to].
  induction (lb_selected m sol) as [|[a b] arcs IH]; [done|]. simpl. by rewrite IH.
Qed.

Lemma lb_routes_length (m : DARPModelLB.Model) (sol : DARPModelLB.assignment) :
  length (lb_routes m sol) = length (lb_selected m sol).
Proof. unfold lb_routes. apply length_map. Qed.

Lemma lb_routes_to_not_start (i : LBInput) (sol : DARPModelLB.assignment) r :
  r ∈ lb_routes (lb_model_of i) sol → DARPModelLB.to r ≠ DARPModelLB.start_node.
Proof.
  unfold lb_routes, lb_selected. intros ([a b] & -> & [_ Hab]%list_elem_of_filter)%list_elem_of_fmap.
  cbn [lb_model_of DARPModelLB.A] in Hab. apply elem_of_build_A in Hab.
  cbn [leg_of DARPModelLB.to snd]. tauto.
Qed.

Lemma LB_start_walks_terminate (i : LBInput) (sol : DARPModelLB.assignment) (fuel : nat) :
  acyclic (lb_edge (lb_selected (lb_model_of i) sol)) →
  length (lb_selected (lb_model_of i) sol) + 2 ≤ fuel →
  ∀ r, r ∈ lb_routes (lb_model_of i) sol →
    is_Some (DARPModelLB.walk fuel (lb_routes (lb_model_of i) sol) (DARPModelLB.to r)
               [DARPModelLB.from r; DARPModelLB.to r]
               [DARPModelLB.depart_time r; DARPModelLB.arrive_time r]
               [0%Q; DARPModelLB.load_after r]).
Proof.
  intros Hacyc Hfuel r Hr.
  apply (LB_walk_terminates (lb_routes (lb_model_of i) sol)) with (seen := []).
  - by rewrite lb_routes_arcs.
  - intros r' Hr'. by apply (lb_routes_to_not_start i sol).
  - apply NoDup_nil_2.
  - by intros a ?%elem_of_nil.
  - by intros a ?%elem_of_nil.
  - by apply (lb_routes_to_not_start i sol).
  - rewrite lb_routes_length. simpl. lia.
Qed.

Lemma LB_reconstruction_returns (d : gmap string pyvalue) (i : LBInput)
    (sol : DARPModelLB.assignment) (fuel : nat) :
  lb_data_has d i →
  (DARPModelLB.__init__ d).2 = Ok tt →
  acyclic (lb_edge (lb_selected (lb_model_of i) sol)) →
  length (lb_selected (lb_model_of i) sol) + 2 ≤ fuel →
  ∃ summary,
    DARPModelLB.group_routes fuel (lb_routes (lb_model_of i) sol)
      (lb_routes (lb_model_of i) sol) ∅ = Ok summary
    ∧ (DARPModelLB.get_route_summary fuel (lb_solved d sol)).2 = Ok (inr summary).
Proof.
  intros Hd Hc Hacyc Hfuel. rewrite (LB_get_route_summary_solved d i sol fuel Hd Hc).
  destruct (LB_group_routes_total fuel (lb_routes (lb_model_of i) sol)
              (lb_routes (lb_model_of i) sol) ∅) as [summary Hs].
  - intros r Hr _. by apply LB_start_walks_terminate.
  - exists summary. by rewrite Hs.
Qed.

Lemma LB_group_routes_walks (fuel : nat) (all_routes todo : list DARPModelLB.leg)
    (summary summary' : gmap string DARPModelLB.route_info) :
  DARPModelLB.group_routes fuel all_routes todo summary = Ok summary' →
  ∀ r, r ∈ todo → DARPModelLB.from r = DARPModelLB.start_node →
    is_Some (DARPModelLB.walk fuel all_routes (DARPModelLB.to r)
               [DARPModelLB.from r; DARPModelLB.to r]
               [DARPModelLB.depart_time r; DARPModelLB.arrive_time r]
               [0%Q; DARPModelLB.load_after r]).
Proof.
  revert summary. induction todo as [|r0 todo IH]; intros summary Hg r Hr Hstart.
  - by apply elem_of_nil in Hr.
  - cbn [DARPModelLB.group_routes] in Hg.
    destruct (decide (DARPModelLB.from r0 = DARPModelLB.start_node)) as [Hs0|Hs0].
    + destruct (DARPModelLB.walk _ _ (DARPModelLB.to r0) _ _ _)
        as [[[path0 times0] loads0]|] eqn:Hw0; [|done].
      destruct (path0 !! 1%nat); [|done].
      apply elem_of_cons in Hr as [->|Hr]; [by rewrite Hw0|by apply (IH _ Hg)].
    + apply elem_of_cons in Hr as [->|Hr]; [done|by apply (IH _ Hg)].
Qed.

Lemma LB_group_routes_no_raise (fuel : nat) (all_routes todo : list DARPModelLB.leg)
    (summary : gmap string DARPModelLB.route_info) (e : exn) :
  DARPModelLB.group_routes fuel all_routes todo summary ≠ Raise e.
Proof.
  revert summary. induction todo as [|r todo IH]; intros summary; [done|].
  cbn [DARPModelLB.group_routes].
  destruct (decide (DARPModelLB.from r = DARPModelLB.start_node)) as [Hstart|_]; [|done].
  destruct (DARPModelLB.walk _ _ _ _ _ _) as [[[path times] loads]|] eqn:Hw; [|done].
  apply LB_walk_prefix in Hw as [ext Hext]. cbn [fst] in Hext. rewrite Hext.
  cbn [app lookup list_lookup]. apply IH.
Qed.

Lemma LB_solved_no_raise (d : gmap string pyvalue) (i : LBInput)
    (sol : DARPModelLB.assignment) (fuel : nat) (e : exn) :
  lb_data_has d i →
  (DARPModelLB.__init__ d).2 = Ok tt →
  (DARPModelLB.get_route_summary fuel (lb_solved d sol)).2 ≠ Raise e.
Proof.
  intros Hd Hc. rewrite (LB_get_route_summary_solved d i sol fuel Hd Hc).
  destruct (DARPModelLB.group_routes _ _ _ _) as [summary|e'|] eqn:Hg; [done| |done].
  by apply LB_group_routes_no_raise in Hg.
Qed.

(** A walk that comes to a node without a successor stops there, and its
    partial path is stored in the summary like any other route. *)
Lemma LB_dead_end_is_a_normal_route (d : gmap string pyvalue) (i : LBInput)
    (sol : DARPModelLB.assignment) (j : string) (legs : list DARPModelLB.leg)
    (n : string) (fuel : nat) (summary : gmap string DARPModelLB.route_info) :
  lb_data_has d i →
  (DARPModelLB.__init__ d).2 = Ok tt →
  ("0_start", j) ∈ lb_selected (lb_model_of i) sol →
  lb_walk_to (lb_routes (lb_model_of i) sol) j legs n →
  DARPModelLB.next_leg (lb_routes (lb_model_of i) sol) n = None →
  (DARPModelLB.get_route_summary fuel (lb_solved d sol)).2 = Ok (inr summary) →
  summary !! j
  = Some (DARPModelLB.mkRouteInfo
            (["0_start"; j] ++ map DARPModelLB.to legs)
            ([DARPModelLB.B_val sol "0_start"; DARPModelLB.B_val sol j]
               ++ map DARPModelLB.arrive_time legs)
            ([0%Q; DARPModelLB.Q_val sol j] ++ map DARPModelLB.load_after legs))
  ∧ last (["0_start"; j] ++ map DARPModelLB.to legs) = Some n.
Proof.
  intros Hd Hc Hsel Hwalk Hdead Hres.
  rewrite (LB_get_route_summary_solved d i sol fuel Hd Hc) in Hres.
  destruct (DARPModelLB.group_routes _ _ _ _) as [summary'| |] eqn:Hg; [|done..].
  injection Hres as ->.
  split; [|apply (lb_walk_to_last _ _ _ _ ["0_start"] Hwalk)].
  pose proof Hsel as (l1 & l2 & Hsplit)%list_elem_of_split.
  assert (NoDup (lb_selected (lb_model_of i) sol)) as Hnd.
  { apply NoDup_filter, NoDup_build_A. }
  rewrite Hsplit in Hnd. apply NoDup_app in Hnd as (_ & _ & [Hfresh _]%NoDup_cons).
  assert (length legs < fuel) as Hlen.
  { destruct (LB_group_routes_walks _ _ _ _ _ Hg (leg_of sol ("0_start", j)))
      as [res Hres]; [|done|].
    { unfold lb_routes. by apply list_elem_of_fmap_2. }
    apply (LB_walk_within_fuel _ _ _ _ Hwalk _ _ _ _ (mk_is_Some _ _ Hres)). }
  pose proof (LB_walk_follow _ _ _ _ Hwalk (or_intror Hdead) fuel
                ["0_start"; j]
                [DARPModelLB.B_val sol "0_start"; DARPModelLB.B_val sol j]
                [0%Q; DARPModelLB.Q_val sol j] Hlen) as Hw.
  unfold lb_routes in Hg at 2. rewrite Hsplit, map_app in Hg. cbn [map] in Hg.
  refine (LB_group_routes_entry fuel _ _ _ (leg_of sol ("0_start", j))
            _ _ _ _ _ _ _ Hw Hg).
  - done.
  - intros r' ([a b] & -> & Hab)%list_elem_of_fmap.
    cbn [leg_of DARPModelLB.from DARPModelLB.to fst snd].
    intros -> ->. done.
Qed.

(** ** The LAEB reconstruction starts no walk *)

Lemma active_arcs_of_returns (m : DARPModelLAEB.Model) (arcs : list pyobj) :
  DARPModelLAEB.active_arcs_of m arcs ≠ Diverge.
Proof.
  induction arcs as [|a arcs IH]; simpl; [done|].
  apply bind_returns; [apply value_not_Diverge|intros xv].
  apply bind_returns; [apply IH|done].
Qed.

(** The arcs that leave the depot are selected by [a[0] == ('0',)], which
    compares a component of an event-arc with a tuple: no arc passes the
    test, the loop over [starts] has nothing to run on, and the method
    returns the empty list unless reading [x] has raised. *)
Lemma LAEB_get_route_summary_outcome (fuel : nat) (self : DARPModelLAEB.Self) :
  (DARPModelLAEB.get_route_summary fuel self).2 = Ok (inl "Modelo no resuelto.")
  ∨ (DARPModelLAEB.get_route_summary fuel self).2 = Ok (inr [])
  ∨ ∃ e, (DARPModelLAEB.get_route_summary fuel self).2 = Raise e.
Proof.
  unfold DARPModelLAEB.get_route_summary.
  unfold mbind, M_bind, mbind_M, get, lift, mret, M_ret. cbn [fst snd].
  destruct (DARPModelLAEB.model self) as [|m]; [by left|].
  destruct (DARPModelLAEB.active_arcs_of _ _) as [active|e|] eqn:Hact.
  - unfold DARPModelLAEB.starts_of.
    destruct (select_depot_arcs active) as [->|[e ->]].
    + right. by left.
    + right. right. by exists e.
  - right. right. by exists e.
  - by apply active_arcs_of_returns in Hact.
Qed.

(** ** Checking the absence of cycles on a given list of arcs *)

Lemma acyclic_by_rank {T} (R : relation T) (rank : T → nat) :
  (∀ a b, R a b → rank a < rank b) → acyclic R.
Proof.
  intros Hrank. assert (∀ a b, tc R a b → rank a < rank b) as Htc.
  { induction 1 as [a b Hab|a b c Hab _ IH]; [by apply Hrank|].
    apply Hrank in Hab. lia. }
  intros a Ha%Htc. lia.
Qed.

Lemma lb_acyclic_by_rank (arcs : list arc) (rank : string → nat) :
  Forall (λ ab, ab.1 ≠ DARPModelLB.start_node → ab.1 ≠ DARPModelLB.end_node →
                ab.2 ≠ DARPModelLB.start_node → ab.2 ≠ DARPModelLB.end_node →
                rank ab.1 < rank ab.2) arcs →
  acyclic (lb_edge arcs).
Proof.
  intros Hall. apply (acyclic_by_rank _ rank). intros a b (Hin & H1 & H2 & H3 & H4).
  by apply (proj1 (Forall_forall _ _) Hall (a, b) Hin).
Qed.

(** ** Walks that go round a cycle *)


(** ** Termination of route reconstruction *)




(** ** Walks that come to a dead end *)

(** C2, as the code has it. On the object that the LB constructor returns,
    when a walk from a start-depot departure comes to a node that has no
    successor among the selected arcs before the end depot is reached, no
    error is raised: whenever the call returns, the partial path collected
    so far is in the summary as a normal route, and the call does return
    when the selected arcs have no directed cycle among non-depot nodes. *)
Theorem dead_end_walk_returns_partial_route (d : gmap string pyvalue) (i : LBInput)
    (sol : DARPModelLB.assignment) (j : string) (legs : list DARPModelLB.leg)
    (n : string) (fuel : nat) :
  lb_data_has d i →
  (DARPModelLB.__init__ d).2 = Ok tt →
  ("0_start", j) ∈ lb_selected (lb_model_of i) sol →
  lb_walk_to (lb_routes (lb_model_of i) sol) j legs n →
  n ≠ "0_end" →
  DARPModelLB.next_leg (lb_routes (lb_model_of i) sol) n = None →
  (∀ e, (DARPModelLB.get_route_summary fuel (lb_solved d sol)).2 ≠ Raise e)
  ∧ (∀ summary,
       (DARPModelLB.get_route_summary fuel (lb_solved d sol)).2 = Ok (inr summary) →
       summary !! j
       = Some (DARPModelLB.mkRouteInfo
                 (["0_start"; j] ++ map DARPModelLB.to legs)
                 ([DARPModelLB.B_val sol "0_start"; DARPModelLB.B_val sol j]
                    ++ map DARPModelLB.arrive_time legs)
                 ([0%Q; DARPModelLB.Q_val sol j] ++ map DARPModelLB.load_after legs))
       ∧ last (["0_start"; j] ++ map DARPModelLB.to legs) = Some n)
  ∧ (acyclic (lb_edge (lb_selected (lb_model_of i) sol)) →
     length (lb_selected (lb_model_of i) sol) + 2 ≤ fuel →
     ∃ summary,
       (DARPModelLB.get_route_summary fuel (lb_solved d sol)).2 = Ok (inr summary)).
Proof.
  intros Hd Hc Hsel Hwalk Hn Hdead. split_and!.
  - intros e. by apply (LB_solved_no_raise d i).
  - intros summary Hres.
    by apply (LB_dead_end_is_a_normal_route d i sol j legs n fuel summary).
  - intros Hacyc Hfuel.
    destruct (LB_reconstruction_returns d i sol fuel Hd Hc Hacyc Hfuel)
      as (summary & _ & Hs).
    by exists summary.
Qed.

Lemma dead_end_walk_returns_partial_route_witness :
  ∃ summary,
    (DARPModelLB.get_route_summary 3
       (lb_solved Instances.get_example_instance dead_end_solution)).2
    = Ok (inr summary)
    ∧ summary !! "1+"
      = Some (DARPModelLB.mkRouteInfo ["0_start"; "1+"]
                [example_B "0_start"; example_B "1+"] [0%Q; example_Q "1+"])
    ∧ last ["0_start"; "1+"] = Some "1+".
Proof.
  destruct (dead_end_walk_returns_partial_route
              Instances.get_example_instance example_input dead_end_solution
              "1+" [] "1+" 3) as (_ & Hentry & Hreturns).
  - apply example_data_has.
  - apply example_constructed.
  - by_compute.
  - apply lb_walk_here.
  - discriminate.
  - vm_compute. reflexivity.
  - destruct Hreturns as [summary Hs].
    + apply (lb_acyclic_by_rank _ tour_rank). by_compute.
    + by_compute.
    + exists summary. split; [exact Hs|]. by apply Hentry.
Defined.

(** C2, as the specification words it, fails. With only the arc from the
    start depot to the first pickup selected, the walk is at a node
    without a successor and short of the end depot, and the method
    returns the partial path as an ordinary summary entry instead of
    raising an error. *)
Lemma dead_end_counterexample :
  ("0_start", "1+") ∈ lb_selected (lb_model_of example_input) dead_end_solution
  ∧ DARPModelLB.next_leg (lb_routes (lb_model_of example_input) dead_end_solution) "1+"
    = None
  ∧ "1+" ≠ "0_end"
  ∧ (DARPModelLB.get_route_summary 3
       (lb_solved Instances.get_example_instance dead_end_solution)).2
    = Ok (inr {[ "1+" := DARPModelLB.mkRouteInfo ["0_start"; "1+"] [0%Q; 5%Q] [0%Q; 1%Q] ]})
  ∧ ¬ is_error (DARPModelLB.get_route_summary 3
                  (lb_solved Instances.get_example_instance dead_end_solution)).2.
Proof.
  assert ((DARPModelLB.get_route_summary 3
             (lb_solved Instances.get_example_instance dead_end_solution)).2
          = Ok (inr {[ "1+" := DARPModelLB.mkRouteInfo ["0_start"; "1+"]
                                 [0%Q; 5%Q] [0%Q; 1%Q] ]})) as Hres.
  { rewrite (LB_get_route_summary_solved _ _ _ _ example_data_has example_constructed).
    vm_compute. reflexivity. }
  split_and!.
  - by_compute.
  - vm_compute. reflexivity.
  - discriminate.
  - exact Hres.
  - rewrite Hres. intros [e He]. discriminate He.
Qed.

(** ** The instances of the repository, run through the model *)

Example combinations_order :
  DARPModelLB.combinations ["a"; "b"; "c"] 2 = [["a"; "b"]; ["a"; "c"]; ["b"; "c"]].
Proof. reflexivity. Qed.

Example single_request_subsets :
  DARPModelLB.s_sets_of [1%Z] ["1+"] ["1-"] = [elements ({[ "0_start"; "1-" ]} : gset string)].
Proof. vm_compute. reflexivity. Qed.

Example example_instance_subset_count :
  length (DARPModelLB.S_Sets (lb_model_of example_input)) = 37%nat.
Proof. vm_compute. reflexivity. Qed.

Example example_route_summary :
  (DARPModelLB.get_route_summary 9
     (lb_solved Instances.get_example_instance example_solution)).2
  = Ok (inr {[ "1+" := DARPModelLB.mkRouteInfo
                 ["0_start"; "1+"; "1-"; "2+"; "2-"; "3+"; "3-"; "0_end"]
                 [0%Q; 5%Q; 6%Q; 7%Q; 8%Q; 9%Q; 10%Q; 15%Q]
                 [0%Q; 1%Q; 0%Q; 1%Q; 0%Q; 1%Q; 0%Q; 0%Q] ]}).
Proof.
  rewrite (LB_get_route_summary_solved _ _ _ _ example_data_has example_constructed).
  vm_compute. reflexivity.
Qed.

(** The sets of [test_data] as Pyomo normalises them: the depot event
    becomes the string ['0'], the other events stay pairs, so the set [V]
    is refused. *)
Example test_data_events :
  map (λ v, normalize (event_tuple v))
      [Instances.ev_depot; Instances.ev_pickup1; Instances.ev_delivery1]
  = [Scalar (Str "0"); Tuple [Str "1+"; Int 1]; Tuple [Str "1-"; Int 0]]
  ∧ Set_of_tuples "V"
      (map event_tuple [Instances.ev_depot; Instances.ev_pickup1; Instances.ev_delivery1])
    = Raise (ValueError_in "V").
Proof. split; vm_compute; reflexivity. Qed.

Example location_data_components :
  DARPModelLAEB.declare_components location_data = Ok location_model.
Proof. vm_compute. reflexivity. Qed.

(** * Further properties of the two formulations *)

(** ** Selected arcs of a binary assignment *)

Lemma active_true_one (n : Q) : Binary n → active n = true → (n == 1)%Q.
Proof. intros Hb Ha. pose proof (active_binary n Hb) as H. by rewrite Ha in H. Qed.

Lemma active_false_zero (n : Q) : Binary n → active n = false → (n == 0)%Q.
Proof. intros Hb Ha. pose proof (active_binary n Hb) as H. by rewrite Ha in H. Qed.

Lemma inject_Z_of_nat_one (n : nat) : (inject_Z (Z.of_nat n) == 1)%Q → n = 1%nat.
Proof.
  intros H. change 1%Q with (inject_Z 1) in H.
  apply (proj1 (inject_Z_injective _ _)) in H. lia.
Qed.

Lemma sum_binary_one {T} (f : T → Q) (xs : list T) :
  (∀ a, a ∈ xs → Binary (f a)) →
  (sum (map f xs) == 1)%Q →
  ∃ a, filter (λ a, active (f a)) xs = [a].
Proof.
  intros Hbin Hsum. rewrite (sum_binary_count f xs Hbin) in Hsum.
  apply inject_Z_of_nat_one in Hsum.
  destruct (filter _ xs) as [|a [|b rest]]; try done. by exists a.
Qed.

Lemma acyclic_by_potential {T} (R : relation T) (f : T → Q) :
  (∀ a b, R a b → (f a < f b)%Q) → acyclic R.
Proof.
  intros Hf. assert (∀ a b, tc R a b → (f a < f b)%Q) as Htc.
  { induction 1 as [a b Hab|a b c Hab _ IH]; [by apply Hf|].
    apply Hf in Hab. lra. }
  intros a Ha%Htc. lra.
Qed.

(** ** Big-M constraints on a selected arc *)

(** When [x[i,j] = 1] the Big-M term vanishes: the time-consistency
    constraint says that service at [j] starts no earlier than service at
    [i] plus the service and travel time, and the load-consistency
    constraint says that the load after [j] is at least the load after [i]
    plus the load change at [j]. *)
Theorem LB_big_M_exact (m : DARPModelLB.Model) (v : DARPModelLB.assignment)
    (i j : string) :
  (DARPModelLB.x_val v (i, j) == 1)%Q →
  (holds (DARPModelLB.time_consistency m v i j)
   ↔ (DARPModelLB.B_val v i + DARPModelLB.s m i + DARPModelLB.t m (i, j)
      <= DARPModelLB.B_val v j)%Q)
  ∧ (holds (DARPModelLB.load_consistency m v i j)
     ↔ (DARPModelLB.Q_val v i + DARPModelLB.q m j <= DARPModelLB.Q_val v j)%Q).
Proof.
  intros Hx. unfold DARPModelLB.time_consistency, DARPModelLB.load_consistency.
  simpl. rewrite Hx. split; split; intros H; lra.
Qed.

Lemma LB_big_M_exact_witness :
  (holds (DARPModelLB.time_consistency (lb_model_of example_input) example_solution
            "1+" "1-")
   ↔ (example_B "1+" + 0 + Instances.example_travel_times ("1+", "1-")
      <= example_B "1-")%Q)
  ∧ (holds (DARPModelLB.load_consistency (lb_model_of example_input) example_solution
              "1+" "1-")
     ↔ (example_Q "1+" + Instances.example_load_change "1-" <= example_Q "1-")%Q).
Proof.
  apply (LB_big_M_exact (lb_model_of example_input) example_solution "1+" "1-").
  reflexivity.
Defined.

Lemma LB_selected_arc_advances_time (m : DARPModelLB.Model)
    (v : DARPModelLB.assignment) (i j : string) :
  DARPModelLB.feasible m v →
  (i, j) ∈ lb_selected m v →
  (DARPModelLB.B_val v i + DARPModelLB.s m i + DARPModelLB.t m (i, j)
   <= DARPModelLB.B_val v j)%Q.
Proof.
  intros Hf [Hact Hin]%list_elem_of_filter.
  assert (DARPModelLB.x_val v (i, j) == 1)%Q as Hx.
  { apply active_true_one; [by apply (DARPModelLB.x_domain m v Hf)|].
    by destruct (active _). }
  pose proof (DARPModelLB.time_consistency_holds m v Hf i j Hin) as Htc.
  unfold DARPModelLB.time_consistency in Htc. simpl in Htc.
  rewrite Hx in Htc. lra.
Qed.

Lemma LB_time_potential_acyclic (m : DARPModelLB.Model) (v : DARPModelLB.assignment) :
  DARPModelLB.feasible m v →
  (∀ i j, (i, j) ∈ DARPModelLB.A m →
          (0 < DARPModelLB.s m i + DARPModelLB.t m (i, j))%Q) →
  acyclic (lb_edge (lb_selected m v)).
Proof.
  intros Hf Hpos. apply (acyclic_by_potential _ (DARPModelLB.B_val v)).
  intros a b [Hsel _].
  pose proof (LB_selected_arc_advances_time m v a b Hf Hsel) as Hadv.
  apply list_elem_of_filter in Hsel as [_ Hin]. specialize (Hpos a b Hin). lra.
Qed.

(** A feasible assignment whose arcs all take a positive time (service
    plus travel) selects no cycle of arcs: the start of service grows
    strictly along every selected arc. *)
Theorem LB_feasible_acyclic (m : DARPModelLB.Model) (v : DARPModelLB.assignment) :
  DARPModelLB.feasible m v →
  (∀ i j, (i, j) ∈ DARPModelLB.A m →
          (0 < DARPModelLB.s m i + DARPModelLB.t m (i, j))%Q) →
  acyclic (lb_edge (lb_selected m v)).
Proof.
  intros Hf Hpos. by apply LB_time_potential_acyclic.
Qed.

Lemma example_durations_positive (i j : string) :
  (i, j) ∈ DARPModelLB.A (lb_model_of example_input) →
  (0 < DARPModelLB.s (lb_model_of example_input) i
       + DARPModelLB.t (lb_model_of example_input) (i, j))%Q.
Proof.
  assert (Forall (λ a : arc,
            (0 ?= DARPModelLB.s (lb_model_of example_input) a.1
                  + DARPModelLB.t (lb_model_of example_input) (a.1, a.2))%Q = Lt)
            (DARPModelLB.A (lb_model_of example_input))) as Hall by by_compute.
  intros Hij. apply Qlt_alt. exact (proj1 (Forall_forall _ _) Hall (i, j) Hij).
Qed.

Lemma example_solution_feasible :
  DARPModelLB.feasible (lb_model_of example_input) example_solution.
Proof. apply feasibleb_feasible. vm_compute. reflexivity. Qed.

Lemma LB_feasible_acyclic_witness :
  acyclic (lb_edge (lb_selected (lb_model_of example_input) example_solution)).
Proof.
  apply LB_feasible_acyclic.
  - apply example_solution_feasible.
  - apply example_durations_positive.
Defined.

(** ** Degrees of the customer nodes in a feasible LB assignment *)

(** In a feasible assignment every customer node has exactly one selected
    arc that leaves it and exactly one selected arc that enters it. *)
Theorem LB_feasible_one_successor_one_predecessor (i : LBInput)
    (v : DARPModelLB.assignment) (j : string) :
  DARPModelLB.feasible (lb_model_of i) v →
  j ∈ in_P i ++ in_D i →
  (∃ k, ((j, k) ∈ DARPModelLB.A (lb_model_of i) ∧ active (DARPModelLB.x_val v (j, k)))
        ∧ ∀ k', (j, k') ∈ DARPModelLB.A (lb_model_of i) →
                active (DARPModelLB.x_val v (j, k')) → k' = k)
  ∧ (∃ k, ((k, j) ∈ DARPModelLB.A (lb_model_of i) ∧ active (DARPModelLB.x_val v (k, j)))
          ∧ ∀ k', (k', j) ∈ DARPModelLB.A (lb_model_of i) →
                  active (DARPModelLB.x_val v (k', j)) → k' = k).
Proof.
  intros Hf Hj%LB_customer_nodes. split.
  - pose proof (DARPModelLB.leave_once_holds _ _ Hf j Hj) as Hsum.
    unfold DARPModelLB.leave_once in Hsum. simpl in Hsum.
    apply (sum_binary_one (λ k, DARPModelLB.x_val v (j, k))) in Hsum as [k Hk].
    2:{ intros k [Hin _]%list_elem_of_filter. by apply (DARPModelLB.x_domain _ _ Hf). }
    assert (∀ k', k' ∈ [k] ↔ active (DARPModelLB.x_val v (j, k'))
                               ∧ (j, k') ∈ DARPModelLB.A (lb_model_of i)) as Hmem.
    { intros k'. rewrite <- Hk, !list_elem_of_filter.
      cbn [lb_model_of DARPModelLB.A DARPModelLB.J]. split; [tauto|].
      intros [Hact Hin]. split_and!; [done..|]. apply elem_of_build_A in Hin. tauto. }
    exists k. split.
    + destruct (proj1 (Hmem k)); [left|done].
    + intros k' Hin Hact. by apply list_elem_of_singleton, Hmem.
  - pose proof (DARPModelLB.visit_once_holds _ _ Hf j Hj) as Hsum.
    unfold DARPModelLB.visit_once in Hsum. simpl in Hsum.
    apply (sum_binary_one (λ k, DARPModelLB.x_val v (k, j))) in Hsum as [k Hk].
    2:{ intros k [Hin _]%list_elem_of_filter. by apply (DARPModelLB.x_domain _ _ Hf). }
    assert (∀ k', k' ∈ [k] ↔ active (DARPModelLB.x_val v (k', j))
                               ∧ (k', j) ∈ DARPModelLB.A (lb_model_of i)) as Hmem.
    { intros k'. rewrite <- Hk, !list_elem_of_filter.
      cbn [lb_model_of DARPModelLB.A DARPModelLB.J]. split; [tauto|].
      intros [Hact Hin]. split_and!; [done..|]. apply elem_of_build_A in Hin. tauto. }
    exists k. split.
    + destruct (proj1 (Hmem k)); [left|done].
    + intros k' Hin Hact. by apply list_elem_of_singleton, Hmem.
Qed.

Lemma LB_feasible_one_successor_one_predecessor_witness :
  (∃ k, (("1+", k) ∈ DARPModelLB.A (lb_model_of example_input)
         ∧ active (DARPModelLB.x_val example_solution ("1+", k)))
        ∧ ∀ k', ("1+", k') ∈ DARPModelLB.A (lb_model_of example_input) →
                active (DARPModelLB.x_val example_solution ("1+", k')) → k' = k)
  ∧ (∃ k, ((k, "1+") ∈ DARPModelLB.A (lb_model_of example_input)
           ∧ active (DARPModelLB.x_val example_solution (k, "1+")))
          ∧ ∀ k', (k', "1+") ∈ DARPModelLB.A (lb_model_of example_input) →
                  active (DARPModelLB.x_val example_solution (k', "1+")) → k' = k).
Proof.
  apply LB_feasible_one_successor_one_predecessor.
  - apply feasibleb_feasible. vm_compute. reflexivity.
  - by_compute.
Defined.

(** ** What the smallest pairing-and-precedence subsets forbid *)

Lemma append_plus_not_dash (name : string) : name +:+ "+" ≠ name +:+ "-".
Proof.
  induction name as [|ch name IH]; [discriminate|].
  simpl. intros [= H]. by apply IH.
Qed.

Lemma NoDup_singleton_ext {T} (xs : list T) (a : T) :
  NoDup xs → (∀ b, b ∈ xs ↔ b = a) → xs = [a].
Proof.
  intros Hnd Hext. destruct xs as [|b xs].
  - assert (a ∈ []) as Ha%elem_of_nil by by apply Hext. done.
  - assert (b = a) as -> by (apply Hext; left). f_equal.
    destruct xs as [|c xs]; [done|]. apply NoDup_cons in Hnd as [Hfresh _].
    assert (c = a) as -> by (apply Hext; right; left).
    exfalso. apply Hfresh. left.
Qed.

Lemma LB_start_to_delivery_unselected (i : LBInput) (v : DARPModelLB.assignment)
    (r : Z) :
  DARPModelLB.feasible (lb_model_of i) v →
  r ∈ in_Requests i →
  delivery_name r ∈ in_P i ++ in_D i →
  (DARPModelLB.x_val v ("0_start", delivery_name r) == 0)%Q.
Proof.
  intros Hf Hr Hd. set (d := delivery_name r) in *.
  set (S_set := ({[ "0_start" ]} ∪ {[ d ]} : gset string)).
  assert (d ≠ "0_start") as Hds by apply delivery_name_not_start.
  assert (precedence_violating (in_Requests i) (in_P i) (in_D i) S_set) as Hpv.
  { split.
    - exists {[ d ]}. split; [|done].
      intros a ->%elem_of_singleton. by apply elem_of_list_to_set.
    - exists r. split_and!; [done|by apply elem_of_union_r, elem_of_singleton|].
      intros [Hp%elem_of_singleton|Hp%elem_of_singleton]%elem_of_union.
      + by apply append_plus_not_start in Hp.
      + by apply append_plus_not_dash in Hp. }
  apply s_sets_of_precedence_violating in Hpv.
  apply list_elem_of_fmap in Hpv as (S_tuple & HS & Hin).
  pose proof Hin as (sub & _ & _ & _ & Htuple)%elem_of_s_sets_of.
  assert (S_tuple = elements S_set) as ->.
  { rewrite Htuple in HS |- *. rewrite list_to_set_elements_L in HS. by rewrite HS. }
  clear Htuple HS sub.
  apply list_elem_of_lookup in Hin as [idx Hidx].
  destruct (DARPModelLB.precedence_pairing_holds _ _ Hf idx) as (rel & Hrel & Hholds).
  { cbn [lb_model_of DARPModelLB.S_Indices]. apply elem_of_seq.
    apply lookup_lt_Some in Hidx. lia. }
  unfold DARPModelLB.precedence_pairing in Hrel.
  cbn [lb_model_of DARPModelLB.S_Sets] in Hrel. rewrite Hidx in Hrel.
  injection Hrel as <-. cbn [holds] in Hholds.
  assert (length (elements S_set) = 2%nat) as Hlen.
  { change (size S_set = 2%nat). unfold S_set.
    rewrite size_union by set_solver. by rewrite !size_singleton. }
  assert (("0_start", d) ∈ DARPModelLB.A (lb_model_of i)) as HA.
  { apply LB_arcs. rewrite !LB_nodes. split_and!; auto. }
  assert (DARPModelLB.arcs_in (lb_model_of i) (elements S_set) = [("0_start", d)]) as Harcs.
  { apply NoDup_singleton_ext; [apply NoDup_arcs_in, NoDup_elements|].
    intros [a b]. rewrite elem_of_arcs_in, !elem_of_elements. unfold S_set.
    rewrite !elem_of_union, !elem_of_singleton, LB_arcs. split.
    - intros ((_ & _ & Hne & _ & Hb) & [-> | ->] & [-> | ->]); done.
    - intros [= -> ->]. apply LB_arcs in HA. tauto. }
  rewrite Harcs, Hlen in Hholds. cbn [map] in Hholds.
  rewrite sum_cons, sum_nil in Hholds.
  destruct (DARPModelLB.x_domain _ _ Hf _ HA) as [H0|H1]; [done|].
  rewrite H1 in Hholds. exfalso. revert Hholds. apply Qlt_not_le. reflexivity.
Qed.


(** In a feasible assignment the arc from the start depot to the delivery
    node of a request is never selected: the subset made of the start
    depot and that delivery node allows no arc inside it. *)
Theorem LB_no_arc_from_start_to_delivery (i : LBInput) (v : DARPModelLB.assignment)
    (r : Z) :
  DARPModelLB.feasible (lb_model_of i) v →
  r ∈ in_Requests i →
  delivery_name r ∈ in_P i ++ in_D i →
  (DARPModelLB.x_val v ("0_start", delivery_name r) == 0)%Q.
Proof. apply LB_start_to_delivery_unselected. Qed.

Lemma LB_no_arc_from_start_to_delivery_witness :
  (DARPModelLB.x_val example_solution ("0_start", delivery_name 2) == 0)%Q.
Proof.
  apply (LB_no_arc_from_start_to_delivery example_input example_solution 2).
  - apply feasibleb_feasible. vm_compute. reflexivity.
  - by_compute.
  - by_compute.
Defined.

(** ** The shape of the LB route summary *)

Lemma LB_walk_result (fuel : nat) (routes : list DARPModelLB.leg) (c : string)
    (path : list string) (times loads : list Q) res :
  DARPModelLB.walk fuel routes c path times loads = Some res →
  ∃ legs n,
    lb_walk_to routes c legs n
    ∧ (n = DARPModelLB.end_node ∨ DARPModelLB.next_leg routes n = None)
    ∧ res = (path ++ map DARPModelLB.to legs,
             times ++ map DARPModelLB.arrive_time legs,
             loads ++ map DARPModelLB.load_after legs).
Proof.
  revert c path times loads. induction fuel as [|fuel IH]; intros c path times loads; [done|].
  cbn [DARPModelLB.walk]. destruct (decide (c ≠ DARPModelLB.end_node)) as [Hc|Hc].
  - destruct (DARPModelLB.next_leg routes c) as [nl|] eqn:Hnl.
    + intros (legs & n & Hw & Hn & ->)%IH. exists (nl :: legs), n. split_and!.
      * by apply lb_walk_step.
      * done.
      * cbn [map]. by rewrite <- !app_assoc.
    + intros [= <-]. exists [], c. split_and!; [apply lb_walk_here|by right|].
      by rewrite !app_nil_r.
  - intros [= <-]. exists [], c. split_and!; [apply lb_walk_here| |].
    + left. by destruct (decide (c = DARPModelLB.end_node)).
    + by rewrite !app_nil_r.
Qed.

Lemma lb_walk_to_legs (routes : list DARPModelLB.leg) (c : string)
    (legs : list DARPModelLB.leg) (n : string) :
  lb_walk_to routes c legs n → ∀ nl, nl ∈ legs → nl ∈ routes.
Proof.
  induction 1 as [c|c nl legs n _ Hnl _ IH]; intros nl' Hin.
  - by apply elem_of_nil in Hin.
  - apply elem_of_cons in Hin as [->|Hin]; [|by apply IH].
    by apply next_leg_Some in Hnl as [? _].
Qed.

Lemma lb_walk_to_end (routes : list DARPModelLB.leg) (c : string)
    (legs : list DARPModelLB.leg) (n : string) :
  lb_walk_to routes c legs n →
  n = c ∨ ∃ nl, nl ∈ routes ∧ DARPModelLB.to nl = n.
Proof.
  induction 1 as [c|c nl legs n _ Hnl _ IH]; [by left|]. right.
  destruct IH as [->|IH]; [|done].
  apply next_leg_Some in Hnl as [? _]. eauto.
Qed.

Lemma lb_routes_legs (m : DARPModelLB.Model) (sol : DARPModelLB.assignment)
    (legs : list DARPModelLB.leg) :
  (∀ nl, nl ∈ legs → nl ∈ lb_routes m sol) →
  map DARPModelLB.arrive_time legs = map (DARPModelLB.B_val sol) (map DARPModelLB.to legs)
  ∧ map DARPModelLB.load_after legs
    = map (DARPModelLB.Q_val sol) (map DARPModelLB.to legs).
Proof.
  induction legs as [|nl legs IH]; intros Hlegs; [done|].
  destruct IH as [IH1 IH2]; [intros; apply Hlegs; by right|].
  assert (nl ∈ lb_routes m sol) as ([a b] & -> & _)%list_elem_of_fmap by (apply Hlegs; left).
  cbn [map leg_of DARPModelLB.arrive_time DARPModelLB.load_after DARPModelLB.to snd].
  by rewrite IH1, IH2.
Qed.

Lemma next_leg_None (routes : list DARPModelLB.leg) (c : string) :
  DARPModelLB.next_leg routes c = None →
  ∀ nl, nl ∈ routes → DARPModelLB.from nl ≠ c.
Proof.
  unfold DARPModelLB.next_leg. intros Hnone nl Hin%list_elem_of_In Hfrom.
  pose proof (find_none _ _ Hnone nl Hin) as Hb. cbv beta in Hb.
  by rewrite bool_decide_eq_true_2 in Hb.
Qed.

Lemma LB_group_routes_origin (fuel : nat) (all_routes todo : list DARPModelLB.leg)
    (summary summary' : gmap string DARPModelLB.route_info) :
  DARPModelLB.group_routes fuel all_routes todo summary = Ok summary' →
  ∀ k info, summary' !! k = Some info →
    summary !! k = Some info
    ∨ ∃ r, r ∈ todo ∧ DARPModelLB.from r = DARPModelLB.start_node
           ∧ DARPModelLB.to r = k
           ∧ DARPModelLB.walk fuel all_routes (DARPModelLB.to r)
               [DARPModelLB.from r; DARPModelLB.to r]
               [DARPModelLB.depart_time r; DARPModelLB.arrive_time r]
               [0%Q; DARPModelLB.load_after r]
             = Some (DARPModelLB.route info, DARPModelLB.times info,
                     DARPModelLB.loads info).
Proof.
  revert summary. induction todo as [|r todo IH]; intros summary Hg k info Hk.
  - injection Hg as <-. by left.
  - cbn [DARPModelLB.group_routes] in Hg.
    destruct (decide (DARPModelLB.from r = DARPModelLB.start_node)) as [Hstart|_].
    + destruct (DARPModelLB.walk _ _ _ _ _ _) as [[[path times] loads]|] eqn:Hw; [|done].
      pose proof Hw as [ext Hext]%LB_walk_prefix. cbn [fst] in Hext. subst path.
      cbn [app lookup list_lookup] in Hg.
      destruct (IH _ Hg k info Hk) as [Hprev|(r' & Hin & Hr')].
      * destruct (decide (DARPModelLB.to r = k)) as [<-|Hne].
        -- rewrite lookup_insert_eq in Hprev. injection Hprev as <-.
           right. exists r. split_and!; [left|done..].
        -- rewrite lookup_insert_ne in Hprev by done. by left.
      * right. exists r'. split; [by right|done].
    + destruct (IH _ Hg k info Hk) as [Hprev|(r' & Hin & Hr')]; [by left|].
      right. exists r'. split; [by right|done].
Qed.

Lemma LB_group_routes_keys (fuel : nat) (all_routes todo : list DARPModelLB.leg)
    (summary summary' : gmap string DARPModelLB.route_info) :
  DARPModelLB.group_routes fuel all_routes todo summary = Ok summary' →
  (∀ k, is_Some (summary !! k) → is_Some (summary' !! k))
  ∧ ∀ r, r ∈ todo → DARPModelLB.from r = DARPModelLB.start_node →
         is_Some (summary' !! DARPModelLB.to r).
Proof.
  revert summary. induction todo as [|r todo IH]; intros summary Hg.
  - injection Hg as <-. split; [done|]. by intros r ?%elem_of_nil.
  - cbn [DARPModelLB.group_routes] in Hg.
    destruct (decide (DARPModelLB.from r = DARPModelLB.start_node)) as [Hstart|Hns].
    + destruct (DARPModelLB.walk _ _ _ _ _ _) as [[[path times] loads]|] eqn:Hw; [|done].
      pose proof Hw as [ext Hext]%LB_walk_prefix. cbn [fst] in Hext. subst path.
      cbn [app lookup list_lookup] in Hg. destruct (IH _ Hg) as [Hmono Hkeys]. split.
      * intros k Hk. apply Hmono. rewrite lookup_insert.
        destruct (decide (DARPModelLB.to r = k)); [by eexists|done].
      * intros r' [->|Hin]%elem_of_cons Hr'; [|by apply Hkeys].
        apply Hmono. rewrite lookup_insert_eq. by eexists.
    + destruct (IH _ Hg) as [Hmono Hkeys]. split; [done|].
      intros r' [->|Hin]%elem_of_cons Hr'; [done|by apply Hkeys].
Qed.

Lemma LB_summary_shape (d : gmap string pyvalue) (i : LBInput)
    (sol : DARPModelLB.assignment) (fuel : nat) :
  lb_data_has d i →
  (DARPModelLB.__init__ d).2 = Ok tt →
  acyclic (lb_edge (lb_selected (lb_model_of i) sol)) →
  length (lb_selected (lb_model_of i) sol) + 2 ≤ fuel →
  ∃ summary,
    (DARPModelLB.get_route_summary fuel (lb_solved d sol)).2 = Ok (inr summary)
    ∧ (∀ j, is_Some (summary !! j) ↔ ("0_start", j) ∈ lb_selected (lb_model_of i) sol)
    ∧ ∀ j info, summary !! j = Some info →
        ∃ legs n,
          lb_walk_to (lb_routes (lb_model_of i) sol) j legs n
          ∧ (n = "0_end" ∨ DARPModelLB.next_leg (lb_routes (lb_model_of i) sol) n = None)
          ∧ DARPModelLB.route info = "0_start" :: j :: map DARPModelLB.to legs
          ∧ last (DARPModelLB.route info) = Some n
          ∧ DARPModelLB.times info
            = map (DARPModelLB.B_val sol) (DARPModelLB.route info)
          ∧ DARPModelLB.loads info
            = 0%Q :: map (DARPModelLB.Q_val sol) (j :: map DARPModelLB.to legs).
Proof.
  intros Hd Hinit Hacyc Hfuel.
  destruct (LB_reconstruction_returns d i sol fuel Hd Hinit Hacyc Hfuel) as (summary & Hg & Hs).
  exists summary. split_and!; [done| |].
  - intros j. split.
    + intros [info Hinfo].
      destruct (LB_group_routes_origin _ _ _ _ _ Hg j info Hinfo)
        as [Hempty|(r & Hr & Hfrom & Hto & _)]; [by rewrite lookup_empty in Hempty|].
      unfold lb_routes in Hr. apply list_elem_of_fmap in Hr as ([a b] & -> & Hab).
      cbn [leg_of DARPModelLB.from DARPModelLB.to fst snd] in Hfrom, Hto. by subst.
    + intros Hsel. apply LB_group_routes_keys in Hg as [_ Hkeys].
      apply (Hkeys (leg_of sol ("0_start", j))); [|done].
      unfold lb_routes. by apply list_elem_of_fmap_2.
  - intros j info Hinfo.
    destruct (LB_group_routes_origin _ _ _ _ _ Hg j info Hinfo)
      as [Hempty|(r & Hr & Hfrom & Hto & Hw)]; [by rewrite lookup_empty in Hempty|].
    unfold lb_routes in Hr. apply list_elem_of_fmap in Hr as ([a b] & -> & Hab).
    cbn [leg_of DARPModelLB.from DARPModelLB.to DARPModelLB.depart_time
         DARPModelLB.arrive_time DARPModelLB.load_after fst snd] in Hfrom, Hto, Hw.
    subst a b.
    apply LB_walk_result in Hw as (legs & n & Hwalk & Hn & Hres).
    injection Hres as Hroute Htimes Hloads.
    destruct (lb_routes_legs (lb_model_of i) sol legs (lb_walk_to_legs _ _ _ _ Hwalk))
      as [Harr Hload].
    exists legs, n. split_and!; [done|done|done| | |].
    + rewrite Hroute. apply (lb_walk_to_last _ _ _ _ ["0_start"] Hwalk).
    + rewrite Htimes, Hroute, Harr. reflexivity.
    + rewrite Hloads, Hload. reflexivity.
Qed.

(** For a constructed model and an assignment without a cycle among the
    selected arcs, the summary has exactly one entry per selected arc that
    leaves the start depot, keyed by the node that arc leads to. The route of the entry starts at
    the start depot, follows at every node the first selected arc leaving
    it, and stops at the end depot or at a node without a selected
    successor; the reported times are the values of [B] at the nodes of
    the route, and the reported loads are [0] followed by the values of
    [Q] at the nodes after the depot. *)
Theorem LB_route_summary_structure (d : gmap string pyvalue) (i : LBInput)
    (sol : DARPModelLB.assignment) (fuel : nat) :
  lb_data_has d i →
  (DARPModelLB.__init__ d).2 = Ok tt →
  acyclic (lb_edge (lb_selected (lb_model_of i) sol)) →
  length (lb_selected (lb_model_of i) sol) + 2 ≤ fuel →
  ∃ summary,
    (DARPModelLB.get_route_summary fuel (lb_solved d sol)).2 = Ok (inr summary)
    ∧ (∀ j, is_Some (summary !! j) ↔ ("0_start", j) ∈ lb_selected (lb_model_of i) sol)
    ∧ ∀ j info, summary !! j = Some info →
        ∃ legs n,
          lb_walk_to (lb_routes (lb_model_of i) sol) j legs n
          ∧ (n = "0_end" ∨ DARPModelLB.next_leg (lb_routes (lb_model_of i) sol) n = None)
          ∧ DARPModelLB.route info = "0_start" :: j :: map DARPModelLB.to legs
          ∧ last (DARPModelLB.route info) = Some n
          ∧ DARPModelLB.times info
            = map (DARPModelLB.B_val sol) (DARPModelLB.route info)
          ∧ DARPModelLB.loads info
            = 0%Q :: map (DARPModelLB.Q_val sol) (j :: map DARPModelLB.to legs).
Proof. apply LB_summary_shape. Qed.

Lemma LB_route_summary_structure_witness :
  ∃ summary,
    (DARPModelLB.get_route_summary 9
       (lb_solved Instances.get_example_instance example_solution)).2
    = Ok (inr summary)
    ∧ (∀ j, is_Some (summary !! j)
            ↔ ("0_start", j) ∈ lb_selected (lb_model_of example_input) example_solution)
    ∧ ∀ j info, summary !! j = Some info →
        ∃ legs n,
          lb_walk_to (lb_routes (lb_model_of example_input) example_solution) j legs n
          ∧ (n = "0_end"
             ∨ DARPModelLB.next_leg
                 (lb_routes (lb_model_of example_input) example_solution) n = None)
          ∧ DARPModelLB.route info = "0_start" :: j :: map DARPModelLB.to legs
          ∧ last (DARPModelLB.route info) = Some n
          ∧ DARPModelLB.times info
            = map (DARPModelLB.B_val example_solution) (DARPModelLB.route info)
          ∧ DARPModelLB.loads info
            = 0%Q :: map (DARPModelLB.Q_val example_solution)
                         (j :: map DARPModelLB.to legs).
Proof.
  apply (LB_route_summary_structure Instances.get_example_instance example_input
           example_solution 9).
  - apply example_data_has.
  - apply example_constructed.
  - apply (lb_acyclic_by_rank _ tour_rank). by_compute.
  - by_compute.
Defined.

(** ** Routes of a feasible LB assignment *)

Lemma LB_feasible_successor (i : LBInput) (v : DARPModelLB.assignment) (j : string) :
  DARPModelLB.feasible (lb_model_of i) v →
  j ∈ in_P i ++ in_D i →
  ∃ k, ∀ k', (j, k') ∈ lb_selected (lb_model_of i) v ↔ k' = k.
Proof.
  intros Hf Hj%LB_customer_nodes.
  pose proof (DARPModelLB.leave_once_holds _ _ Hf j Hj) as Hsum.
  unfold DARPModelLB.leave_once in Hsum. simpl in Hsum.
  apply (sum_binary_one (λ k, DARPModelLB.x_val v (j, k))) in Hsum as [k Hk].
  2:{ intros k [Hin _]%list_elem_of_filter. by apply (DARPModelLB.x_domain _ _ Hf). }
  exists k. intros k'. rewrite <- (list_elem_of_singleton k' k), <- Hk.
  unfold lb_selected. rewrite !list_elem_of_filter.
  cbn [lb_model_of DARPModelLB.A DARPModelLB.J]. split; [|tauto].
  intros [Hact Hin]. split_and!; [done..|]. apply elem_of_build_A in Hin. tauto.
Qed.

Lemma LB_feasible_predecessor (i : LBInput) (v : DARPModelLB.assignment) (j : string) :
  DARPModelLB.feasible (lb_model_of i) v →
  j ∈ in_P i ++ in_D i →
  ∃ k, ∀ k', (k', j) ∈ lb_selected (lb_model_of i) v ↔ k' = k.
Proof.
  intros Hf Hj%LB_customer_nodes.
  pose proof (DARPModelLB.visit_once_holds _ _ Hf j Hj) as Hsum.
  unfold DARPModelLB.visit_once in Hsum. simpl in Hsum.
  apply (sum_binary_one (λ k, DARPModelLB.x_val v (k, j))) in Hsum as [k Hk].
  2:{ intros k [Hin _]%list_elem_of_filter. by apply (DARPModelLB.x_domain _ _ Hf). }
  exists k. intros k'. rewrite <- (list_elem_of_singleton k' k), <- Hk.
  unfold lb_selected. rewrite !list_elem_of_filter.
  cbn [lb_model_of DARPModelLB.A DARPModelLB.J]. split; [|tauto].
  intros [Hact Hin]. split_and!; [done..|]. apply elem_of_build_A in Hin. tauto.
Qed.

Lemma lb_routes_elem_of (m : DARPModelLB.Model) (sol : DARPModelLB.assignment)
    (nl : DARPModelLB.leg) :
  nl ∈ lb_routes m sol
  ↔ (DARPModelLB.from nl, DARPModelLB.to nl) ∈ lb_selected m sol
    ∧ nl = leg_of sol (DARPModelLB.from nl, DARPModelLB.to nl).
Proof.
  unfold lb_routes. rewrite list_elem_of_fmap. split.
  - intros ([a b] & -> & Hab). done.
  - intros [Hsel Heq]. by eexists.
Qed.

Lemma next_leg_is_Some (routes : list DARPModelLB.leg) (c : string) (nl : DARPModelLB.leg) :
  nl ∈ routes → DARPModelLB.from nl = c →
  is_Some (DARPModelLB.next_leg routes c).
Proof.
  intros Hin Hfrom. destruct (DARPModelLB.next_leg routes c) eqn:Hnl; [by eexists|].
  by destruct (next_leg_None _ _ Hnl nl Hin).
Qed.

Lemma lb_walk_to_snoc (routes : list DARPModelLB.leg) (c : string)
    (legs : list DARPModelLB.leg) (n : string) (nl : DARPModelLB.leg) :
  lb_walk_to routes c legs n →
  n ≠ DARPModelLB.end_node →
  DARPModelLB.next_leg routes n = Some nl →
  lb_walk_to routes c (legs ++ [nl]) (DARPModelLB.to nl).
Proof.
  induction 1 as [c|c nl' legs n Hc Hnl' _ IH]; intros Hn Hnl.
  - apply lb_walk_step; [done..|apply lb_walk_here].
  - cbn [app]. apply lb_walk_step; [done..|by apply IH].
Qed.

Lemma lb_walk_to_passes (routes : list DARPModelLB.leg) (c : string)
    (legs legs' : list DARPModelLB.leg) (n n' : string) :
  lb_walk_to routes c legs n →
  lb_walk_to routes c legs' n' →
  n' = DARPModelLB.end_node ∨ DARPModelLB.next_leg routes n' = None →
  n ∈ c :: map DARPModelLB.to legs'.
Proof.
  intros Hw. revert legs'. induction Hw as [c|c nl legs n Hc Hnl _ IH]; intros legs' Hw' Hn'.
  - left.
  - inversion Hw' as [c'|c' nl' legs'' n'' _ Hnl' Hrest]; subst.
    + destruct Hn' as [->|Hnone]; [done|]. by rewrite Hnone in Hnl.
    + rewrite Hnl in Hnl'. injection Hnl' as <-. right. cbn [map]. by apply IH.
Qed.

Lemma length_filter_lt_mono {T} (P1 P2 : T → Prop) `{!∀ a, Decision (P1 a)}
    `{!∀ a, Decision (P2 a)} (xs : list T) (p : T) :
  (∀ a, P1 a → P2 a) → p ∈ xs → P2 p → ¬ P1 p →
  length (filter P1 xs) < length (filter P2 xs).
Proof.
  intros Hsub Hp H2 H1. induction xs as [|a xs IH]; [by apply elem_of_nil in Hp|].
  assert (length (filter P1 xs) ≤ length (filter P2 xs)) as Hle.
  { clear IH Hp. induction xs as [|b xs IH]; [done|].
    rewrite !filter_cons. destruct (decide (P1 b)) as [Hb|Hb].
    - rewrite decide_True by auto. cbn [length]. lia.
    - destruct (decide (P2 b)); cbn [length]; lia. }
  rewrite !filter_cons. apply elem_of_cons in Hp as [<-|Hp].
  - rewrite decide_False, decide_True by done. cbn [length]. lia.
  - specialize (IH Hp). destruct (decide (P1 a)) as [Ha|Ha].
    + rewrite decide_True by auto. cbn [length]. lia.
    + destruct (decide (P2 a)); cbn [length]; lia.
Qed.

Lemma Qgtb_lt (a b : Q) : Qgtb a b ↔ (b < a)%Q.
Proof.
  unfold Qgtb. destruct (Qle_bool a b) eqn:Hle; simpl.
  - apply Qle_bool_iff in Hle. split; [done|]. intros Hlt. lra.
  - split; [intros _|done]. apply Qnot_le_lt. intros Hab.
    apply Qle_bool_iff in Hab. congruence.
Qed.

Lemma LB_selected_arc (i : LBInput) (v : DARPModelLB.assignment) (a b : string) :
  (a, b) ∈ lb_selected (lb_model_of i) v →
  (a = "0_start" ∨ a ∈ in_P i ++ in_D i)
  ∧ (b ∈ in_P i ++ in_D i ∨ b = "0_end").
Proof.
  intros [_ Hab]%list_elem_of_filter.
  apply LB_arcs in Hab as (Ha%LB_nodes & Hb%LB_nodes & _ & Hae & Hbs). tauto.
Qed.

Lemma LB_feasible_reached (i : LBInput) (v : DARPModelLB.assignment) :
  DARPModelLB.feasible (lb_model_of i) v →
  (∀ a b, (a, b) ∈ DARPModelLB.A (lb_model_of i) →
          (0 < DARPModelLB.s (lb_model_of i) a + DARPModelLB.t (lb_model_of i) (a, b))%Q) →
  ∀ c, c ∈ in_P i ++ in_D i →
    ∃ j legs, ("0_start", j) ∈ lb_selected (lb_model_of i) v
              ∧ lb_walk_to (lb_routes (lb_model_of i) v) j legs c.
Proof.
  intros Hf Hpos c.
  remember (length (filter (λ k, Qgtb (DARPModelLB.B_val v c) (DARPModelLB.B_val v k))
                           (DARPModelLB.J (lb_model_of i)))) as n eqn:Hn.
  revert c Hn. induction (lt_wf n) as [n _ IH]. intros c -> Hc.
  destruct (LB_feasible_predecessor i v c Hf Hc) as [p Hp].
  assert ((p, c) ∈ lb_selected (lb_model_of i) v) as Hsel by by apply Hp.
  destruct (LB_selected_arc i v p c Hsel) as [[->|Hpc] _].
  { exists c, []. split; [done|apply lb_walk_here]. }
  assert (DARPModelLB.B_val v p < DARPModelLB.B_val v c)%Q as Hlt.
  { pose proof (LB_selected_arc_advances_time _ _ _ _ Hf Hsel) as Hadv.
    apply list_elem_of_filter in Hsel as [_ Hin]. specialize (Hpos p c Hin). lra. }
  assert (length (filter (λ k, Qgtb (DARPModelLB.B_val v p) (DARPModelLB.B_val v k))
                         (DARPModelLB.J (lb_model_of i)))
          < length (filter (λ k, Qgtb (DARPModelLB.B_val v c) (DARPModelLB.B_val v k))
                           (DARPModelLB.J (lb_model_of i)))) as Hless.
  { apply (length_filter_lt_mono _ _ _ p).
    - intros k. rewrite !Qgtb_lt. lra.
    - apply LB_nodes. tauto.
    - by apply Qgtb_lt.
    - rewrite Qgtb_lt. lra. }
  destruct (IH _ Hless p eq_refl Hpc) as (j & legs & Hj & Hw).
  assert (is_Some (DARPModelLB.next_leg (lb_routes (lb_model_of i) v) p)) as [nl Hnl].
  { apply (next_leg_is_Some _ _ (leg_of v (p, c))); [|done].
    unfold lb_routes. by apply list_elem_of_fmap_2. }
  assert (DARPModelLB.to nl = c) as Hto.
  { pose proof Hnl as [Hin Hfrom]%next_leg_Some.
    apply lb_routes_elem_of in Hin as [Hin _]. rewrite Hfrom in Hin.
    destruct (LB_feasible_successor i v p Hf Hpc) as [k Hk].
    apply Hk in Hin, Hsel. congruence. }
  exists j, (legs ++ [nl]). split; [done|]. rewrite <- Hto.
  apply (lb_walk_to_snoc _ _ _ p); [done| |done].
  apply list_elem_of_filter in Hsel as [_ Hin]. apply LB_arcs in Hin. tauto.
Qed.

Lemma LB_feasible_walk_ends (i : LBInput) (v : DARPModelLB.assignment)
    (j : string) (legs : list DARPModelLB.leg) (n : string) :
  DARPModelLB.feasible (lb_model_of i) v →
  ("0_start", j) ∈ lb_selected (lb_model_of i) v →
  lb_walk_to (lb_routes (lb_model_of i) v) j legs n →
  n = "0_end" ∨ DARPModelLB.next_leg (lb_routes (lb_model_of i) v) n = None →
  n = "0_end".
Proof.
  intros Hf Hj Hw [Hn|Hnone]; [done|].
  assert (n ∈ in_P i ++ in_D i ∨ n = "0_end") as Hcases.
  { destruct (lb_walk_to_end _ _ _ _ Hw) as [->|(nl & Hin & <-)].
    - by destruct (LB_selected_arc i v _ _ Hj).
    - apply lb_routes_elem_of in Hin as [Hin _].
      by destruct (LB_selected_arc i v _ _ Hin). }
  destruct Hcases as [Hc|Hn]; [|done].
  destruct (LB_feasible_successor i v n Hf Hc) as [k Hk].
  assert (is_Some (DARPModelLB.next_leg (lb_routes (lb_model_of i) v) n)) as [nl Hnl].
  { apply (next_leg_is_Some _ _ (leg_of v (n, k))); [|done].
    unfold lb_routes. apply list_elem_of_fmap_2. by apply Hk. }
  congruence.
Qed.

(** Under a feasible assignment of a constructed model whose arcs all take a
    positive time, the reconstruction returns a summary, every route of the summary
    runs from the start depot to the end depot, and every pickup and
    delivery node lies on one of the routes. *)
Theorem LB_feasible_routes_are_complete (d : gmap string pyvalue) (i : LBInput)
    (v : DARPModelLB.assignment) (fuel : nat) :
  lb_data_has d i →
  (DARPModelLB.__init__ d).2 = Ok tt →
  DARPModelLB.feasible (lb_model_of i) v →
  (∀ a b, (a, b) ∈ DARPModelLB.A (lb_model_of i) →
          (0 < DARPModelLB.s (lb_model_of i) a + DARPModelLB.t (lb_model_of i) (a, b))%Q) →
  length (lb_selected (lb_model_of i) v) + 2 ≤ fuel →
  ∃ summary,
    (DARPModelLB.get_route_summary fuel (lb_solved d v)).2 = Ok (inr summary)
    ∧ (∀ j info, summary !! j = Some info →
         head (DARPModelLB.route info) = Some "0_start"
         ∧ last (DARPModelLB.route info) = Some "0_end")
    ∧ ∀ c, c ∈ in_P i ++ in_D i →
        ∃ j info, summary !! j = Some info ∧ c ∈ DARPModelLB.route info.
Proof.
  intros Hd Hinit Hf Hpos Hfuel.
  destruct (LB_summary_shape d i v fuel Hd Hinit (LB_time_potential_acyclic _ _ Hf Hpos) Hfuel)
    as (summary & Hs & Hkeys & Hentries).
  exists summary. split_and!; [done| |].
  - intros j info Hinfo.
    destruct (Hentries j info Hinfo) as (legs & n & Hw & Hn & Hroute & Hlast & _).
    split; [by rewrite Hroute|]. rewrite Hlast. f_equal.
    apply (LB_feasible_walk_ends i v j legs n Hf); [|done..].
    apply Hkeys. by eexists.
  - intros c Hc.
    destruct (LB_feasible_reached i v Hf Hpos c Hc) as (j & legs & Hj & Hw).
    apply Hkeys in Hj as [info Hinfo]. exists j, info. split; [done|].
    destruct (Hentries j info Hinfo) as (legs' & n & Hw' & Hn & Hroute & _).
    rewrite Hroute. right. exact (lb_walk_to_passes _ _ _ _ _ _ Hw Hw' Hn).
Qed.

Lemma LB_feasible_routes_are_complete_witness :
  ∃ summary,
    (DARPModelLB.get_route_summary 9
       (lb_solved Instances.get_example_instance example_solution)).2
    = Ok (inr summary)
    ∧ (∀ j info, summary !! j = Some info →
         head (DARPModelLB.route info) = Some "0_start"
         ∧ last (DARPModelLB.route info) = Some "0_end")
    ∧ ∀ c, c ∈ in_P example_input ++ in_D example_input →
        ∃ j info, summary !! j = Some info ∧ c ∈ DARPModelLB.route info.
Proof.
  apply (LB_feasible_routes_are_complete Instances.get_example_instance example_input
           example_solution 9).
  - apply example_data_has.
  - apply example_constructed.
  - apply example_solution_feasible.
  - apply example_durations_positive.
  - by_compute.
Defined.

(** ** The LAEB constructor *)

(** For every data bundle the LAEB constructor raises an exception and
    returns no object. When validation and the declaration of the sets,
    parameters and earlier rules pass, the rule [fleet_limit] stops the
    construction: its test [a[0] == ('0',)] compares a component of an
    event-arc with a tuple, selects no arc, and the rule returns the
    Boolean [0 <= K], which Pyomo refuses. *)
Theorem LAEB_constructor_never_returns (d : gmap string pyvalue) :
  (∃ e, DARPModelLAEB.__init__ d
        = (DARPModelLAEB.mkSelf d DARPModelLAEB.Fresh, Raise e))
  ∧ ∀ m, ∃ e, DARPModelLAEB.fleet_limit m = Raise e.
Proof. split; [apply LAEB_init_raises|apply LAEB_fleet_limit_raises]. Qed.

(** ** Reconstruction on a model without a loaded solution *)

Lemma LB_solve_without_solution (self : DARPModelLB.Self) :
  (DARPModelLB.solve None self).1 = self.
Proof. reflexivity. Qed.

Lemma LB_collect_routes_unset (m : DARPModelLB.Model) (a : arc) (keys : list arc)
    (acc : list DARPModelLB.leg) :
  a ∈ index (DARPModelLB.x m) → values (DARPModelLB.x m) a = None →
  DARPModelLB.collect_routes m (a :: keys) acc = Raise (ValueError_in "x").
Proof.
  intros Hin Hval. destruct a as [p q]. cbn [DARPModelLB.collect_routes].
  assert (value "x" (DARPModelLB.x m) (p, q) = Raise (ValueError_in "x")) as ->.
  { unfold value. rewrite decide_True by done. by rewrite Hval. }
  reflexivity.
Qed.

(** An LB model that was constructed and holds no solution, because
    [solve] was not called or because the solver loaded none, never
    answers [get_route_summary] with its "not solved" message: the method
    fails with the [ValueError] of [value] on the first arc, since the arc
    from the start depot to the end depot is always there. *)
Theorem summary_without_solution (d : gmap string pyvalue) (i : LBInput) (fuel : nat) :
  lb_data_has d i →
  (DARPModelLB.__init__ d).2 = Ok tt →
  (DARPModelLB.get_route_summary fuel (DARPModelLB.__init__ d).1).2
  = Raise (ValueError_in "x")
  ∧ (DARPModelLB.get_route_summary fuel
       (DARPModelLB.solve None (DARPModelLB.__init__ d).1).1).2
    = Raise (ValueError_in "x").
Proof.
  intros Hd Hc. rewrite LB_solve_without_solution.
  assert ((DARPModelLB.get_route_summary fuel (DARPModelLB.__init__ d).1).2
          = Raise (ValueError_in "x")) as Hraise; [|done].
  rewrite (LB_init_ok d i Hd Hc). cbn [fst].
  unfold DARPModelLB.get_route_summary.
  unfold mbind, M_bind, mbind_M, get, lift, mret, M_ret.
  cbn [fst snd DARPModelLB.model].
  assert (("0_start", "0_end") ∈ index (DARPModelLB.x (lb_model_of i))) as Hin.
  { cbn [lb_model_of DARPModelLB.x Var_declare index].
    apply elem_of_build_A. rewrite !elem_of_build_J. split_and!; auto. }
  destruct (index (DARPModelLB.x (lb_model_of i))) as [|a keys] eqn:Hkeys;
    [by apply elem_of_nil in Hin|].
  rewrite LB_collect_routes_unset; [done| |done].
  rewrite Hkeys. left.
Qed.

Lemma summary_without_solution_witness :
  (DARPModelLB.get_route_summary 9
     (DARPModelLB.__init__ Instances.get_example_instance).1).2
  = Raise (ValueError_in "x")
  ∧ (DARPModelLB.get_route_summary 9
       (DARPModelLB.solve None
          (DARPModelLB.__init__ Instances.get_example_instance).1).1).2
    = Raise (ValueError_in "x").
Proof.
  apply (summary_without_solution Instances.get_example_instance example_input 9).
  - apply example_data_has.
  - apply example_constructed.
Defined.

(** ** The routes that the LAEB reconstruction reports *)

(** Whatever the model and the values of its variables, the LAEB
    [get_route_summary] reports no route: it returns its "not solved"
    message or the empty list, or it raises. The arcs that leave the depot
    are selected by [a[0] == ('0',)], and a component of a member of the
    set [A] is a string or a number, never a tuple. *)
Theorem LAEB_reconstruction_reports_no_route (fuel : nat) (self : DARPModelLAEB.Self) :
  (DARPModelLAEB.get_route_summary fuel self).2 = Ok (inl "Modelo no resuelto.")
  ∨ (DARPModelLAEB.get_route_summary fuel self).2 = Ok (inr [])
  ∨ ∃ e, (DARPModelLAEB.get_route_summary fuel self).2 = Raise e.
Proof. apply LAEB_get_route_summary_outcome. Qed.

(** ** The fleet limit and the number of LB routes *)

Lemma LB_summary_within_fleet (i : LBInput) (v : DARPModelLB.assignment)
    (summary : gmap string DARPModelLB.route_info) :
  DARPModelLB.feasible (lb_model_of i) v →
  (∀ j, j ∈ in_D i → ∃ r, r ∈ in_Requests i ∧ j = delivery_name r) →
  (∀ j, is_Some (summary !! j) ↔ ("0_start", j) ∈ lb_selected (lb_model_of i) v) →
  (inject_Z (Z.of_nat (size (delete "0_end" summary))) <= in_vehicles i)%Q.
Proof.
  intros Hf HD Hkeys.
  pose proof (DARPModelLB.fleet_limit_holds _ _ Hf) as Hfleet.
  unfold DARPModelLB.fleet_limit in Hfleet. cbn [holds] in Hfleet.
  rewrite (sum_binary_count (λ j, DARPModelLB.x_val v (DARPModelLB.start_node, j)))
    in Hfleet.
  2:{ intros j [Hj _]%list_elem_of_filter. by apply (DARPModelLB.x_domain _ _ Hf). }
  cbn [lb_model_of DARPModelLB.K] in Hfleet.
  eapply Qle_trans; [|exact Hfleet]. rewrite <- Zle_Qle. apply inj_le.
  rewrite <- length_map_to_list, <- (length_fmap fst).
  apply submseteq_length, NoDup_submseteq; [apply NoDup_fst_map_to_list|].
  intros j ([j' info] & -> & Hin%elem_of_map_to_list)%list_elem_of_fmap. cbn [fst].
  apply lookup_delete_Some in Hin as [Hne Hin].
  assert (("0_start", j') ∈ lb_selected (lb_model_of i) v) as Hsel
    by (apply Hkeys; by eexists).
  pose proof Hsel as [Hact HA]%list_elem_of_filter.
  destruct (LB_selected_arc i v _ _ Hsel) as [_ [Hj|Hj]]; [|done].
  apply list_elem_of_filter. split; [done|]. apply list_elem_of_filter. split; [done|].
  cbn [lb_model_of DARPModelLB.P]. apply elem_of_Set_initialize.
  apply elem_of_app in Hj as [Hj|Hj]; [done|]. exfalso.
  destruct (HD j' Hj) as (r & Hr & ->).
  pose proof (LB_start_to_delivery_unselected i v r Hf Hr
                ltac:(apply elem_of_app; by right)) as Hzero.
  pose proof (active_binary _ (DARPModelLB.x_domain _ _ Hf _ HA)) as Hbin.
  destruct (active _); [|done]. rewrite Hzero in Hbin. discriminate Hbin.
Qed.

(** Under a feasible assignment of a constructed model whose arcs all take a
    positive time and whose delivery nodes are the deliveries of its requests, the
    summary holds at most [K] routes besides the one, if any, that goes
    from the start depot straight to the end depot. *)
Theorem LB_fleet_limit_bounds_routes (d : gmap string pyvalue) (i : LBInput)
    (v : DARPModelLB.assignment) (fuel : nat) :
  lb_data_has d i →
  (DARPModelLB.__init__ d).2 = Ok tt →
  DARPModelLB.feasible (lb_model_of i) v →
  (∀ a b, (a, b) ∈ DARPModelLB.A (lb_model_of i) →
          (0 < DARPModelLB.s (lb_model_of i) a + DARPModelLB.t (lb_model_of i) (a, b))%Q) →
  (∀ j, j ∈ in_D i → ∃ r, r ∈ in_Requests i ∧ j = delivery_name r) →
  length (lb_selected (lb_model_of i) v) + 2 ≤ fuel →
  ∃ summary,
    (DARPModelLB.get_route_summary fuel (lb_solved d v)).2 = Ok (inr summary)
    ∧ (inject_Z (Z.of_nat (size (delete "0_end" summary))) <= in_vehicles i)%Q.
Proof.
  intros Hd Hinit Hf Hpos HD Hfuel.
  destruct (LB_summary_shape d i v fuel Hd Hinit (LB_time_potential_acyclic _ _ Hf Hpos) Hfuel)
    as (summary & Hs & Hkeys & _).
  exists summary. split; [done|]. by apply (LB_summary_within_fleet i v).
Qed.

Lemma example_deliveries_of_requests (j : string) :
  j ∈ in_D example_input → ∃ r, r ∈ in_Requests example_input ∧ j = delivery_name r.
Proof.
  intros Hj. cbn [example_input in_D in_Requests] in *.
  unfold Instances.example_deliveries in Hj.
  apply list_elem_of_fmap in Hj as (r & -> & Hr). eauto.
Qed.

Lemma LB_fleet_limit_bounds_routes_witness :
  ∃ summary,
    (DARPModelLB.get_route_summary 9
       (lb_solved Instances.get_example_instance example_solution)).2
    = Ok (inr summary)
    ∧ (inject_Z (Z.of_nat (size (delete "0_end" summary))) <= in_vehicles example_input)%Q.
Proof.
  apply (LB_fleet_limit_bounds_routes Instances.get_example_instance example_input
           example_solution 9).
  - apply example_data_has.
  - apply example_constructed.
  - apply example_solution_feasible.
  - apply example_durations_positive.
  - apply example_deliveries_of_requests.
  - by_compute.
Defined.

(** ** Pickup before delivery on the routes of a feasible LB assignment *)

(** A set the pairing-and-precedence constraints range over cannot have a
    selected arc from inside the set into each of its nodes other than the
    start depot: that would be one arc more than its constraint allows. *)
Lemma LB_precedence_cut (i : LBInput) (v : DARPModelLB.assignment) (S_set : gset string) :
  DARPModelLB.feasible (lb_model_of i) v →
  precedence_violating (in_Requests i) (in_P i) (in_D i) S_set →
  ¬ (∀ n, n ∈ S_set → n ≠ "0_start" →
          ∃ k, k ∈ S_set ∧ (k, n) ∈ lb_selected (lb_model_of i) v).
Proof.
  intros Hf Hpv Hin.
  assert ("0_start" ∈ S_set) as Hstart.
  { destruct Hpv as [(T & _ & ->) _]. by apply elem_of_union_l, elem_of_singleton. }
  apply s_sets_of_precedence_violating in Hpv.
  apply list_elem_of_fmap in Hpv as (S_tuple & HS & Hmem).
  pose proof Hmem as (sub & _ & _ & _ & Htuple)%elem_of_s_sets_of.
  assert (S_tuple = elements S_set) as ->.
  { rewrite Htuple in HS |- *. rewrite list_to_set_elements_L in HS. by rewrite HS. }
  clear Htuple HS sub.
  apply list_elem_of_lookup in Hmem as [idx Hidx].
  destruct (DARPModelLB.precedence_pairing_holds _ _ Hf idx) as (rel & Hrel & Hholds).
  { cbn [lb_model_of DARPModelLB.S_Indices]. apply elem_of_seq.
    apply lookup_lt_Some in Hidx. lia. }
  unfold DARPModelLB.precedence_pairing in Hrel.
  cbn [lb_model_of DARPModelLB.S_Sets] in Hrel. rewrite Hidx in Hrel.
  injection Hrel as <-. cbn [holds] in Hholds.
  rewrite (sum_binary_count (DARPModelLB.x_val v)) in Hholds.
  2:{ intros [a b] [HA _]%elem_of_arcs_in. by apply (DARPModelLB.x_domain _ _ Hf). }
  rewrite <- Zle_Qle in Hholds.
  set (L := filter (λ a, active (DARPModelLB.x_val v a))
                   (DARPModelLB.arcs_in (lb_model_of i) (elements S_set))) in *.
  assert (length (elements (S_set ∖ {[ "0_start" ]})) ≤ length L) as Hcover.
  { apply Nat.le_trans with (length (snd <$> L)); [|by rewrite length_fmap].
    apply submseteq_length, NoDup_submseteq; [apply NoDup_elements|].
    intros n [HnS Hns%not_elem_of_singleton]%elem_of_elements%elem_of_difference.
    destruct (Hin n HnS Hns) as (k & Hk & [Hact HA]%list_elem_of_filter).
    apply list_elem_of_fmap. exists (k, n). split; [done|].
    apply list_elem_of_filter. split; [done|].
    apply elem_of_arcs_in. by rewrite !elem_of_elements. }
  assert (size S_set = S (size (S_set ∖ {[ "0_start" ]}))) as Hsize.
  { rewrite size_difference by by apply singleton_subseteq_l.
    rewrite size_singleton. assert (size S_set ≠ 0%nat); [|lia].
    apply size_non_empty_iff. intros HS. rewrite HS in Hstart. set_solver. }
  change (length (elements S_set)) with (size S_set) in Hholds.
  change (length (elements (S_set ∖ {[ "0_start" ]})))
    with (size (S_set ∖ {[ "0_start" ]})) in Hcover.
  lia.
Qed.

Lemma lb_walk_to_from (routes : list DARPModelLB.leg) (c : string)
    (legs : list DARPModelLB.leg) (n : string) :
  lb_walk_to routes c legs n →
  ∀ nl, nl ∈ legs → DARPModelLB.from nl ∈ c :: map DARPModelLB.to legs.
Proof.
  induction 1 as [c|c nl legs n _ Hnl _ IH]; intros nl' Hin.
  - by apply elem_of_nil in Hin.
  - apply elem_of_cons in Hin as [->|Hin].
    + apply next_leg_Some in Hnl as [_ ->]. left.
    + right. cbn [map]. by apply IH.
Qed.

Lemma lb_walk_to_inner (routes : list DARPModelLB.leg) (c : string)
    (legs : list DARPModelLB.leg) (n : string) :
  lb_walk_to routes c legs n →
  ∀ k, k ∈ c :: map DARPModelLB.to legs → k = n ∨ k ≠ DARPModelLB.end_node.
Proof.
  induction 1 as [c|c nl legs n Hc _ _ IH]; intros k Hk.
  - apply list_elem_of_singleton in Hk. by left.
  - apply elem_of_cons in Hk as [->|Hk]; [by right|]. by apply IH.
Qed.

Lemma lb_walk_to_prefix (routes : list DARPModelLB.leg) (c : string)
    (legs legs' : list DARPModelLB.leg) (n n' : string) :
  lb_walk_to routes c legs n →
  lb_walk_to routes c legs' n' →
  n' = DARPModelLB.end_node ∨ DARPModelLB.next_leg routes n' = None →
  ∃ rest, legs' = legs ++ rest.
Proof.
  intros Hw. revert legs'. induction Hw as [c|c nl legs n Hc Hnl _ IH]; intros legs' Hw' Hn'.
  - by exists legs'.
  - inversion Hw' as [c'|c' nl' legs'' n'' _ Hnl' Hrest]; subst.
    + destruct Hn' as [->|Hnone]; [done|]. by rewrite Hnone in Hnl.
    + rewrite Hnl in Hnl'. injection Hnl' as <-.
      destruct (IH _ Hrest Hn') as [rest ->]. by exists rest.
Qed.

Lemma elem_of_before_last {T} (xs : list T) (p d : T) :
  p ∈ xs → last xs = Some d → p ≠ d → ∃ pre mid, xs = pre ++ p :: mid ++ [d].
Proof.
  intros Hp Hlast Hne. apply last_Some in Hlast as [l' ->].
  apply elem_of_app in Hp as [Hp|Hp%list_elem_of_singleton]; [|done].
  apply list_elem_of_split in Hp as (pre & mid & ->). exists pre, mid.
  by rewrite <- app_assoc.
Qed.

Lemma LB_pickup_first (d : gmap string pyvalue) (i : LBInput)
    (v : DARPModelLB.assignment) (fuel : nat) (r : Z) :
  lb_data_has d i →
  (DARPModelLB.__init__ d).2 = Ok tt →
  DARPModelLB.feasible (lb_model_of i) v →
  (∀ a b, (a, b) ∈ DARPModelLB.A (lb_model_of i) →
          (0 < DARPModelLB.s (lb_model_of i) a + DARPModelLB.t (lb_model_of i) (a, b))%Q) →
  length (lb_selected (lb_model_of i) v) + 2 ≤ fuel →
  r ∈ in_Requests i →
  delivery_name r ∈ in_P i ++ in_D i →
  ∃ summary,
    (DARPModelLB.get_route_summary fuel (lb_solved d v)).2 = Ok (inr summary)
    ∧ ∃ j info pre mid post,
        summary !! j = Some info
        ∧ DARPModelLB.route info
          = pre ++ pickup_name r :: mid ++ delivery_name r :: post.
Proof.
  intros Hd Hinit Hf Hpos Hfuel Hr Hdel.
  destruct (LB_summary_shape d i v fuel Hd Hinit (LB_time_potential_acyclic _ _ Hf Hpos) Hfuel)
    as (summary & Hs & Hkeys & Hentries).
  exists summary. split; [done|].
  destruct (LB_feasible_reached i v Hf Hpos _ Hdel) as (j & legs & Hj & Hw).
  set (nodes := j :: map DARPModelLB.to legs).
  pose proof (lb_walk_to_last _ _ _ _ [] Hw) as Hlast. cbn [app] in Hlast. fold nodes in Hlast.
  destruct (decide (pickup_name r ∈ nodes)) as [Hp|Hp].
  - destruct (elem_of_before_last nodes _ _ Hp Hlast) as (pre & mid & Hnodes);
      [apply append_plus_not_dash|].
    pose proof Hj as [info Hinfo]%Hkeys.
    destruct (Hentries j info Hinfo) as (legs' & n & Hw' & Hn & Hroute & _).
    destruct (lb_walk_to_prefix _ _ _ _ _ _ Hw Hw' Hn) as [rest ->].
    exists j, info, ("0_start" :: pre), mid, (map DARPModelLB.to rest).
    split; [done|]. rewrite Hroute, map_app.
    change (j :: map DARPModelLB.to legs ++ map DARPModelLB.to rest)
      with (nodes ++ map DARPModelLB.to rest).
    rewrite Hnodes. cbn [app]. by rewrite <- app_assoc, <- app_comm_cons, <- app_assoc.
  - exfalso.
    assert (delivery_name r ∈ nodes) as Hdn.
    { apply last_Some in Hlast as [l' ->]. apply elem_of_app. right. left. }
    assert (∀ k, k ∈ nodes → k ∈ in_P i ++ in_D i) as Hcust.
    { intros k Hk. destruct (lb_walk_to_inner _ _ _ _ Hw k Hk) as [->|Hne]; [done|].
      apply elem_of_cons in Hk as [->|Hk].
      - by destruct (LB_selected_arc i v _ _ Hj) as [_ [?|?]].
      - apply list_elem_of_fmap in Hk as (nl & -> & Hnl).
        apply (lb_walk_to_legs _ _ _ _ Hw), lb_routes_elem_of in Hnl as [Hnl _].
        by destruct (LB_selected_arc i v _ _ Hnl) as [_ [?|?]]. }
    apply (LB_precedence_cut i v ({[ "0_start" ]} ∪ list_to_set nodes) Hf).
    + split.
      * exists (list_to_set nodes). split; [|done].
        intros k Hk%elem_of_list_to_set. by apply elem_of_list_to_set, Hcust.
      * exists r. split_and!; [done| |].
        -- by apply elem_of_union_r, elem_of_list_to_set.
        -- intros [Hs1%elem_of_singleton|Hs2%elem_of_list_to_set]%elem_of_union;
             [by apply append_plus_not_start in Hs1|done].
    + intros n [Hn%elem_of_singleton|Hn%elem_of_list_to_set]%elem_of_union Hns; [done|].
      apply elem_of_cons in Hn as [->|Hn].
      * exists "0_start". split; [by apply elem_of_union_l, elem_of_singleton|done].
      * apply list_elem_of_fmap in Hn as (nl & -> & Hnl).
        exists (DARPModelLB.from nl). split.
        -- apply elem_of_union_r, elem_of_list_to_set.
           by apply (lb_walk_to_from _ _ _ _ Hw).
        -- by apply (lb_walk_to_legs _ _ _ _ Hw), lb_routes_elem_of in Hnl as [Hnl _].
Qed.

(** Under a feasible assignment of a constructed model whose arcs all take a
    positive time, the delivery node of every request lies on a route of the
    summary on which the pickup node of the same request comes first. *)
Theorem LB_pickup_precedes_delivery (d : gmap string pyvalue) (i : LBInput)
    (v : DARPModelLB.assignment) (fuel : nat) (r : Z) :
  lb_data_has d i →
  (DARPModelLB.__init__ d).2 = Ok tt →
  DARPModelLB.feasible (lb_model_of i) v →
  (∀ a b, (a, b) ∈ DARPModelLB.A (lb_model_of i) →
          (0 < DARPModelLB.s (lb_model_of i) a + DARPModelLB.t (lb_model_of i) (a, b))%Q) →
  length (lb_selected (lb_model_of i) v) + 2 ≤ fuel →
  r ∈ in_Requests i →
  delivery_name r ∈ in_P i ++ in_D i →
  ∃ summary,
    (DARPModelLB.get_route_summary fuel (lb_solved d v)).2 = Ok (inr summary)
    ∧ ∃ j info pre mid post,
        summary !! j = Some info
        ∧ DARPModelLB.route info
          = pre ++ pickup_name r :: mid ++ delivery_name r :: post.
Proof. apply LB_pickup_first. Qed.

Lemma LB_pickup_precedes_delivery_witness :
  ∃ summary,
    (DARPModelLB.get_route_summary 9
       (lb_solved Instances.get_example_instance example_solution)).2
    = Ok (inr summary)
    ∧ ∃ j info pre mid post,
        summary !! j = Some info
        ∧ DARPModelLB.route info
          = pre ++ pickup_name 2 :: mid ++ delivery_name 2 :: post.
Proof.
  apply (LB_pickup_precedes_delivery Instances.get_example_instance example_input
           example_solution 9 2).
  - apply example_data_has.
  - apply example_constructed.
  - apply example_solution_feasible.
  - apply example_durations_positive.
  - by_compute.
  - by_compute.
  - by_compute.
Defined.

(** ** Times and loads along the routes of a feasible LB assignment *)

Lemma LB_selected_arc_advances_load (m : DARPModelLB.Model)
    (v : DARPModelLB.assignment) (i j : string) :
  DARPModelLB.feasible m v →
  (i, j) ∈ lb_selected m v →
  (DARPModelLB.Q_val v i + DARPModelLB.q m j <= DARPModelLB.Q_val v j)%Q.
Proof.
  intros Hf [Hact Hin]%list_elem_of_filter.
  assert (DARPModelLB.x_val v (i, j) == 1)%Q as Hx.
  { apply active_true_one; [by apply (DARPModelLB.x_domain m v Hf)|].
    by destruct (active _). }
  pose proof (DARPModelLB.load_consistency_holds m v Hf i j Hin) as Hlc.
  unfold DARPModelLB.load_consistency in Hlc. simpl in Hlc. rewrite Hx in Hlc. lra.
Qed.

Lemma LB_load_within_capacity (m : DARPModelLB.Model) (v : DARPModelLB.assignment)
    (j : string) :
  DARPModelLB.feasible m v → j ∈ DARPModelLB.J m →
  (0 <= DARPModelLB.Q_val v j <= DARPModelLB.Q_max m)%Q
  ∧ (DARPModelLB.q m j <= DARPModelLB.Q_val v j)%Q.
Proof.
  intros Hf Hj. pose proof (DARPModelLB.capacity_bound_holds m v Hf j Hj) as [Hlo Hhi].
  pose proof (Q.le_max_l 0 (DARPModelLB.q m j)).
  pose proof (Q.le_max_r 0 (DARPModelLB.q m j)).
  pose proof (Q.le_min_l (DARPModelLB.Q_max m) (DARPModelLB.Q_max m + DARPModelLB.q m j)).
  split_and!; lra.
Qed.

Lemma lb_walk_to_consecutive (routes : list DARPModelLB.leg) (c : string)
    (legs : list DARPModelLB.leg) (n : string) :
  lb_walk_to routes c legs n →
  ∀ k a b, (c :: map DARPModelLB.to legs) !! k = Some a →
           (c :: map DARPModelLB.to legs) !! S k = Some b →
           ∃ nl, nl ∈ routes ∧ DARPModelLB.from nl = a ∧ DARPModelLB.to nl = b.
Proof.
  induction 1 as [c|c nl legs n _ Hnl _ IH]; intros k a b Ha Hb.
  - by destruct k.
  - destruct k as [|k].
    + cbn in Ha, Hb. injection Ha as <-. injection Hb as <-.
      apply next_leg_Some in Hnl as [Hin Hfrom]. eauto.
    + apply (IH k a b); [exact Ha|exact Hb].
Qed.

Lemma LB_route_consecutive (i : LBInput) (v : DARPModelLB.assignment) (j : string)
    (legs : list DARPModelLB.leg) (n : string) :
  ("0_start", j) ∈ lb_selected (lb_model_of i) v →
  lb_walk_to (lb_routes (lb_model_of i) v) j legs n →
  ∀ k a b, ("0_start" :: j :: map DARPModelLB.to legs) !! k = Some a →
           ("0_start" :: j :: map DARPModelLB.to legs) !! S k = Some b →
           (a, b) ∈ lb_selected (lb_model_of i) v.
Proof.
  intros Hj Hw k a b Ha Hb. destruct k as [|k].
  - cbn in Ha, Hb. injection Ha as <-. by injection Hb as <-.
  - destruct (lb_walk_to_consecutive _ _ _ _ Hw k a b Ha Hb) as (nl & Hnl & <- & <-).
    by apply lb_routes_elem_of in Hnl as [Hnl _].
Qed.

Lemma lookup_map {T U} (f : T → U) (xs : list T) (k : nat) :
  map f xs !! k = f <$> xs !! k.
Proof. revert k. induction xs as [|a xs IH]; intros [|k]; cbn; auto. Qed.

(** Under a feasible assignment of a constructed model whose arcs all take a
    positive time, the summary reports a consistent itinerary on every route: each
    time lies in the time window of its node, each leg takes at least the
    service time of its tail plus the travel time, each load lies between
    [0] and the capacity, and along each leg the load grows by at least
    the load change of the node reached. *)
Theorem LB_feasible_itinerary_consistent (d : gmap string pyvalue) (i : LBInput)
    (v : DARPModelLB.assignment) (fuel : nat) :
  lb_data_has d i →
  (DARPModelLB.__init__ d).2 = Ok tt →
  DARPModelLB.feasible (lb_model_of i) v →
  (∀ a b, (a, b) ∈ DARPModelLB.A (lb_model_of i) →
          (0 < DARPModelLB.s (lb_model_of i) a + DARPModelLB.t (lb_model_of i) (a, b))%Q) →
  length (lb_selected (lb_model_of i) v) + 2 ≤ fuel →
  ∃ summary,
    (DARPModelLB.get_route_summary fuel (lb_solved d v)).2 = Ok (inr summary)
    ∧ ∀ j info, summary !! j = Some info →
        (∀ k a ta,
           DARPModelLB.route info !! k = Some a → DARPModelLB.times info !! k = Some ta →
           (in_tw_start i a <= ta <= in_tw_end i a)%Q)
        ∧ (∀ k a b ta tb,
             DARPModelLB.route info !! k = Some a →
             DARPModelLB.route info !! S k = Some b →
             DARPModelLB.times info !! k = Some ta →
             DARPModelLB.times info !! S k = Some tb →
             (ta + in_service_times i a + in_travel_times i (a, b) <= tb)%Q)
        ∧ (∀ k la, DARPModelLB.loads info !! k = Some la → (0 <= la <= in_capacity i)%Q)
        ∧ (∀ k b la lb,
             DARPModelLB.route info !! S k = Some b →
             DARPModelLB.loads info !! k = Some la →
             DARPModelLB.loads info !! S k = Some lb →
             (la + in_load_change i b <= lb)%Q).
Proof.
  intros Hd Hinit Hf Hpos Hfuel.
  destruct (LB_summary_shape d i v fuel Hd Hinit (LB_time_potential_acyclic _ _ Hf Hpos) Hfuel)
    as (summary & Hs & Hkeys & Hentries).
  exists summary. split; [done|]. intros j info Hinfo.
  destruct (Hentries j info Hinfo) as (legs & n & Hw & _ & Hroute & _ & Htimes & Hloads).
  assert (("0_start", j) ∈ lb_selected (lb_model_of i) v) as Hj
    by (apply Hkeys; by eexists).
  pose proof (LB_route_consecutive i v j legs n Hj Hw) as Hcons.
  rewrite <- Hroute in Hcons.
  assert (∀ k a, DARPModelLB.route info !! k = Some a →
                 a ∈ DARPModelLB.J (lb_model_of i)) as HJ.
  { intros k a Ha. destruct k as [|k].
    - rewrite Hroute in Ha. injection Ha as <-. apply LB_nodes. by left.
    - destruct (DARPModelLB.route info !! k) as [a0|] eqn:Ha0.
      + pose proof (Hcons k a0 a Ha0 Ha) as [_ HA]%list_elem_of_filter.
        apply LB_arcs in HA. tauto.
      + apply lookup_ge_None in Ha0. apply lookup_lt_Some in Ha. lia. }
  assert (∀ k a la, DARPModelLB.route info !! S k = Some a →
                    DARPModelLB.loads info !! S k = Some la →
                    la = DARPModelLB.Q_val v a) as HQ.
  { intros k a la Ha Hla. rewrite Hroute in Ha. rewrite Hloads in Hla.
    change (("0_start" :: j :: map DARPModelLB.to legs) !! S k)
      with ((j :: map DARPModelLB.to legs) !! k) in Ha.
    change ((0%Q :: map (DARPModelLB.Q_val v) (j :: map DARPModelLB.to legs)) !! S k)
      with (map (DARPModelLB.Q_val v) (j :: map DARPModelLB.to legs) !! k) in Hla.
    rewrite lookup_map, Ha in Hla. by injection Hla as <-. }
  assert (∀ k a ta, DARPModelLB.route info !! k = Some a →
                    DARPModelLB.times info !! k = Some ta →
                    ta = DARPModelLB.B_val v a) as HB.
  { intros k a ta Ha Hta. rewrite Htimes, lookup_map, Ha in Hta.
    by injection Hta as <-. }
  split_and!.
  - intros k a ta Ha Hta. rewrite (HB k a ta Ha Hta).
    apply (DARPModelLB.service_windows_holds _ _ Hf a (HJ k a Ha)).
  - intros k a b ta tb Ha Hb Hta Htb.
    rewrite (HB k a ta Ha Hta), (HB (S k) b tb Hb Htb).
    apply (LB_selected_arc_advances_time (lb_model_of i) v a b Hf). by apply (Hcons k).
  - intros k la Hla. destruct k as [|k].
    + rewrite Hloads in Hla. injection Hla as <-.
      destruct (LB_load_within_capacity (lb_model_of i) v "0_start" Hf) as [[? ?] _];
        [apply LB_nodes; by left|].
      cbn [lb_model_of DARPModelLB.Q_max] in *. lra.
    + destruct (DARPModelLB.route info !! S k) as [a|] eqn:Ha.
      * rewrite (HQ k a la Ha Hla).
        apply (LB_load_within_capacity (lb_model_of i) v a Hf (HJ _ _ Ha)).
      * apply lookup_ge_None in Ha. apply lookup_lt_Some in Hla.
        rewrite Hroute in Ha. rewrite Hloads in Hla. cbn [length] in Ha, Hla.
        rewrite length_map in Hla. cbn [length] in Hla. lia.
  - intros k b la lb Hb Hla Hlb. rewrite (HQ k b lb Hb Hlb). destruct k as [|k].
    + rewrite Hloads in Hla. injection Hla as <-.
      destruct (LB_load_within_capacity (lb_model_of i) v b Hf (HJ _ _ Hb)) as [_ Hq].
      cbn [lb_model_of DARPModelLB.q] in Hq. lra.
    + destruct (DARPModelLB.route info !! S k) as [a|] eqn:Ha.
      * rewrite (HQ k a la Ha Hla).
        apply (LB_selected_arc_advances_load (lb_model_of i) v a b Hf).
        by apply (Hcons (S k)).
      * apply lookup_ge_None in Ha. apply lookup_lt_Some in Hb. lia.
Qed.

Lemma LB_feasible_itinerary_consistent_witness :
  ∃ summary,
    (DARPModelLB.get_route_summary 9
       (lb_solved Instances.get_example_instance example_solution)).2
    = Ok (inr summary)
    ∧ ∀ j info, summary !! j = Some info →
        (∀ k a ta,
           DARPModelLB.route info !! k = Some a → DARPModelLB.times info !! k = Some ta →
           (in_tw_start example_input a <= ta <= in_tw_end example_input a)%Q)
        ∧ (∀ k a b ta tb,
             DARPModelLB.route info !! k = Some a →
             DARPModelLB.route info !! S k = Some b →
             DARPModelLB.times info !! k = Some ta →
             DARPModelLB.times info !! S k = Some tb →
             (ta + in_service_times example_input a + in_travel_times example_input (a, b)
              <= tb)%Q)
        ∧ (∀ k la, DARPModelLB.loads info !! k = Some la →
                   (0 <= la <= in_capacity example_input)%Q)
        ∧ (∀ k b la lb,
             DARPModelLB.route info !! S k = Some b →
             DARPModelLB.loads info !! k = Some la →
             DARPModelLB.loads info !! S k = Some lb →
             (la + in_load_change example_input b <= lb)%Q).
Proof.
  apply (LB_feasible_itinerary_consistent Instances.get_example_instance example_input
           example_solution 9).
  - apply example_data_has.
  - apply example_constructed.
  - apply example_solution_feasible.
  - apply example_durations_positive.
  - by_compute.
Defined.

(** ** The objective *)

Lemma sum_binary_weighted {T} (c x : T → Q) (xs : list T) :
  (∀ a, a ∈ xs → Binary (x a)) →
  (sum (map (λ a, c a * x a) xs) == sum (map c (filter (λ a, active (x a)) xs)))%Q.
Proof.
  induction xs as [|a xs IH]; intros Hbin; [done|].
  cbn [map]. rewrite sum_cons, IH by (intros; apply Hbin; by right).
  pose proof (active_binary (x a) (Hbin a ltac:(left))) as Ha.
  rewrite filter_cons. destruct (active (x a)); simpl Is_true.
  - rewrite decide_True by exact I. cbn [map]. rewrite sum_cons, Ha. ring.
  - rewrite decide_False by (intros []). rewrite Ha. ring.
Qed.

(** For binary values of [x] the objective of either formulation is the
    sum of the costs of the selected arcs, the arcs that
    [get_route_summary] follows. *)
Theorem objective_is_cost_of_selected_arcs :
  (∀ m v,
     (∀ a, a ∈ DARPModelLB.A m → Binary (DARPModelLB.x_val v a)) →
     (DARPModelLB.obj m v == sum (map (DARPModelLB.c m) (lb_selected m v)))%Q)
  ∧ (∀ m a,
       (∀ uv, uv ∈ DARPModelLAEB.A m → Binary (DARPModelLAEB.x_val a uv)) →
       (DARPModelLAEB.obj m a == sum (map (DARPModelLAEB.c m) (laeb_selected m a)))%Q).
Proof.
  split; intros m v Hbin.
  - apply (sum_binary_weighted (DARPModelLB.c m) (DARPModelLB.x_val v)), Hbin.
  - apply (sum_binary_weighted (DARPModelLAEB.c m) (DARPModelLAEB.x_val v)), Hbin.
Qed.

Lemma objective_is_cost_of_selected_arcs_witness :
  (DARPModelLB.obj (lb_model_of example_input) example_solution
   == sum (map (DARPModelLB.c (lb_model_of example_input))
               (lb_selected (lb_model_of example_input) example_solution)))%Q
  ∧ (DARPModelLAEB.obj location_model location_solution
     == sum (map (DARPModelLAEB.c location_model)
                 (laeb_selected location_model location_solution)))%Q.
Proof.
  split.
  - apply (proj1 objective_is_cost_of_selected_arcs).
    apply (DARPModelLB.x_domain _ _ example_solution_feasible).
  - apply (proj2 objective_is_cost_of_selected_arcs). intros uv _. by right.
Defined.

(** ** The number of pairing-and-precedence subsets *)

Lemma length_bind_sum {T U} (f : T → list U) (xs : list T) :
  length (xs ≫= f) = sum_list_with (λ a, length (f a)) xs.
Proof.
  induction xs as [|a xs IH]; [done|].
  rewrite bind_cons, length_app, IH. reflexivity.
Qed.

Lemma sum_list_with_seq_S (f : nat → nat) (a k : nat) :
  sum_list_with f (seq (S a) k) = sum_list_with (λ r, f (S r)) (seq a k).
Proof.
  revert a. induction k as [|k IH]; intros a; [done|].
  cbn [seq sum_list_with]. by rewrite IH.
Qed.

Lemma sum_list_with_plus {T} (f g : T → nat) (xs : list T) :
  sum_list_with (λ a, f a + g a) xs = sum_list_with f xs + sum_list_with g xs.
Proof. induction xs as [|a xs IH]; [done|]. cbn [sum_list_with]. lia. Qed.

Lemma sum_list_with_le {T} (f g : T → nat) (xs : list T) :
  (∀ a, f a ≤ g a) → sum_list_with f xs ≤ sum_list_with g xs.
Proof.
  intros Hle. induction xs as [|a xs IH]; [done|].
  cbn [sum_list_with]. specialize (Hle a). lia.
Qed.

Lemma sum_list_with_eq {T} (f g : T → nat) (xs : list T) :
  (∀ a, f a = g a) → sum_list_with f xs = sum_list_with g xs.
Proof.
  intros Heq. induction xs as [|a xs IH]; [done|].
  cbn [sum_list_with]. by rewrite Heq, IH.
Qed.

Lemma combinations_count {T} (pool : list T) (m : nat) :
  length pool < m →
  sum_list_with (λ r, length (DARPModelLB.combinations pool r)) (seq 0 m)
  = 2 ^ length pool.
Proof.
  revert m. induction pool as [|a rest IH]; intros m Hm.
  - destruct m as [|m]; [lia|]. cbn [seq sum_list_with].
    rewrite sum_list_with_seq_S. cbn [DARPModelLB.combinations length].
    assert (sum_list_with (λ _ : nat, 0) (seq 0 m) = 0) as ->; [|done].
    clear. generalize 0 at 2. induction m as [|m IH]; intros a; [done|].
    cbn [seq sum_list_with]. by rewrite IH.
  - destruct m as [|m]; [lia|]. cbn [length] in Hm.
    cbn [seq sum_list_with]. rewrite sum_list_with_seq_S.
    cbn [DARPModelLB.combinations].
    assert (∀ r, length (map (cons a) (DARPModelLB.combinations rest r)
                         ++ DARPModelLB.combinations rest (S r))
                 = length (DARPModelLB.combinations rest r)
                   + length (DARPModelLB.combinations rest (S r))) as Hlen.
    { intros r. by rewrite length_app, length_map. }
    rewrite (sum_list_with_eq _ (λ r, length (DARPModelLB.combinations rest r)
                                    + length (DARPModelLB.combinations rest (S r))))
      by (intros; apply Hlen).
    rewrite sum_list_with_plus.
    rewrite <- (sum_list_with_seq_S (λ r, length (DARPModelLB.combinations rest r)) 0 m).
    rewrite (IH m) by lia.
    pose proof (IH (S m) ltac:(lia)) as Hfull.
    cbn [seq sum_list_with] in Hfull.
    assert (length (DARPModelLB.combinations rest 0) = 1) as H0 by by destruct rest.
    rewrite H0 in Hfull. cbn [length]. rewrite Nat.pow_succ_r'. lia.
Qed.

(** [_generate_s_sets] goes through [2^n - 1] candidate subsets, where [n]
    is the number of entries of [P] and [D] together, and so the model
    gets at most that many pairing-and-precedence constraints. *)
Theorem LB_generate_s_sets_bound (requests : list Z) (P D : list string) :
  length (r ← seq 1 (length (P ++ D)); DARPModelLB.combinations (P ++ D) r)
  = 2 ^ length (P ++ D) - 1
  ∧ length (DARPModelLB.s_sets_of requests P D) ≤ 2 ^ length (P ++ D) - 1.
Proof.
  assert (length (r ← seq 1 (length (P ++ D)); DARPModelLB.combinations (P ++ D) r)
          = 2 ^ length (P ++ D) - 1) as Hcount.
  { rewrite length_bind_sum.
    pose proof (combinations_count (P ++ D) (S (length (P ++ D))) ltac:(lia)) as Hall.
    cbn [seq sum_list_with] in Hall.
    assert (length (DARPModelLB.combinations (P ++ D) 0) = 1) as H0
      by by destruct (P ++ D).
    rewrite H0 in Hall. lia. }
  split; [done|]. rewrite <- Hcount. unfold DARPModelLB.s_sets_of. cbv zeta.
  rewrite !length_bind_sum. apply sum_list_with_le. intros r.
  rewrite length_bind_sum.
  generalize (DARPModelLB.combinations (P ++ D) r). intros subs.
  induction subs as [|sub subs IH]; [done|].
  cbn [sum_list_with length]. destruct (DARPModelLB.has_delivery_without_pickup _ _);
    cbn [length]; lia.
Qed.

(** ** Ride times on the routes of a feasible LB assignment *)

(** Under a feasible assignment of a constructed model whose arcs all take a
    positive time, the summary shows for every request a route that reaches the
    pickup node before the delivery node, and the time reported at the
    delivery node exceeds the time reported at the pickup node plus the
    service time there by at most the maximum ride time of the request. *)
Theorem LB_feasible_ride_time (d : gmap string pyvalue) (i : LBInput)
    (v : DARPModelLB.assignment) (fuel : nat) (r : Z) :
  lb_data_has d i →
  (DARPModelLB.__init__ d).2 = Ok tt →
  DARPModelLB.feasible (lb_model_of i) v →
  (∀ a b, (a, b) ∈ DARPModelLB.A (lb_model_of i) →
          (0 < DARPModelLB.s (lb_model_of i) a + DARPModelLB.t (lb_model_of i) (a, b))%Q) →
  length (lb_selected (lb_model_of i) v) + 2 ≤ fuel →
  r ∈ in_Requests i →
  delivery_name r ∈ in_P i ++ in_D i →
  ∃ summary,
    (DARPModelLB.get_route_summary fuel (lb_solved d v)).2 = Ok (inr summary)
    ∧ ∃ j info kp kd tp td,
        summary !! j = Some info
        ∧ kp < kd
        ∧ DARPModelLB.route info !! kp = Some (pickup_name r)
        ∧ DARPModelLB.route info !! kd = Some (delivery_name r)
        ∧ DARPModelLB.times info !! kp = Some tp
        ∧ DARPModelLB.times info !! kd = Some td
        ∧ (td - (tp + in_service_times i (pickup_name r)) <= in_max_ride_time i r)%Q.
Proof.
  intros Hd Hinit Hf Hpos Hfuel Hr Hdel.
  destruct (LB_pickup_first d i v fuel r Hd Hinit Hf Hpos Hfuel Hr Hdel)
    as (summary & Hs & j & info & pre & mid & post & Hinfo & Hroute).
  destruct (LB_summary_shape d i v fuel Hd Hinit (LB_time_potential_acyclic _ _ Hf Hpos) Hfuel)
    as (summary' & Hs' & _ & Hentries).
  assert (summary' = summary) as -> by congruence.
  destruct (Hentries j info Hinfo) as (_ & _ & _ & _ & _ & _ & Htimes & _).
  exists summary. split; [done|].
  exists j, info, (length pre), (length pre + S (length mid)),
         (DARPModelLB.B_val v (pickup_name r)), (DARPModelLB.B_val v (delivery_name r)).
  assert (DARPModelLB.route info !! length pre = Some (pickup_name r)) as Hp.
  { rewrite Hroute. by apply list_lookup_middle. }
  assert (DARPModelLB.route info !! (length pre + S (length mid))
          = Some (delivery_name r)) as Hdl.
  { rewrite Hroute.
    change (pre ++ pickup_name r :: mid ++ delivery_name r :: post)
      with (pre ++ (pickup_name r :: mid) ++ delivery_name r :: post).
    rewrite app_assoc. apply list_lookup_middle.
    rewrite length_app. cbn [length]. lia. }
  split_and!; [done|lia|done|done| | |].
  - by rewrite Htimes, lookup_map, Hp.
  - by rewrite Htimes, lookup_map, Hdl.
  - apply (DARPModelLB.max_ride_duration_holds _ _ Hf r).
    cbn [lb_model_of DARPModelLB.Requests]. by apply elem_of_Set_initialize.
Qed.

Lemma LB_feasible_ride_time_witness :
  ∃ summary,
    (DARPModelLB.get_route_summary 9
       (lb_solved Instances.get_example_instance example_solution)).2
    = Ok (inr summary)
    ∧ ∃ j info kp kd tp td,
        summary !! j = Some info
        ∧ kp < kd
        ∧ DARPModelLB.route info !! kp = Some (pickup_name 3)
        ∧ DARPModelLB.route info !! kd = Some (delivery_name 3)
        ∧ DARPModelLB.times info !! kp = Some tp
        ∧ DARPModelLB.times info !! kd = Some td
        ∧ (td - (tp + in_service_times example_input (pickup_name 3))
           <= in_max_ride_time example_input 3)%Q.
Proof.
  apply (LB_feasible_ride_time Instances.get_example_instance example_input
           example_solution 9 3).
  - apply example_data_has.
  - apply example_constructed.
  - apply example_solution_feasible.
  - apply example_durations_positive.
  - by_compute.
  - by_compute.
  - by_compute.
Defined.

(** ** Every customer is visited once *)

Lemma lb_walk_to_snoc_inv (routes : list DARPModelLB.leg) (c : string)
    (legs : list DARPModelLB.leg) (n : string) :
  lb_walk_to routes c legs n →
  (legs = [] ∧ n = c)
  ∨ ∃ legs0 nl, legs = legs0 ++ [nl]
                ∧ lb_walk_to routes c legs0 (DARPModelLB.from nl)
                ∧ DARPModelLB.to nl = n ∧ nl ∈ routes.
Proof.
  induction 1 as [c|c nl legs n Hc Hnl Hw IH]; [by left|]. right.
  pose proof Hnl as [Hin Hfrom]%next_leg_Some.
  destruct IH as [[-> ->]|(legs0 & nl' & -> & Hw0 & Hto & Hin')].
  - exists [], nl. rewrite Hfrom. split_and!; [done|apply lb_walk_here|done|done].
  - exists (nl :: legs0), nl'. split_and!; [done| |done|done].
    by apply lb_walk_step.
Qed.

Lemma lb_walk_to_split (routes : list DARPModelLB.leg) (c : string)
    (legs : list DARPModelLB.leg) (n k : string) :
  lb_walk_to routes c legs n →
  k ∈ c :: map DARPModelLB.to legs →
  ∃ legs0, lb_walk_to routes c legs0 k.
Proof.
  induction 1 as [c|c nl legs n Hc Hnl Hw IH]; intros Hk.
  - apply list_elem_of_singleton in Hk as ->. exists []. apply lb_walk_here.
  - apply elem_of_cons in Hk as [->|Hk]; [exists []; apply lb_walk_here|].
    destruct (IH Hk) as [legs0 Hw0]. exists (nl :: legs0). by apply lb_walk_step.
Qed.

Section LBRoutes.
Context (i : LBInput) (v : DARPModelLB.assignment).
Hypothesis is_feasible : DARPModelLB.feasible (lb_model_of i) v.
Hypothesis positive_durations :
  ∀ a b, (a, b) ∈ DARPModelLB.A (lb_model_of i) →
         (0 < DARPModelLB.s (lb_model_of i) a + DARPModelLB.t (lb_model_of i) (a, b))%Q.

Lemma LB_selected_arc_later (a b : string) :
  (a, b) ∈ lb_selected (lb_model_of i) v →
  (DARPModelLB.B_val v a < DARPModelLB.B_val v b)%Q.
Proof.
  intros Hsel.
  pose proof (LB_selected_arc_advances_time _ _ _ _ is_feasible Hsel) as Hadv.
  apply list_elem_of_filter in Hsel as [_ Hin]. specialize (positive_durations a b Hin).
  lra.
Qed.

Lemma LB_walk_increasing (c : string) (legs : list DARPModelLB.leg) (n : string) :
  lb_walk_to (lb_routes (lb_model_of i) v) c legs n →
  ∀ k, k ∈ map DARPModelLB.to legs →
       (DARPModelLB.B_val v c < DARPModelLB.B_val v k)%Q.
Proof.
  induction 1 as [c|c nl legs n Hc Hnl Hw IH]; intros k Hk.
  - by apply elem_of_nil in Hk.
  - apply next_leg_Some in Hnl as [Hin Hfrom].
    apply lb_routes_elem_of in Hin as [Hsel _]. rewrite Hfrom in Hsel.
    apply LB_selected_arc_later in Hsel.
    apply elem_of_cons in Hk as [->|Hk]; [done|]. specialize (IH k Hk). lra.
Qed.

Lemma LB_walk_NoDup (c : string) (legs : list DARPModelLB.leg) (n : string) :
  lb_walk_to (lb_routes (lb_model_of i) v) c legs n →
  NoDup (c :: map DARPModelLB.to legs).
Proof.
  intros Hw. pose proof (LB_walk_increasing c legs n Hw) as Hinc.
  induction Hw as [c|c nl legs n Hc Hnl Hw IH]; [apply NoDup_singleton|].
  apply NoDup_cons. split.
  - intros Hin. specialize (Hinc c Hin). revert Hinc. apply Qlt_irrefl.
  - apply IH. by apply (LB_walk_increasing _ _ n).
Qed.

Lemma LB_walk_node_not_start (j : string) (legs : list DARPModelLB.leg) (n : string) :
  ("0_start", j) ∈ lb_selected (lb_model_of i) v →
  lb_walk_to (lb_routes (lb_model_of i) v) j legs n →
  n ≠ "0_start".
Proof.
  intros Hj Hw. destruct (lb_walk_to_end _ _ _ _ Hw) as [->|(nl & Hin & <-)].
  - apply list_elem_of_filter in Hj as [_ HA]. apply LB_arcs in HA. tauto.
  - by apply (lb_routes_to_not_start i v).
Qed.

Lemma LB_walk_origin_unique (c : string) :
  c ∈ in_P i ++ in_D i →
  ∀ j1 legs1 j2 legs2,
    ("0_start", j1) ∈ lb_selected (lb_model_of i) v →
    ("0_start", j2) ∈ lb_selected (lb_model_of i) v →
    lb_walk_to (lb_routes (lb_model_of i) v) j1 legs1 c →
    lb_walk_to (lb_routes (lb_model_of i) v) j2 legs2 c →
    j1 = j2.
Proof.
  remember (length (filter (λ k, Qgtb (DARPModelLB.B_val v c) (DARPModelLB.B_val v k))
                           (DARPModelLB.J (lb_model_of i)))) as n eqn:Hn.
  revert c Hn. induction (lt_wf n) as [n _ IH].
  intros c -> Hc j1 legs1 j2 legs2 Hj1 Hj2 Hw1 Hw2.
  destruct (LB_feasible_predecessor i v c is_feasible Hc) as [p Hp].
  assert (∀ j legs nl, ("0_start", j) ∈ lb_selected (lb_model_of i) v →
            lb_walk_to (lb_routes (lb_model_of i) v) j legs (DARPModelLB.from nl) →
            DARPModelLB.to nl = c → nl ∈ lb_routes (lb_model_of i) v →
            DARPModelLB.from nl = p ∧ p ≠ "0_start") as Hlast.
  { intros j legs nl Hj Hw Hto Hin.
    apply lb_routes_elem_of in Hin as [Hsel _]. rewrite Hto in Hsel.
    apply Hp in Hsel. split; [done|]. rewrite <- Hsel.
    by apply (LB_walk_node_not_start j legs). }
  destruct (lb_walk_to_snoc_inv _ _ _ _ Hw1) as [[-> ->]|(l1 & nl1 & -> & Hw1' & Hto1 & Hin1)];
    destruct (lb_walk_to_snoc_inv _ _ _ _ Hw2) as [[-> Hc2]|(l2 & nl2 & -> & Hw2' & Hto2 & Hin2)].
  - done.
  - destruct (Hlast _ _ _ Hj2 Hw2' Hto2 Hin2) as [_ Hps].
    apply Hp in Hj1. congruence.
  - destruct (Hlast _ _ _ Hj1 Hw1' Hto1 Hin1) as [_ Hps].
    rewrite <- Hc2 in Hj2. apply Hp in Hj2. congruence.
  - destruct (Hlast _ _ _ Hj1 Hw1' Hto1 Hin1) as [Hf1 Hps].
    destruct (Hlast _ _ _ Hj2 Hw2' Hto2 Hin2) as [Hf2 _].
    rewrite Hf1 in Hw1'. rewrite Hf2 in Hw2'.
    assert ((p, c) ∈ lb_selected (lb_model_of i) v) as Hsel by by apply Hp.
    assert (p ∈ in_P i ++ in_D i) as Hpc.
    { by destruct (LB_selected_arc i v p c Hsel) as [[?|?] _]. }
    pose proof (LB_selected_arc_later p c Hsel) as Hlt.
    assert (length (filter (λ k, Qgtb (DARPModelLB.B_val v p) (DARPModelLB.B_val v k))
                           (DARPModelLB.J (lb_model_of i)))
            < length (filter (λ k, Qgtb (DARPModelLB.B_val v c) (DARPModelLB.B_val v k))
                             (DARPModelLB.J (lb_model_of i)))) as Hless.
    { apply (length_filter_lt_mono _ _ _ p).
      - intros k. rewrite !Qgtb_lt. lra.
      - apply LB_nodes. tauto.
      - by apply Qgtb_lt.
      - rewrite Qgtb_lt. lra. }
    by apply (IH _ Hless p eq_refl Hpc j1 l1 j2 l2).
Qed.

End LBRoutes.

(** Under a feasible assignment of a constructed model whose arcs all take a
    positive time, no route of the summary passes twice through a node, and no
    pickup or delivery node lies on two routes of the summary. *)
Theorem LB_feasible_routes_visit_once (d : gmap string pyvalue) (i : LBInput)
    (v : DARPModelLB.assignment) (fuel : nat) :
  lb_data_has d i →
  (DARPModelLB.__init__ d).2 = Ok tt →
  DARPModelLB.feasible (lb_model_of i) v →
  (∀ a b, (a, b) ∈ DARPModelLB.A (lb_model_of i) →
          (0 < DARPModelLB.s (lb_model_of i) a + DARPModelLB.t (lb_model_of i) (a, b))%Q) →
  length (lb_selected (lb_model_of i) v) + 2 ≤ fuel →
  ∃ summary,
    (DARPModelLB.get_route_summary fuel (lb_solved d v)).2 = Ok (inr summary)
    ∧ (∀ j info, summary !! j = Some info → NoDup (DARPModelLB.route info))
    ∧ ∀ c j1 info1 j2 info2,
        c ∈ in_P i ++ in_D i →
        summary !! j1 = Some info1 → summary !! j2 = Some info2 →
        c ∈ DARPModelLB.route info1 → c ∈ DARPModelLB.route info2 →
        j1 = j2.
Proof.
  intros Hd Hinit Hf Hpos Hfuel.
  destruct (LB_summary_shape d i v fuel Hd Hinit (LB_time_potential_acyclic _ _ Hf Hpos) Hfuel)
    as (summary & Hs & Hkeys & Hentries).
  exists summary. split_and!; [done| |].
  - intros j info Hinfo.
    destruct (Hentries j info Hinfo) as (legs & n & Hw & _ & Hroute & _).
    assert (("0_start", j) ∈ lb_selected (lb_model_of i) v) as Hj
      by (apply Hkeys; by eexists).
    rewrite Hroute. apply NoDup_cons. split; [|by apply (LB_walk_NoDup i v Hf Hpos j legs n)].
    intros Hin. destruct (lb_walk_to_split _ _ _ _ _ Hw Hin) as [legs0 Hw0].
    by apply (LB_walk_node_not_start i v j legs0 "0_start" Hj Hw0).
  - intros c j1 info1 j2 info2 Hc H1 H2 Hc1 Hc2.
    assert (c ≠ "0_start") as Hcs.
    { destruct (LB_feasible_predecessor i v c Hf Hc) as [p Hp].
      assert ((p, c) ∈ lb_selected (lb_model_of i) v) as [_ HA]%list_elem_of_filter
        by by apply Hp.
      apply LB_arcs in HA. tauto. }
    assert (∀ j info, summary !! j = Some info → c ∈ DARPModelLB.route info →
              ("0_start", j) ∈ lb_selected (lb_model_of i) v
              ∧ ∃ legs0, lb_walk_to (lb_routes (lb_model_of i) v) j legs0 c) as Hreach.
    { intros j info Hinfo Hin.
      destruct (Hentries j info Hinfo) as (legs & n & Hw & _ & Hroute & _).
      split; [apply Hkeys; by eexists|].
      rewrite Hroute in Hin. apply elem_of_cons in Hin as [->|Hin]; [done|].
      by apply (lb_walk_to_split _ _ _ _ _ Hw). }
    destruct (Hreach j1 info1 H1 Hc1) as [Hj1 [l1 Hw1]].
    destruct (Hreach j2 info2 H2 Hc2) as [Hj2 [l2 Hw2]].
    by apply (LB_walk_origin_unique i v Hf Hpos c Hc j1 l1 j2 l2).
Qed.

Lemma LB_feasible_routes_visit_once_witness :
  ∃ summary,
    (DARPModelLB.get_route_summary 9
       (lb_solved Instances.get_example_instance example_solution)).2
    = Ok (inr summary)
    ∧ (∀ j info, summary !! j = Some info → NoDup (DARPModelLB.route info))
    ∧ ∀ c j1 info1 j2 info2,
        c ∈ in_P example_input ++ in_D example_input →
        summary !! j1 = Some info1 → summary !! j2 = Some info2 →
        c ∈ DARPModelLB.route info1 → c ∈ DARPModelLB.route info2 →
        j1 = j2.
Proof.
  apply (LB_feasible_routes_visit_once Instances.get_example_instance example_input
           example_solution 9).
  - apply example_data_has.
  - apply example_constructed.
  - apply example_solution_feasible.
  - apply example_durations_positive.
  - by_compute.
Defined.

(** ** Errors of the reconstruction *)

(** On a solved LB model [get_route_summary] never raises: every node it
    looks up is an index of [B] and [Q], and every path has a second
    entry. *)
Theorem reconstruction_errors (d : gmap string pyvalue) (i : LBInput)
    (sol : DARPModelLB.assignment) (fuel : nat) (e : exn) :
  lb_data_has d i →
  (DARPModelLB.__init__ d).2 = Ok tt →
  (DARPModelLB.get_route_summary fuel (lb_solved d sol)).2 ≠ Raise e.
Proof. apply LB_solved_no_raise. Qed.

Lemma reconstruction_errors_witness :
  (DARPModelLB.__init__ Instances.get_example_instance).2 = Ok tt
  ∧ (DARPModelLB.get_route_summary 9
       (lb_solved Instances.get_example_instance example_solution)).2 ≠ Raise IndexError.
Proof.
  split; [apply example_constructed|].
  apply (reconstruction_errors Instances.get_example_instance example_input).
  - apply example_data_has.
  - apply example_constructed.
Defined.

(** ** Keys that the LAEB construction requires but does not read *)

Lemma check_keys_same_keys (prefix : string) (keys : list string)
    (d d' : gmap string pyvalue) :
  (∀ k, is_Some (d' !! k) ↔ is_Some (d !! k)) →
  check_keys prefix keys d' = check_keys prefix keys d.
Proof.
  intros Hsame. induction keys as [|k keys IH]; simpl; [done|].
  destruct (d !! k) as [v|] eqn:Hk, (d' !! k) as [v'|] eqn:Hk'; [done| | |done].
  - destruct (proj2 (Hsame k)) as [v' Hv']; [by rewrite Hk|congruence].
  - destruct (proj1 (Hsame k)) as [v Hv]; [by rewrite Hk'|congruence].
Qed.

Lemma LAEB_declare_components_same (d d' : gmap string pyvalue) :
  same_except ["P"; "D"] d d' →
  DARPModelLAEB.declare_components d' = DARPModelLAEB.declare_components d.
Proof.
  intros Hsame. unfold DARPModelLAEB.declare_components, getitem.
  by rewrite !(proj2 (Hsame _)) by by_compute.
Qed.

(** Validation requires the keys ['P'] and ['D'], but construction never
    reads them: whatever is bound to them, the constructor ends in the same
    way. *)
Theorem LAEB_P_and_D_are_not_read (d d' : gmap string pyvalue) :
  same_except ["P"; "D"] d d' →
  (DARPModelLAEB.__init__ d').2 = (DARPModelLAEB.__init__ d).2.
Proof.
  intros Hsame. rewrite !LAEB_init_unfold.
  rewrite (check_keys_same_keys _ _ d d') by (intros k; apply Hsame).
  destruct (check_keys _ _ d) as [[]| |]; [|done..].
  unfold DARPModelLAEB._build_model.
  unfold mbind, M_bind, mbind_M, get, lift, put. cbn [DARPModelLAEB.data].
  rewrite (LAEB_declare_components_same d d' Hsame).
  destruct (DARPModelLAEB.declare_components d) as [m| |]; [|done..].
  destruct (Constraint (DARPModelLAEB.V m) _) as [cs1| |]; [|done..].
  destruct (Constraint (DARPModelLAEB.R m) _) as [cs2| |]; [|done..].
  by destruct (LAEB_fleet_limit_raises m) as [e ->].
Qed.

Lemma LAEB_P_and_D_are_not_read_witness :
  (DARPModelLAEB.__init__
     (<["P" := VNum 0]> (<["D" := VNum 0]> Instances.test_data))).2
  = (DARPModelLAEB.__init__ Instances.test_data).2.
Proof.
  apply (LAEB_P_and_D_are_not_read Instances.test_data).
  intros k. split.
  - destruct (decide (k = "P")) as [->|HP];
      [rewrite lookup_insert_eq; split; [by eexists|intros _; by eexists]|].
    rewrite lookup_insert_ne by done.
    destruct (decide (k = "D")) as [->|HD];
      [rewrite lookup_insert_eq; split; [by eexists|intros _; by eexists]|].
    by rewrite lookup_insert_ne by done.
  - intros Hk. rewrite !lookup_insert_ne; [done|..].
    + intros <-. apply Hk. by_compute.
    + intros <-. apply Hk. by_compute.
Defined.

(** ** When the LB constructor returns *)

(** On a well-typed bundle the LB constructor returns the model of the
    bundle exactly when neither depot name is listed among the pickup and
    delivery nodes, at least one pickup node is listed, and the pickup and
    delivery names of every request are listed; otherwise the first rule
    that returns a Boolean, or that indexes [B] by a name that is no node,
    raises its exception and no object is returned. *)
Theorem LB_constructor_outcome (d : gmap string pyvalue) (i : LBInput) :
  lb_data_has d i →
  DARPModelLB.__init__ d
  = match lb_construction_error i with
    | None => (DARPModelLB.mkSelf d (DARPModelLB.Built (lb_model_of i)), Ok tt)
    | Some e => (DARPModelLB.mkSelf d DARPModelLB.Fresh, Raise e)
    end.
Proof. exact (LB_init_outcome d i). Qed.

Lemma LB_constructor_outcome_witness :
  DARPModelLB.__init__ Instances.get_example_instance
  = (DARPModelLB.mkSelf Instances.get_example_instance
       (DARPModelLB.Built (lb_model_of example_input)), Ok tt)
  ∧ DARPModelLB.__init__ (<["P" := VNodes []]> Instances.get_example_instance)
    = (DARPModelLB.mkSelf (<["P" := VNodes []]> Instances.get_example_instance)
         DARPModelLB.Fresh,
       Raise (ValueError_in "fleet_limit")).
Proof.
  split.
  - rewrite (LB_constructor_outcome Instances.get_example_instance example_input
               example_data_has).
    assert (lb_construction_error example_input = None) as ->; [|reflexivity].
    vm_compute. reflexivity.
  - set (i := mkLBInput Instances.example_requests [] Instances.example_deliveries
                Instances.example_travel_times Instances.example_travel_times
                (λ _, 0%Q) Instances.example_load_change
                Instances.example_tw_start Instances.example_tw_end
                (λ _, 100%Q) 3 1).
    rewrite (LB_constructor_outcome (<["P" := VNodes []]> Instances.get_example_instance) i)
      by (repeat split; reflexivity).
    assert (lb_construction_error i = Some (ValueError_in "fleet_limit")) as ->;
      [|reflexivity].
    vm_compute. reflexivity.
Defined.
